(** * gh-tagger: semantic-version selection, bumping and bulk tagging

    A shallow embedding of the three Go programs of the repository

    - [gh-tag-fetcher.go]  (module [Fetcher]): lists the repositories of an
      organization, selects the latest semantic-version tag of each, bumps it
      and prints one line [github.com/<full name> v<new version>] per
      repository;
    - [gh-tag-creator.go]  (module [Creator]): reads such lines from standard
      input and creates the tags through the hosting API;
    - the interactive single-binary variant (module [Interactive]), which
      selects repositories with terminal prompts and creates the tags itself;

    together with the parts of the libraries they call: Go's [strings],
    [strconv] and [sort] packages and [github.com/Masterminds/semver/v3].

    Strings are byte strings ([string]), unsigned 64-bit integers are [Z]
    with the wrap-around written out, remote calls and terminal prompts are
    answered by an explicit oracle and recorded in a trace of events, and
    [log.Fatalf] is an outcome of the process rather than a jump. *)

From Stdlib Require Import ZArith List String Ascii Bool Lia.
From Stdlib Require Import Permutation Sorted.
Import ListNotations.

Open Scope string_scope.
Open Scope Z_scope.

(* ================================================================== *)
(** * Go's [strings] package *)
(* ================================================================== *)

(** [stripPrefix p s] is [Some r] when [s = p ++ r]. *)
Fixpoint stripPrefix (p s : string) : option string :=
  match p with
  | EmptyString => Some s
  | String c p' =>
      match s with
      | EmptyString => None
      | String d s' => if Ascii.eqb c d then stripPrefix p' s' else None
      end
  end.

(** [strings.TrimPrefix]: [s] without the leading [p], or [s] itself when
    [s] does not start with [p]. *)
Definition strings_TrimPrefix (s p : string) : string :=
  match stripPrefix p s with Some r => r | None => s end.

(** [strings.Split(s, sep)] for a one-byte separator: the substrings
    between the separators; never empty ([Split("", sep)] is [[""]]). *)
Fixpoint strings_Split (s : string) (sep : ascii) : list string :=
  match s with
  | EmptyString => [EmptyString]
  | String c s' =>
      if Ascii.eqb c sep then EmptyString :: strings_Split s' sep
      else match strings_Split s' sep with
           | h :: t => String c h :: t
           | [] => [String c EmptyString]
           end
  end.

(** [strings.Join]. *)
Fixpoint strings_Join (elems : list string) (sep : string) : string :=
  match elems with
  | [] => EmptyString
  | [e] => e
  | e :: rest => e ++ sep ++ strings_Join rest sep
  end.

(** [strings.Repeat]. *)
Fixpoint strings_Repeat (s : string) (count : nat) : string :=
  match count with
  | O => EmptyString
  | S n => s ++ strings_Repeat s n
  end.

(** [len(s)], in bytes. *)
Definition len (s : string) : Z := Z.of_nat (String.length s).

(** Comparison of Go strings with [<] and [>]: bytewise lexicographic. *)
Definition string_gt (s o : string) : bool :=
  match String.compare s o with Gt => true | _ => false end.

(* ================================================================== *)
(** * Unsigned 64-bit integers, [strconv.ParseUint] and [%d] *)
(* ================================================================== *)

Definition maxUint64 : Z := 2 ^ 64 - 1.

(** Arithmetic of [uint64]: results are reduced modulo [2^64]. *)
Definition u64 (z : Z) : Z := z mod 2 ^ 64.

Definition byte_of (c : ascii) : Z := Z.of_N (N_of_ascii c).

(** ['0' <= c && c <= '9']. *)
Definition is_digit (c : ascii) : bool :=
  (48 <=? byte_of c) && (byte_of c <=? 57).

(** The loop of [strconv.ParseUint(s, 10, 64)] over the bytes of [s], with
    the accumulator [n]: a byte that is not a decimal digit is a syntax
    error, and both overflow tests ([n >= cutoff] before the
    multiplication, [n1 < n || n1 > maxVal] after the addition) are range
    errors. Both errors are [None]. *)
Fixpoint parseUint_loop (s : string) (n : Z) : option Z :=
  match s with
  | EmptyString => Some n
  | String c s' =>
      if is_digit c then
        let d := byte_of c - 48 in
        let cutoff := maxUint64 / 10 + 1 in
        if cutoff <=? n then None
        else
          let n' := u64 (n * 10) in
          let n1 := u64 (n' + d) in
          if (n1 <? n') || (maxUint64 <? n1) then None
          else parseUint_loop s' n1
      else None
  end.

(** [strconv.ParseUint(s, 10, 64)]; the empty string is a syntax error. *)
Definition strconv_ParseUint (s : string) : option Z :=
  match s with
  | EmptyString => None
  | _ => parseUint_loop s 0
  end.

Definition digit_char (d : Z) : ascii := ascii_of_N (Z.to_N (48 + d)).

(** The digits of [n], most significant first, in front of [acc]; at most
    [fuel] digits are produced (twenty are enough for a [uint64]). *)
Fixpoint format_digits (fuel : nat) (n : Z) (acc : string) : string :=
  match fuel with
  | O => acc
  | S fuel' =>
      let acc' := String (digit_char (n mod 10)) acc in
      if n / 10 =? 0 then acc' else format_digits fuel' (n / 10) acc'
  end.

(** [fmt.Sprintf("%d", n)] for a [uint64]. *)
Definition format_uint (n : Z) : string := format_digits 20 n EmptyString.

(* ================================================================== *)
(** * The library [github.com/Masterminds/semver/v3] *)
(* ================================================================== *)

(** The definitions of this module follow [version.go] of the library,
    function by function and under the library's names: the parser
    [NewVersion] with its regular expression and its validation of the
    pre-release and of the metadata, [String], the three increments and
    [Compare] with its helpers. The segments are [uint64], so the
    increments wrap around. *)

Module semver.

(** [type Version struct { major, minor, patch uint64; pre, metadata,
    original string }]. *)
Record Version : Type := mkVersion {
  major : Z;
  minor : Z;
  patch : Z;
  pre : string;
  metadata : string;
  original : string
}.

(** ** The grammar of [NewVersion]

    [versionRegex] is, anchored at both ends, the concatenation of
    - [v?([0-9]+)(\.[0-9]+)?(\.[0-9]+)?]: an optional [v], the major
      segment (group 1) and the optional minor and patch segments with their
      dots (groups 2 and 3);
    - an optional [-] followed by group 5, the pre-release;
    - an optional [+] followed by group 8, the metadata;
    where groups 5 and 8 are one or more identifiers [[0-9A-Za-z\-]+]
    separated by dots. *)

(** [const num = "0123456789"]. *)
Definition num : string := "0123456789".

(** [const allowed = "abc...xyzABC...XYZ-" + num]. *)
Definition allowed : string :=
  "abcdefghijklmnopqrstuvwxyzABCDEFGHIJKLMNOPQRSTUVWXYZ-" ++ num.

(** [strings.ContainsRune(comp, c)] for a byte [c]. *)
Fixpoint containsByte (comp : string) (c : ascii) : bool :=
  match comp with
  | EmptyString => false
  | String d comp' => Ascii.eqb c d || containsByte comp' c
  end.

(** [containsOnly(s, comp)]: every byte of [s] occurs in [comp]. *)
Fixpoint containsOnly (s comp : string) : bool :=
  match s with
  | EmptyString => true
  | String c s' => containsByte comp c && containsOnly s' comp
  end.

(** The longest prefix of [s] made of bytes satisfying [f], and the rest. *)
Fixpoint span (f : ascii -> bool) (s : string) : string * string :=
  match s with
  | EmptyString => (EmptyString, EmptyString)
  | String c s' =>
      if f c then let (a, b) := span f s' in (String c a, b)
      else (EmptyString, s)
  end.

(** An optional group [(\.[0-9]+)?] at the head of [s]: the text it
    matched (empty when the group does not take part) and the rest. *)
Definition dotDigits (s : string) : string * string :=
  match s with
  | EmptyString => (EmptyString, s)
  | String c r =>
      if Ascii.eqb c "."%char then
        let (d, r') := span is_digit r in
        match d with
        | EmptyString => (EmptyString, s)
        | _ => (String "."%char d, r')
        end
      else (EmptyString, s)
  end.

(** The pattern of groups 5 and 8 matching the whole of [p]:
    dot-separated, non-empty identifiers over the bytes of [allowed]. *)
Definition isIdents (p : string) : bool :=
  forallb (fun part => negb (String.eqb part EmptyString) && containsOnly part allowed)
          (strings_Split p "."%char).

(** The submatches 1, 2, 3, 5 and 8 of [versionRegex] on [v], or [None]
    when [v] does not match. A pre-release cannot contain ['+'], so group 5
    is the text between the ['-'] and the first ['+'] (or the end). *)
Definition versionRegex_FindStringSubmatch (v : string)
  : option (string * string * string * string * string) :=
  let s0 := strings_TrimPrefix v "v" in
  let (m1, s1) := span is_digit s0 in
  match m1 with
  | EmptyString => None
  | _ =>
      let (m2, s2) := dotDigits s1 in
      let (m3, s3) := dotDigits s2 in
      match s3 with
      | EmptyString => Some (m1, m2, m3, EmptyString, EmptyString)
      | String c r =>
          if Ascii.eqb c "-"%char then
            let (m5, r') := span (fun c => negb (Ascii.eqb c "+"%char)) r in
            if isIdents m5 then
              match r' with
              | EmptyString => Some (m1, m2, m3, m5, EmptyString)
              | String _ m8 =>
                  if isIdents m8 then Some (m1, m2, m3, m5, m8) else None
              end
            else None
          else if Ascii.eqb c "+"%char then
            (if isIdents r then Some (m1, m2, m3, EmptyString, r) else None)
          else None
      end
  end.

(** [validatePrerelease]: a numeric identifier must not start with a zero
    (unless it is ["0"]); any other identifier is made of [allowed] bytes. *)
Definition validatePrerelease (p : string) : bool :=
  forallb (fun part =>
             if containsOnly part num then
               negb ((1 <? len part) &&
                     match part with String "0"%char _ => true | _ => false end)
             else containsOnly part allowed)
          (strings_Split p "."%char).

(** [validateMetadata]. *)
Definition validateMetadata (m : string) : bool :=
  forallb (fun part => containsOnly part allowed) (strings_Split m "."%char).

(** One numeric segment of [NewVersion]: an absent group is [0], a present
    one is parsed without its dot. *)
Definition parseSegment (m : string) : option Z :=
  match m with
  | EmptyString => Some 0
  | _ => strconv_ParseUint (strings_TrimPrefix m ".")
  end.

(** [NewVersion(v)]: [None] stands for every error it returns
    ([ErrInvalidSemVer], a segment out of range, an invalid pre-release or
    metadata); its callers only test [err != nil]. *)
Definition NewVersion (v : string) : option Version :=
  match versionRegex_FindStringSubmatch v with
  | None => None
  | Some (m1, m2, m3, m5, m8) =>
      match strconv_ParseUint m1, parseSegment m2, parseSegment m3 with
      | Some ma, Some mi, Some pa =>
          if (String.eqb m5 EmptyString || validatePrerelease m5)
             && (String.eqb m8 EmptyString || validateMetadata m8)
          then Some (mkVersion ma mi pa m5 m8 v)
          else None
      | _, _, _ => None
      end
  end.

(** [Version.String()]: ["%d.%d.%d"], then ["-" + pre] and
    ["+" + metadata] when they are not empty. *)
Definition Version_String (v : Version) : string :=
  format_uint (major v) ++ "." ++ format_uint (minor v) ++ "."
    ++ format_uint (patch v)
    ++ (if String.eqb (pre v) EmptyString then EmptyString else "-" ++ pre v)
    ++ (if String.eqb (metadata v) EmptyString then EmptyString
        else "+" ++ metadata v).

(** [originalVPrefix]: ["v"] when the original string starts with it. *)
Definition originalVPrefix (v : Version) : string :=
  match original v with
  | String "v"%char _ => "v"
  | _ => EmptyString
  end.

Definition withOriginal (prefix : string) (v : Version) : Version :=
  mkVersion (major v) (minor v) (patch v) (pre v) (metadata v)
            (prefix ++ Version_String v).

(** [IncPatch]: "If the current version does not have prerelease/metadata
    information, it unsets metadata and prerelease values, increments patch
    number. If the current version has any of prerelease or metadata
    information, it unsets both values and keeps current patch value."
    The test in the code is [v.pre != ""]. *)
Definition IncPatch (v : Version) : Version :=
  let vNext :=
    if negb (String.eqb (pre v) EmptyString)
    then mkVersion (major v) (minor v) (patch v)
                   EmptyString EmptyString (original v)
    else mkVersion (major v) (minor v) (u64 (patch v + 1))
                   EmptyString EmptyString (original v) in
  withOriginal (originalVPrefix v) vNext.

(** [IncMinor]: metadata and pre-release unset, patch [0], minor + 1. *)
Definition IncMinor (v : Version) : Version :=
  withOriginal (originalVPrefix v)
    (mkVersion (major v) (u64 (minor v + 1)) 0
               EmptyString EmptyString (original v)).

(** [IncMajor]: metadata and pre-release unset, patch and minor [0],
    major + 1. *)
Definition IncMajor (v : Version) : Version :=
  withOriginal (originalVPrefix v)
    (mkVersion (u64 (major v + 1)) 0 0
               EmptyString EmptyString (original v)).

(** ** Precedence: [Compare] *)

Definition compareSegment (v o : Z) : Z :=
  if v <? o then -1 else if o <? v then 1 else 0.

(** [comparePrePart]: numeric identifiers compare as numbers and are lower
    than alphanumeric ones, which compare as strings; an identifier that
    [ParseUint] refuses counts as alphanumeric. *)
Definition comparePrePart (s o : string) : Z :=
  if String.eqb s o then 0
  else if String.eqb s EmptyString then
    (if negb (String.eqb o EmptyString) then -1 else 1)
  else if String.eqb o EmptyString then
    (if negb (String.eqb s EmptyString) then 1 else -1)
  else
    match strconv_ParseUint o, strconv_ParseUint s with
    | None, None => if string_gt s o then 1 else -1
    | None, Some _ => -1
    | Some _, None => 1
    | Some oi, Some si => if oi <? si then 1 else -1
    end.

(** The loop of [comparePrerelease]: [n] iterations from index [i], a
    missing part being the empty string. *)
Fixpoint comparePrerelease_loop (sparts oparts : list string) (i n : nat) : Z :=
  match n with
  | O => 0
  | S n' =>
      let stemp := nth i sparts EmptyString in
      let otemp := nth i oparts EmptyString in
      let d := comparePrePart stemp otemp in
      if d =? 0 then comparePrerelease_loop sparts oparts (S i) n' else d
  end.

(** [comparePrerelease]. *)
Definition comparePrerelease (v o : string) : Z :=
  let sparts := strings_Split v "."%char in
  let oparts := strings_Split o "."%char in
  let slen := List.length sparts in
  let olen := List.length oparts in
  let l := if (slen <? olen)%nat then olen else slen in
  comparePrerelease_loop sparts oparts 0 l.

(** [Version.Compare]: -1, 0 or 1. Metadata takes no part. *)
Definition Compare (v o : Version) : Z :=
  let d := compareSegment (major v) (major o) in
  if negb (d =? 0) then d else
  let d := compareSegment (minor v) (minor o) in
  if negb (d =? 0) then d else
  let d := compareSegment (patch v) (patch o) in
  if negb (d =? 0) then d else
  let ps := pre v in
  let po := pre o in
  if String.eqb ps EmptyString && String.eqb po EmptyString then 0
  else if String.eqb ps EmptyString then 1
  else if String.eqb po EmptyString then -1
  else comparePrerelease ps po.

End semver.


(* ================================================================== *)
(** * Go's [sort] package *)
(* ================================================================== *)

Module sort.

Section Contract.
Context {A : Type}.
Variable less : A -> A -> bool.

(** [sort.IsSorted]: no element is [Less] than its predecessor. *)
Definition IsSorted (l : list A) : Prop :=
  Sorted (fun a b => less b a = false) l.

(** What [sort.Interface] asks of [Less], on the elements being sorted:
    it "must describe a transitive ordering": if [Less(i, j)] and
    [Less(j, k)] then [Less(i, k)], and if both are false then
    [Less(i, k)] is false; no element sorts before itself. *)
Definition TransitiveOrdering (l : list A) : Prop :=
  (forall x, In x l -> less x x = false) /\
  (forall x y z, In x l -> In y l -> In z l ->
     less x y = true -> less y z = true -> less x z = true) /\
  (forall x y z, In x l -> In y l -> In z l ->
     less x y = false -> less y z = false -> less x z = false).
End Contract.

(** [sort.Sort] does not promise an algorithm (and makes no promise of
    stability): a sorter is any function that returns its input rearranged
    and in ascending order as determined by [less]. *)
Class Sorter : Type := {
  Sort : forall {A : Type}, (A -> A -> bool) -> list A -> list A;
  Sort_Permutation : forall A (less : A -> A -> bool) (l : list A),
      Permutation l (Sort less l);
  Sort_IsSorted : forall A (less : A -> A -> bool) (l : list A),
      TransitiveOrdering less l -> IsSorted less (Sort less l)
}.

(** An insertion sort (what [sort.Sort] runs on short slices), one of the
    sorters the contract admits. *)
Fixpoint insert {A : Type} (less : A -> A -> bool) (x : A) (l : list A) : list A :=
  match l with
  | [] => [x]
  | y :: l' => if less x y then x :: l else y :: insert less x l'
  end.

Definition insertionSort {A : Type} (less : A -> A -> bool) (l : list A) : list A :=
  fold_left (fun acc x => insert less x acc) l [].

End sort.

(* ================================================================== *)
(** * Processes: traces, outcomes and the hosting API *)
(* ================================================================== *)

(** The fields the programs read of [github.Repository], [github.Reference]
    and [github.RepositoryCommit] (through their [Get...] accessors). *)
Record Repository : Type := mkRepository {
  Name : string;
  FullName : string;
  OwnerLogin : string;
  DefaultBranch : string
}.

(** [github.Reference]. Its field [Ref] is a pointer to a string:
    [mkReference ref sha] is a reference whose field is set, [noRef sha] one
    whose field is [nil], as the client library decodes an object without
    ["ref"]. (A [nil] reference behaves in these programs as [noRef]: the
    accessors return the zero value on it.) *)
Inductive Reference : Type :=
| mkReference (ref sha : string)
| noRef (sha : string).

(** [ref.Ref != nil]. *)
Definition hasRef (r : Reference) : bool :=
  match r with
  | mkReference _ _ => true
  | noRef _ => false
  end.

(** [ref.GetRef()]: the string behind the field, the empty string when the
    field is [nil]. *)
Definition Ref (r : Reference) : string :=
  match r with
  | mkReference ref _ => ref
  | noRef _ => EmptyString
  end.

(** [ref.GetObject().GetSHA()]. *)
Definition ObjectSHA (r : Reference) : string :=
  match r with
  | mkReference _ sha => sha
  | noRef sha => sha
  end.

(** The message of the runtime panic on a write through a [nil] pointer. *)
Definition nilDereference : string :=
  "runtime error: invalid memory address or nil pointer dereference".

Record RepositoryCommit : Type := mkCommit {
  SHA : string
}.

(** Requests sent to the hosting API. *)
Inductive request : Type :=
| ListByOrg (org : string)
| ListMatchingRefs (owner repo ref : string)
| RepositoriesGet (owner repo : string)
| GetCommit (owner repo sha : string)
| CreateRef (owner repo : string) (ref : Reference).

(** What a process does that can be observed. [Log] is a line the [log]
    package writes (to standard error, unless the output is discarded),
    [Stderr] any other text written to standard error, [Terminal] and
    [Prompt] what the terminal library prints and asks. *)
Inductive event : Type :=
| Request (r : request)
| Stdout (text : string)
| Log (text : string)
| Stderr (text : string)
| Terminal (text : string)
| Prompt (text : string).

Definition trace : Type := list event.

(** How a computation ends: with a value, or with the process gone.
    [Fatal msg] is [log.Fatalf]: [msg] is written to standard error and the
    exit status is 1. [Exit code] is [os.Exit(code)], [Panic] a Go panic
    (exit status 2). *)
Inductive outcome (A : Type) : Type :=
| Ret (a : A)
| Fatal (msg : string)
| Exit (code : Z)
| Panic (msg : string).
Arguments Ret {A} a.
Arguments Fatal {A} msg.
Arguments Exit {A} code.
Arguments Panic {A} msg.


(** A computation reads the trace so far and extends it. *)
Definition M (A : Type) : Type := trace -> trace * outcome A.

Definition ret {A : Type} (a : A) : M A := fun t => (t, Ret a).

Definition bind {A B : Type} (m : M A) (k : A -> M B) : M B :=
  fun t =>
    match m t with
    | (t', Ret a) => k a t'
    | (t', Fatal msg) => (t', Fatal msg)
    | (t', Exit code) => (t', Exit code)
    | (t', Panic msg) => (t', Panic msg)
    end.

Notation "x <- m ;; k" := (bind m (fun x => k))
  (at level 61, m at next level, right associativity).
Notation "m ;;; k" := (bind m (fun _ => k))
  (at level 61, right associativity).

Definition emit (e : event) : M unit := fun t => ((t ++ [e])%list, Ret tt).

Definition stop {A : Type} (o : outcome A) : M A := fun t => (t, o).

(** A remote call or a prompt: the event is recorded and the answer is the
    oracle's, which may depend on everything that happened before. *)
Definition ask {R : Type} (e : event) (answer : trace -> R) : M R :=
  fun t => ((t ++ [e])%list, Ret (answer t)).

(** [for _, x := range xs { ... }], collecting the results. *)
Fixpoint forM {A B : Type} (xs : list A) (f : A -> M B) : M (list B) :=
  match xs with
  | [] => ret []
  | x :: xs' => y <- f x ;; ys <- forM xs' f ;; ret (y :: ys)
  end.

(** A Go [error]: [None] is [nil], [Some msg] an error printing as [msg]. *)
Definition error : Type := option string.

(** A result together with an error, as the API client returns them. *)
Definition result (A : Type) : Type := (string + A)%type.

(** [log.Fatalf("Error: %+v", err)]. *)
Definition fatal {A : Type} (err : string) : M A :=
  stop (Fatal ("Error: " ++ err)).

(** [noError], the same in the three programs: a non-nil error ends the
    process through [log.Fatalf] (the two command-line tools first switch
    the log output back to standard error, so that the message is never
    discarded). *)
Definition noError (err : error) : M unit :=
  match err with
  | None => ret tt
  | Some e => fatal e
  end.

(** [x, err := call(...); noError(err)]. *)
Definition checked {A : Type} (r : result A) : M A :=
  match r with
  | inl err => fatal err
  | inr a => ret a
  end.

(** ["\n"]. *)
Definition nl : string := String (ascii_of_nat 10) EmptyString.

(** The requests of a trace that create a ref. *)
Fixpoint createdRefs (t : trace) : list (string * string * Reference) :=
  match t with
  | [] => []
  | Request (CreateRef owner repo ref) :: t' => (owner, repo, ref) :: createdRefs t'
  | _ :: t' => createdRefs t'
  end.

(** The requests of a trace. *)
Fixpoint requests (t : trace) : list request :=
  match t with
  | [] => []
  | Request r :: t' => r :: requests t'
  | _ :: t' => requests t'
  end.

(** The text written to standard output. *)
Fixpoint stdout (t : trace) : string :=
  match t with
  | [] => EmptyString
  | Stdout s :: t' => s ++ stdout t'
  | _ :: t' => stdout t'
  end.

(** [fmt.Sprintf] with the verbs [%-Ns] and [%Ns]: padding with spaces on
    the right and on the left up to the width [w]. *)
Definition padRight (w : Z) (s : string) : string :=
  s ++ strings_Repeat " " (Z.to_nat (w - len s)).

Definition padLeft (w : Z) (s : string) : string :=
  strings_Repeat " " (Z.to_nat (w - len s)) ++ s.

(* ================================================================== *)
(** * [gh-tag-fetcher] *)
(* ================================================================== *)

Module Fetcher.

Definition EnvGithubToken : string := "GITHUB_TOKEN".

(** The command line after [flag.Parse]: the flags [-bump] (default
    ["minor"]) and [-verbose], and the remaining arguments. *)
Record commandLine : Type := mkCommandLine {
  flag_bump : string;
  flag_verbose : bool;
  flag_args : list string
}.

(** The package variables [bump], [verbose], [org] and [token]. *)
Record globals : Type := mkGlobals {
  bump : string;
  verbose : bool;
  org : string;
  token : string
}.

(** The answers of the hosting API to the two calls of this program. *)
Record API : Type := mkAPI {
  Repositories_ListByOrg : trace -> string -> result (list Repository);
  Git_ListMatchingRefs : trace -> string -> string -> string -> result (list Reference)
}.

(** [type repo struct]. [newTag] is never [nil] once [fetchRepos] has
    filled it. *)
Record repo : Type := mkRepo {
  repo_repo : Repository;
  latestTag : option semver.Version;
  newTag : semver.Version
}.

(** What [flag.Parse] makes of the arguments of the process: the flags and
    the remaining arguments; or, on [-h] and [-help], the text of
    [flag.Usage] written to standard error; or, on a flag that is not
    defined or a value that does not parse, the error followed by that
    text. *)
Inductive arguments : Type :=
| Parsed (cl : commandLine)
| Help (output : string)
| BadFlag (output : string).

(** [flag.Parse()], with the error handling [flag.ExitOnError] of the
    default flag set: status 0 after [-h], status 2 after an error. *)
Definition flag_Parse (a : arguments) : M commandLine :=
  match a with
  | Parsed cl => ret cl
  | Help output => emit (Stderr output) ;;; stop (Exit 0)
  | BadFlag output => emit (Stderr output) ;;; stop (Exit 2)
  end.

(** [parseFlags]. *)
Definition parseFlags (a : arguments) (getenv : string -> string) : M globals :=
  cl <- flag_Parse a ;;
  let args := flag_args cl in
  (if (List.length args =? 0)%nat
   then noError (Some "missing argument: github organization")
   else ret tt) ;;;
  (if (1 <? List.length args)%nat
   then noError (Some ("too many arguments: expected only 1 argument, got "
                        ++ format_uint (Z.of_nat (List.length args))))
   else ret tt) ;;;
  let token := getenv EnvGithubToken in
  (if String.eqb token EmptyString
   then noError (Some ("environment variable not set: " ++ EnvGithubToken))
   else ret tt) ;;;
  (if String.eqb (flag_bump cl) "patch" || String.eqb (flag_bump cl) "minor"
      || String.eqb (flag_bump cl) "major"
   then ret tt
   else noError (Some ("bump flag expects one of [patch minor major], got: "
                        ++ flag_bump cl))) ;;;
  ret (mkGlobals (flag_bump cl) (flag_verbose cl) (nth 0 args EmptyString) token).

(** [ByVersion.Less]: [vs[i].Compare(vs[j]) < 0]. *)
Definition ByVersion_Less (a b : semver.Version) : bool :=
  semver.Compare a b <? 0.

(** [bumpVersion]; [None] is the panic on an invalid bump kind. *)
Definition bumpVersion (version : option semver.Version) (bump : string)
  : option semver.Version :=
  match (match version with
         | Some v => Some v
         | None => semver.NewVersion "v0.0.0"
         end) with
  | None => None
  | Some version =>
      if String.eqb bump "major" then Some (semver.IncMajor version)
      else if String.eqb bump "minor" then Some (semver.IncMinor version)
      else if String.eqb bump "patch" then Some (semver.IncPatch version)
      else None
  end.

(** [versionToString]. *)
Definition versionToString (v : option semver.Version) : string :=
  match v with
  | None => EmptyString
  | Some v => "v" ++ semver.Version_String v
  end.

(** [reposToStdOutput]. *)
Definition reposToStdOutput (repos : list repo) : list string :=
  map (fun r => "github.com/" ++ FullName (repo_repo r) ++ " "
                ++ versionToString (Some (newTag r))) repos.

(** The three column widths computed by the first loop of
    [reposToDebugOutput]. *)
Definition debugWidths (repos : list repo) : Z * Z * Z :=
  fold_left
    (fun '(repoLen, leftTagLen, rightTagLen) r =>
       let repoLen :=
         if repoLen <? len (FullName (repo_repo r))
         then len (FullName (repo_repo r)) else repoLen in
       let leftTagLen :=
         match latestTag r with
         | Some v => if leftTagLen <? len (semver.Version_String v)
                     then len (semver.Version_String v) + 1 else leftTagLen
         | None => leftTagLen
         end in
       let rightTagLen :=
         if rightTagLen <? len (semver.Version_String (newTag r))
         then len (semver.Version_String (newTag r)) + 1 else rightTagLen in
       (repoLen, leftTagLen, rightTagLen))
    repos (0, 1, 0).

(** [reposToDebugOutput]. *)
Definition reposToDebugOutput (repos : list repo) : list string :=
  let '(repoLen, leftTagLen, rightTagLen) := debugWidths repos in
  map (fun r =>
         let latest := match latestTag r with
                       | Some v => versionToString (Some v)
                       | None => "_"
                       end in
         "github.com/" ++ padRight repoLen (FullName (repo_repo r)) ++ " "
           ++ padLeft leftTagLen latest ++ " -> "
           ++ padLeft rightTagLen (versionToString (Some (newTag r))))
      repos.

Section Program.
Context {sorter : sort.Sorter}.
Variable api : API.
Variable g : globals.

(** [log.Println]: the log output is discarded unless [-verbose] (the
    time stamp the logger puts in front of a line is left out). *)
Definition log_Println (s : string) : M unit :=
  if verbose g then emit (Log (s ++ nl)) else ret tt.

(** The loop of [fetchLatestTag] over the refs: the names without
    ["refs/tags/"] that [semver.NewVersion] accepts, in order. *)
Fixpoint parseTags (refs : list string) : list semver.Version :=
  match refs with
  | [] => []
  | ref :: refs' =>
      match semver.NewVersion (strings_TrimPrefix ref "refs/tags/") with
      | None => parseTags refs'
      | Some v => v :: parseTags refs'
      end
  end.

(** The end of [fetchLatestTag]: [nil] without tags, otherwise the last
    element after [sort.Sort(ByVersion(tags))]. *)
Definition latestOf (tags : list semver.Version) : option semver.Version :=
  match tags with
  | [] => None
  | _ =>
      let sorted := sort.Sort ByVersion_Less tags in
      nth_error sorted (List.length sorted - 1)
  end.

(** [fetchLatestTag]. The loop writes the name without ["refs/tags/"]
    through [ref.Ref] before it parses it: on the first reference whose
    field is [nil] the write panics. The loop does nothing else that can be
    observed, so that it panics exactly when some listed reference has no
    [ref], and otherwise collects [parseTags]. *)
Definition fetchLatestTag (org name : string) : M (option semver.Version) :=
  log_Println ("Fetching latest tag for " ++ org ++ "/" ++ name) ;;;
  r <- ask (Request (ListMatchingRefs org name "tags/"))
           (fun t => Git_ListMatchingRefs api t org name "tags/") ;;
  refs <- checked r ;;
  (if forallb hasRef refs then ret tt else stop (Panic nilDereference)) ;;;
  ret (latestOf (parseTags (map Ref refs))).

(** [fetchRepos]. *)
Definition fetchRepos (org : string) : M (list repo) :=
  log_Println "Fetching repositories (might take a minute)..." ;;;
  r <- ask (Request (ListByOrg org))
           (fun t => Repositories_ListByOrg api t org) ;;
  ghRepos <- checked r ;;
  match ghRepos with
  | [] => ret []
  | _ =>
      repos <- forM ghRepos (fun ghr =>
        latest <- fetchLatestTag org (Name ghr) ;;
        match bumpVersion latest (bump g) with
        | None => stop (Panic "invalid bump")
        | Some new => ret (mkRepo ghr latest new)
        end) ;;
      log_Println EmptyString ;;;
      ret repos
  end.

(** [printRepos]. *)
Definition printRepos (repos : list repo) : M unit :=
  log_Println (strings_Join (reposToDebugOutput repos) nl) ;;;
  emit (Stdout (strings_Join (reposToStdOutput repos) nl ++ nl)).
End Program.

(** [main]. *)
Definition main {sorter : sort.Sorter} (api : API)
    (a : arguments) (getenv : string -> string) : M unit :=
  g <- parseFlags a getenv ;;
  repos <- fetchRepos api g (org g) ;;
  printRepos g repos.

End Fetcher.

(** A command line that [flag.Parse] accepts stands for itself: a
    statement that hands a [Fetcher.commandLine] to [Fetcher.parseFlags] or
    to [Fetcher.main] is about the runs in which [flag.Parse] has returned
    with these flags and arguments. *)
Coercion Fetcher.Parsed : Fetcher.commandLine >-> Fetcher.arguments.

(* ================================================================== *)
(** * [gh-tag-creator] *)
(* ================================================================== *)

Module Creator.

Definition EnvGithubToken : string := "GITHUB_TOKEN".

(** The flags [-verbose] and [-yes]. *)
Record commandLine : Type := mkCommandLine {
  flag_verbose : bool;
  flag_yes : bool
}.

(** The package variables [verbose], [yes] and [token]. *)
Record globals : Type := mkGlobals {
  verbose : bool;
  yes : bool;
  token : string
}.

(** The answers of the hosting API, and of the terminal to the one-byte
    read of the confirmation (opening [/dev/tty] or reading can fail). *)
Record API : Type := mkAPI {
  Repositories_Get : trace -> string -> string -> result Repository;
  Repositories_GetCommit : trace -> string -> string -> string -> result RepositoryCommit;
  Git_CreateRef : trace -> string -> string -> Reference -> result Reference;
  tty_Read : trace -> result ascii
}.

(** [type repo struct]. *)
Record repo : Type := mkRepo {
  repo_repo : Repository;
  tag : string
}.

(** What [flag.Parse] makes of the arguments of the process, as for
    [gh-tag-fetcher]. *)
Inductive arguments : Type :=
| Parsed (cl : commandLine)
| Help (output : string)
| BadFlag (output : string).

(** [flag.Parse()]. *)
Definition flag_Parse (a : arguments) : M commandLine :=
  match a with
  | Parsed cl => ret cl
  | Help output => emit (Stderr output) ;;; stop (Exit 0)
  | BadFlag output => emit (Stderr output) ;;; stop (Exit 2)
  end.

(** [parseFlags]. *)
Definition parseFlags (a : arguments) (getenv : string -> string) : M globals :=
  cl <- flag_Parse a ;;
  let token := getenv EnvGithubToken in
  (if String.eqb token EmptyString
   then noError (Some ("environment variable not set: " ++ EnvGithubToken))
   else ret tt) ;;;
  ret (mkGlobals (flag_verbose cl) (flag_yes cl) token).

(** [reposToStdOutput]. *)
Definition reposToStdOutput (repos : list repo) : list string :=
  map (fun r => "github.com/" ++ FullName (repo_repo r) ++ " " ++ tag r) repos.

Section Program.
Variable api : API.
(** [github.Reference.String], the client library's rendering. *)
Variable Reference_String : Reference -> string.
Variable g : globals.

Definition log_Printf (s : string) : M unit :=
  if verbose g then emit (Log (s ++ nl)) else ret tt.

(** The body of the loop of [fetchRepos] for one input line. *)
Definition fetchRepo (line : string) : M repo :=
  let tokens := strings_Split line " "%char in
  (if negb (List.length tokens =? 2)%nat
   then noError (Some ("error parsing input line: expected 2 tokens separated with a space: " ++ line))
   else ret tt) ;;;
  let repoURL := nth 0 tokens EmptyString in
  let tag := nth 1 tokens EmptyString in
  let repoURL := strings_TrimPrefix repoURL "github.com/" in
  let tokens := strings_Split repoURL "/"%char in
  (if negb (List.length tokens =? 2)%nat
   then noError (Some ("error parsing input line: invalid repo URL: " ++ line))
   else ret tt) ;;;
  let org := nth 0 tokens EmptyString in
  let name := nth 1 tokens EmptyString in
  log_Printf ("Fetching info for " ++ org ++ "/" ++ name) ;;;
  a <- ask (Request (RepositoriesGet org name))
           (fun t => Repositories_Get api t org name) ;;
  r <- checked a ;;
  ret (mkRepo r tag).

(** [fetchRepos]. *)
Definition fetchRepos (input : list string) : M (list repo) :=
  forM input fetchRepo.

(** The body of the loop of [createTags] for one repository. *)
Definition createTag (r : repo) : M unit :=
  let org := OwnerLogin (repo_repo r) in
  let name := Name (repo_repo r) in
  let branch := DefaultBranch (repo_repo r) in
  a <- ask (Request (GetCommit org name branch))
           (fun t => Repositories_GetCommit api t org name branch) ;;
  commit <- checked a ;;
  log_Printf ("Creating tag " ++ tag r ++ " in " ++ FullName (repo_repo r)
              ++ " (SHA: " ++ SHA commit ++ ")") ;;;
  let ref := mkReference ("refs/tags/" ++ tag r) (SHA commit) in
  a <- ask (Request (CreateRef org name ref))
           (fun t => Git_CreateRef api t org name ref) ;;
  createdRef <- checked a ;;
  log_Printf ("Created ref: " ++ Reference_String createdRef).

(** [createTags]. *)
Definition createTags (repos : list repo) : M unit :=
  forM repos createTag ;;; ret tt.

(** The confirmation of [main], asked unless [-yes] was given. *)
Definition confirm (repos : list repo) : M unit :=
  if yes g then ret tt
  else
    emit (Stdout nl) ;;;
    emit (Stdout (strings_Join (reposToStdOutput repos) nl ++ nl)) ;;;
    emit (Stdout nl) ;;;
    emit (Stdout "Do you want to create the tags listed above? [Y/N]: ") ;;;
    a <- ask (Prompt "/dev/tty") (tty_Read api) ;;
    y <- checked a ;;
    if negb (Ascii.eqb y "y"%char) && negb (Ascii.eqb y "Y"%char)
    then noError (Some "abort")
    else ret tt.
End Program.

(** [main]; [input] is standard input, line by line, as the scanner reads
    it to its end without error. *)
Definition main (api : API) (Reference_String : Reference -> string)
    (a : arguments) (getenv : string -> string) (input : list string) : M unit :=
  g <- parseFlags a getenv ;;
  (if (List.length input =? 0)%nat then noError (Some "no input") else ret tt) ;;;
  repos <- fetchRepos api g input ;;
  confirm api g repos ;;;
  createTags api Reference_String g repos.

End Creator.

(** Likewise for [gh-tag-creator]. *)
Coercion Creator.Parsed : Creator.commandLine >-> Creator.arguments.

(* ================================================================== *)
(** * The interactive variant *)
(* ================================================================== *)

Module Interactive.

(** [const org = "conduitio"]. *)
Definition org : string := "conduitio".

(** The answers of the hosting API and of the confirmation prompt. *)
Record API : Type := mkAPI {
  Repositories_GetCommit : trace -> string -> string -> string -> result RepositoryCommit;
  Git_CreateRef : trace -> string -> string -> Reference -> result Reference;
  InteractiveConfirm_Show : trace -> string -> result bool
}.

(** [type repo struct]. *)
Record repo : Type := mkRepo {
  repo_repo : Repository;
  latestTag : option semver.Version;
  newTag : semver.Version
}.

Section Program.
Variable api : API.

(** The body of the loop of [createTags] for one repository. *)
Definition createTag (r : repo) : M unit :=
  emit (Terminal nl) ;;;
  let branch := DefaultBranch (repo_repo r) in
  a <- ask (Request (GetCommit org (Name (repo_repo r)) branch))
           (fun t => Repositories_GetCommit api t org (Name (repo_repo r)) branch) ;;
  commit <- checked a ;;
  let question :=
    "Confirm you want to create tag v" ++ semver.Version_String (newTag r)
      ++ " on branch " ++ branch ++ " (SHA: " ++ SHA commit ++ ")" in
  a <- ask (Prompt question)
           (fun t => InteractiveConfirm_Show api t question) ;;
  confirm <- checked a ;;
  (if negb confirm then emit (Terminal ("Skip" ++ nl)) else ret tt) ;;;
  let ref := mkReference ("ref/tags/v" ++ semver.Version_String (newTag r))
                         (SHA commit) in
  a <- ask (Request (CreateRef org (Name (repo_repo r)) ref))
           (fun t => Git_CreateRef api t org (Name (repo_repo r)) ref) ;;
  createdRef <- checked a ;;
  emit (Terminal ("Created ref: " ++ Ref createdRef ++ " (SHA: "
                  ++ ObjectSHA createdRef ++ ")" ++ nl)).

(** [createTags]. *)
Definition createTags (repos : list repo) : M unit :=
  forM repos createTag ;;; ret tt.
End Program.

(** ** The rest of the program

    The terminal library's printers, prompts and progress bar are recorded
    as [Terminal] and [Prompt] events carrying the text handed to them;
    colours, prefixes and the redrawing of the bar are the library's. *)

Definition EnvGithubToken : string := "GITHUB_TOKEN".

(** [const DoIt = "DO IT"] and [const bump = "minor"]. *)
Definition DoIt : string := "DO IT".
Definition bump : string := "minor".

(** The answers of the hosting API to the listing calls, of the progress
    bar to [Start] and [Stop], and of the user to the selection and to the
    text input. *)
Record Console : Type := mkConsole {
  Repositories_ListByOrg : trace -> string -> result (list Repository);
  Git_ListMatchingRefs : trace -> string -> string -> string -> result (list Reference);
  Progressbar_Start : trace -> error;
  Progressbar_Stop : trace -> error;
  InteractiveMultiselect_Show : trace -> list string -> string -> result (list string);
  InteractiveTextInput_Show : trace -> string -> result string
}.

(** [bumpVersion], word for word the function of [gh-tag-fetcher]. *)
Definition bumpVersion : option semver.Version -> string -> option semver.Version :=
  Fetcher.bumpVersion.

(** The three column widths computed by the first loop of [buildOptions]. *)
Definition optionWidths (repos : list repo) : Z * Z * Z :=
  fold_left
    (fun '(repoLen, leftTagLen, rightTagLen) r =>
       let repoLen :=
         if repoLen <? len (Name (repo_repo r))
         then len (Name (repo_repo r)) else repoLen in
       let leftTagLen :=
         match latestTag r with
         | Some v => if leftTagLen <? len (semver.Version_String v)
                     then len (semver.Version_String v) + 1 else leftTagLen
         | None => leftTagLen
         end in
       let rightTagLen :=
         if rightTagLen <? len (semver.Version_String (newTag r))
         then len (semver.Version_String (newTag r)) + 1 else rightTagLen in
       (repoLen, leftTagLen, rightTagLen))
    repos (0, 1, 0).

(** [buildOptions]: one option [name (latest -> new)] per repository. *)
Definition buildOptions (repos : list repo) : list string :=
  let '(repoLen, leftTagLen, rightTagLen) := optionWidths repos in
  let emptyTag := strings_Repeat "_" (Z.to_nat leftTagLen) in
  map (fun r =>
         let latest := match latestTag r with
                       | Some v => "v" ++ semver.Version_String v
                       | None => emptyTag
                       end in
         let new := "v" ++ semver.Version_String (newTag r) in
         padRight repoLen (Name (repo_repo r)) ++ " ("
           ++ padLeft leftTagLen latest ++ " -> "
           ++ padLeft rightTagLen new ++ ")")
      repos.

(** The two nested loops of [filter]: for each option in turn, its
    repository is appended once for every selected option equal to it. *)
Definition selectRepos (opts selectedOptions : list string) (repos : list repo)
  : list repo :=
  flat_map (fun '(v1, r) =>
              flat_map (fun v2 => if String.eqb v1 v2 then [r] else [])
                       selectedOptions)
           (combine opts repos).

Definition selectText : string := "Please select repositories that should be tagged".

(** The text of the last confirmation, without its colours. *)
Definition confirmText : string :=
  "Please confirm that you want to apply the tags above by writing "
    ++ String (ascii_of_nat 34) DoIt ++ String (ascii_of_nat 34)
         " (this action CAN NOT be reversed!)".

Section Session.
Context {sorter : sort.Sorter}.
Variable api : API.
Variable console : Console.

(** [fetchLatestTag], the function of [gh-tag-fetcher] without its log
    line. *)
Definition fetchLatestTag (org name : string) : M (option semver.Version) :=
  r <- ask (Request (ListMatchingRefs org name "tags/"))
           (fun t => Git_ListMatchingRefs console t org name "tags/") ;;
  refs <- checked r ;;
  (if forallb hasRef refs then ret tt else stop (Panic nilDereference)) ;;;
  ret (Fetcher.latestOf (Fetcher.parseTags (map Ref refs))).

(** The body of the loop of [fetchRepos]; [Increment] only redraws the
    bar. *)
Definition fetchRepo (org : string) (ghr : Repository) : M repo :=
  emit (Terminal ("Fetching " ++ Name ghr)) ;;;
  latest <- fetchLatestTag org (Name ghr) ;;
  match bumpVersion latest bump with
  | None => stop (Panic "invalid bump")
  | Some new =>
      emit (Terminal ("Fetching " ++ Name ghr ++ nl)) ;;;
      ret (mkRepo ghr latest new)
  end.

(** [fetchRepos]. *)
Definition fetchRepos (org : string) : M (list repo) :=
  emit (Terminal ("Fetching repositories (might take a minute)..." ++ nl)) ;;;
  r <- ask (Request (ListByOrg org))
           (fun t => Repositories_ListByOrg console t org) ;;
  ghRepos <- checked r ;;
  match ghRepos with
  | [] => ret []
  | _ =>
      e <- ask (Terminal "Fetching repo tags") (Progressbar_Start console) ;;
      noError e ;;;
      repos <- forM ghRepos (fetchRepo org) ;;
      e <- ask (Terminal EmptyString) (Progressbar_Stop console) ;;
      noError e ;;;
      emit (Terminal nl) ;;;
      ret repos
  end.

(** [filter]. *)
Definition filter (repos : list repo) : M (list repo) :=
  let opts := buildOptions repos in
  a <- ask (Prompt selectText)
           (fun t => InteractiveMultiselect_Show console t opts selectText) ;;
  selectedOptions <- checked a ;;
  ret (selectRepos opts selectedOptions repos).

(** [confirm]: anything but [DoIt] ends the process with status 1. *)
Definition confirm : M unit :=
  a <- ask (Prompt confirmText)
           (fun t => InteractiveTextInput_Show console t confirmText) ;;
  text <- checked a ;;
  if negb (String.eqb text DoIt)
  then (emit (Terminal ("Abort!" ++ nl)) ;;; stop (Exit 1))
  else ret tt.

(** [main]. The missing token is reported by [log.Fatalf] directly. *)
Definition main (getenv : string -> string) : M unit :=
  (if String.eqb (getenv EnvGithubToken) EmptyString
   then stop (Fatal ("Environemnt variable " ++ EnvGithubToken ++ " is not set"))
   else ret tt) ;;;
  repos <- fetchRepos org ;;
  repos <- filter repos ;;
  (if (List.length repos =? 0)%nat
   then (emit (Terminal ("No repositories selected, abort!" ++ nl)) ;;; stop (Exit 1))
   else ret tt) ;;;
  confirm ;;;
  createTags api repos.
End Session.

End Interactive.

(* ================================================================== *)
(** * Vocabulary of the statements *)
(* ================================================================== *)

(** The number a string of decimal digits denotes, continuing from [acc]. *)
Fixpoint digits_value (s : string) (acc : Z) : Z :=
  match s with
  | EmptyString => acc
  | String c s' => digits_value s' (acc * 10 + (byte_of c - 48))
  end.

Fixpoint all_digits (s : string) : bool :=
  match s with
  | EmptyString => true
  | String c s' => is_digit c && all_digits s'
  end.

(** More than one byte, the first of which is ['0']. *)
Definition leadingZero (s : string) : bool :=
  (1 <? len s) && match s with String "0"%char _ => true | _ => false end.

(** A comparison function with values of either sign that is a total
    preorder on the elements satisfying [P]. *)
Record TotalPreorder {A : Type} (P : A -> Prop) (c : A -> A -> Z) : Prop := {
  cmp_refl : forall x, P x -> c x x = 0;
  cmp_opp : forall x y, P x -> P y -> c x y = - c y x;
  cmp_trans : forall x y z, P x -> P y -> P z ->
      c x y <= 0 -> c y z <= 0 -> c x z <= 0
}.

(** Lexicographic composition, as [Compare] and the loop of
    [comparePrerelease] chain their tests. *)
Definition lex {A : Type} (c1 c2 : A -> A -> Z) (x y : A) : Z :=
  if c1 x y =? 0 then c2 x y else c1 x y.

(** The comparison of Go strings as a function with values of either
    sign. *)
Definition compareStrings (a b : string) : Z :=
  if String.eqb a b then 0 else if string_gt a b then 1 else -1.

(** The three ranks of a pre-release identifier in [comparePrePart]: the
    missing identifier, the numeric ones by value, the others as strings. *)
Definition partClass (s : string) : Z :=
  match s with
  | EmptyString => 0
  | _ => match strconv_ParseUint s with Some _ => 1 | None => 2 end
  end.

Definition partNumber (s : string) : Z :=
  match strconv_ParseUint s with Some n => n | None => 0 end.

Definition partText (s : string) : string :=
  match strconv_ParseUint s with Some _ => EmptyString | None => s end.

(** An identifier that [ParseUint] reads has no leading zero: what
    [validatePrerelease] leaves through. *)
Definition goodPart (s : string) : Prop :=
  forall n, strconv_ParseUint s = Some n -> leadingZero s = false.

(** The pre-release of a version is made of such identifiers. *)
Definition goodVersion (v : semver.Version) : Prop :=
  Forall goodPart (strings_Split (semver.pre v) "."%char).

(** The last test of [Compare], on the two pre-releases. *)
Definition comparePre (ps po : string) : Z :=
  if String.eqb ps EmptyString && String.eqb po EmptyString then 0
  else if String.eqb ps EmptyString then 1
  else if String.eqb po EmptyString then -1
  else semver.comparePrerelease ps po.

(** What [NewVersion] guarantees of a version it returns: segments in the
    range of [uint64], a pre-release that is empty or matches the grammar
    and passes [validatePrerelease], metadata that is empty or matches the
    grammar. *)
Record wellFormed (v : semver.Version) : Prop := {
  wf_major : 0 <= semver.major v <= maxUint64;
  wf_minor : 0 <= semver.minor v <= maxUint64;
  wf_patch : 0 <= semver.patch v <= maxUint64;
  wf_pre : semver.pre v = EmptyString \/
           (semver.isIdents (semver.pre v) = true
            /\ semver.validatePrerelease (semver.pre v) = true);
  wf_metadata : semver.metadata v = EmptyString \/
                semver.isIdents (semver.metadata v) = true
}.

(** An event that neither writes to standard output nor creates a ref. *)
Definition silent (e : event) : Prop :=
  match e with
  | Stdout _ => False
  | Request (CreateRef _ _ _) => False
  | _ => True
  end.

(** A computation that only adds silent events to the trace. *)
Definition quiet {A : Type} (m : M A) : Prop :=
  forall t, exists es, fst (m t) = (t ++ es)%list /\ Forall silent es.

(** The two tests of [Creator.fetchRepos] on an input line: two tokens
    around one space, the first of which, without a leading
    ["github.com/"], is two tokens around one slash. *)
Definition acceptedLine (line : string) : bool :=
  let tokens := strings_Split line " "%char in
  (List.length tokens =? 2)%nat
  && (List.length
        (strings_Split (strings_TrimPrefix (nth 0 tokens EmptyString) "github.com/")
                       "/"%char) =? 2)%nat.

(** The line [host/org/repo vX.Y.Z] of a repository and three numbers. *)
Definition outputLine (row : Repository * (Z * Z * Z)) : string :=
  let '(r, (x, y, z)) := row in
  "github.com/" ++ FullName r ++ " v"
    ++ format_uint x ++ "." ++ format_uint y ++ "." ++ format_uint z.


(** Two versions with the same segments, pre-release and metadata (they
    may differ in the original string they remember). *)
Definition sameVersion (v w : semver.Version) : Prop :=
  semver.major v = semver.major w /\ semver.minor v = semver.minor w
  /\ semver.patch v = semver.patch w /\ semver.pre v = semver.pre w
  /\ semver.metadata v = semver.metadata w.


(** A version string written in full: the minor and patch segments are
    present and no segment has a leading zero. *)
Definition writtenInFull (s : string) : bool :=
  match semver.versionRegex_FindStringSubmatch s with
  | Some (m1, m2, m3, _, _) =>
      negb (leadingZero m1)
      && negb (String.eqb m2 EmptyString)
      && negb (leadingZero (strings_TrimPrefix m2 "."))
      && negb (String.eqb m3 EmptyString)
      && negb (leadingZero (strings_TrimPrefix m3 "."))
  | None => false
  end.

(** Every byte of [s] satisfies [f]. *)
Fixpoint stringForall (f : ascii -> bool) (s : string) : bool :=
  match s with
  | EmptyString => true
  | String c s' => f c && stringForall f s'
  end.

(** [s] is empty or starts with a byte that fails [f]. *)
Definition stopsAt (f : ascii -> bool) (s : string) : Prop :=
  match s with
  | EmptyString => True
  | String c _ => f c = false
  end.

(** The version [NewVersion] returns on the text printed for [v]. *)
Definition reparsed (v : semver.Version) (text : string) : semver.Version :=
  semver.mkVersion (semver.major v) (semver.minor v) (semver.patch v)
                   (semver.pre v) (semver.metadata v) text.

(** One of the three bump kinds. *)
Definition validBump (b : string) : Prop :=
  b = "patch" \/ b = "minor" \/ b = "major".

(** A computation that ends by returning or through [log.Fatalf], never
    with a panic or [os.Exit]. *)
Definition mild {A : Type} (m : M A) : Prop :=
  forall t, match snd (m t) with
            | Ret _ | Fatal _ => True
            | Exit _ | Panic _ => False
            end.

(** [s] does not contain the byte [c]. *)
Definition without (c : ascii) (s : string) : bool :=
  stringForall (fun d => negb (Ascii.eqb d c)) s.

(** The owner, the repository and the tag that [Creator.fetchRepos] reads
    in an input line. *)
Definition lineFields (line : string) : string * string * string :=
  let tokens := strings_Split line " "%char in
  let repoURL := strings_TrimPrefix (nth 0 tokens EmptyString) "github.com/" in
  let tokens' := strings_Split repoURL "/"%char in
  (nth 0 tokens' EmptyString, nth 1 tokens' EmptyString, nth 1 tokens EmptyString).

(** The owner, the repository and the ref name of the ref-creating requests
    of a trace. *)
Definition sentRefs (t : trace) : list (string * string * string) :=
  map (fun '(owner, repo, ref) => (owner, repo, Ref ref)) (createdRefs t).

(** The ref [gh-tag-creator] is to create for a repository of its list. *)
Definition wantedRef (r : Creator.repo) : string * string * string :=
  (OwnerLogin (Creator.repo_repo r), Name (Creator.repo_repo r),
   "refs/tags/" ++ Creator.tag r).

(** A computation that never panics and that leaves through [os.Exit], if
    it does, with status 1. *)
Definition orderly {A : Type} (m : M A) : Prop :=
  forall t, match snd (m t) with
            | Ret _ | Fatal _ => True
            | Exit code => code = 1
            | Panic _ => False
            end.

(** A computation that sends no ref-creating request and does not
    return. *)
Definition barren {A : Type} (m : M A) : Prop :=
  forall t, createdRefs (fst (m t)) = createdRefs t
            /\ forall a, snd (m t) <> Ret a.

(** The trace without its log lines. *)
Definition unlog (t : trace) : trace :=
  List.filter (fun e => match e with Log _ => false | _ => true end) t.

(** Two computations that, from traces equal up to log lines, end alike
    with traces equal up to log lines. *)
Definition alike {A : Type} (m m' : M A) : Prop :=
  forall t t', unlog t = unlog t' ->
               unlog (fst (m t)) = unlog (fst (m' t'))
               /\ snd (m t) = snd (m' t').

(** The API never lists a reference without its [ref] field. *)
Definition allRefsSet
    (answer : trace -> string -> string -> string -> result (list Reference))
  : Prop :=
  forall t owner repo ref refs,
    answer t owner repo ref = inr refs -> forallb hasRef refs = true.

(** The ref the interactive variant asks for, for a repository of its
    list: owner, repository and ref name. *)
Definition askedRef (r : Interactive.repo) : string * string * string :=
  (Interactive.org, Name (Interactive.repo_repo r),
   "ref/tags/v" ++ semver.Version_String (Interactive.newTag r)).

(** The number of "Skip" warnings in a trace. *)
Definition skips (t : trace) : nat :=
  List.length
    (List.filter (fun e => match e with
                           | Terminal text => String.eqb text ("Skip" ++ nl)
                           | _ => false
                           end) t).



(** The tag of a reference: its name without ["refs/tags/"]. *)
Definition tagOf (ref : Reference) : string :=
  strings_TrimPrefix (Ref ref) "refs/tags/".

(** ** Precedence as the specification words it

    Semantic Versioning 2.0.0, item 11: major, minor and patch are compared
    numerically; a version with a pre-release is lower than the same
    version without; two pre-releases are compared identifier by
    identifier, identifiers made of digits numerically, the others in
    ASCII order, a numeric identifier being lower than another one; when
    all the identifiers of the shorter pre-release are equal to those of
    the longer, the longer is the higher. Metadata takes no part. *)
Definition threeWay (x y : Z) : Z :=
  if x <? y then -1 else if y <? x then 1 else 0.

Definition identifierPrecedence (a b : string) : Z :=
  if all_digits a then
    (if all_digits b then threeWay (digits_value a 0) (digits_value b 0) else -1)
  else if all_digits b then 1
  else compareStrings a b.

Fixpoint identifiersPrecedence (xs ys : list string) : Z :=
  match xs, ys with
  | [], [] => 0
  | [], _ :: _ => -1
  | _ :: _, [] => 1
  | x :: xs', y :: ys' =>
      if identifierPrecedence x y =? 0 then identifiersPrecedence xs' ys'
      else identifierPrecedence x y
  end.

Definition precedence (v w : semver.Version) : Z :=
  if negb (semver.major v =? semver.major w)
  then threeWay (semver.major v) (semver.major w)
  else if negb (semver.minor v =? semver.minor w)
  then threeWay (semver.minor v) (semver.minor w)
  else if negb (semver.patch v =? semver.patch w)
  then threeWay (semver.patch v) (semver.patch w)
  else if String.eqb (semver.pre v) EmptyString
  then (if String.eqb (semver.pre w) EmptyString then 0 else 1)
  else if String.eqb (semver.pre w) EmptyString then -1
  else identifiersPrecedence (strings_Split (semver.pre v) "."%char)
                             (strings_Split (semver.pre w) "."%char).

(** The numeric identifiers of the pre-release of [v] are in the range of
    [uint64]. *)
Definition smallNumerals (v : semver.Version) : Prop :=
  Forall (fun part => all_digits part = true -> digits_value part 0 <= maxUint64)
         (strings_Split (semver.pre v) "."%char).

(** An identifier of a pre-release that [NewVersion] returns, with its
    number in range if it is one. *)
Definition plainPart (part : string) : Prop :=
  part <> EmptyString /\ goodPart part
  /\ (all_digits part = true -> digits_value part 0 <= maxUint64).



(** The text made of the given lines, each followed by a newline. *)
Fixpoint lines (l : list string) : string :=
  match l with
  | [] => EmptyString
  | line :: l' => line ++ nl ++ lines l'
  end.

(* ================================================================== *)
(** * Decimal numerals *)
(* ================================================================== *)

Lemma maxUint64_eq : maxUint64 = 18446744073709551615.
Proof. reflexivity. Qed.

Lemma u64_small (z : Z) : 0 <= z <= maxUint64 -> u64 z = z.
Proof.
  rewrite maxUint64_eq. intros H. unfold u64.
  apply Z.mod_small. change (2 ^ 64) with 18446744073709551616. lia.
Qed.

Lemma is_digit_range (c : ascii) :
  is_digit c = true <-> 48 <= byte_of c <= 57.
Proof. unfold is_digit. rewrite andb_true_iff, !Z.leb_le. tauto. Qed.

Lemma digits_value_ge (s : string) : forall acc,
  all_digits s = true -> 0 <= acc -> acc <= digits_value s acc.
Proof.
  induction s as [|c s IH]; simpl; intros acc Hd Hacc; [lia|].
  apply andb_true_iff in Hd. destruct Hd as [Hc Hs].
  apply is_digit_range in Hc.
  specialize (IH (acc * 10 + (byte_of c - 48)) Hs). lia.
Qed.

Lemma digits_value_mono (s : string) : forall a b,
  a <= b -> digits_value s a <= digits_value s b.
Proof.
  induction s as [|c s IH]; simpl; intros a b H; [lia|].
  apply IH. lia.
Qed.

(** One step of the loop of [ParseUint] without its overflow tests. *)
Lemma parseUint_loop_step (c : ascii) (s : string) (n : Z) :
  0 <= n <= maxUint64 -> is_digit c = true ->
  let n1 := n * 10 + (byte_of c - 48) in
  parseUint_loop (String c s) n =
  if n1 <=? maxUint64 then parseUint_loop s n1 else None.
Proof.
  intros Hn Hc n1. subst n1. simpl. rewrite Hc.
  apply is_digit_range in Hc.
  change (maxUint64 / 10 + 1) with 1844674407370955162.
  rewrite maxUint64_eq in *.
  destruct (Z.leb_spec 1844674407370955162 n) as [Hcut|Hcut].
  - destruct (Z.leb_spec (n * 10 + (byte_of c - 48)) 18446744073709551615); [lia|reflexivity].
  - rewrite (u64_small (n * 10)) by (rewrite maxUint64_eq; lia).
    destruct (Z.leb_spec (n * 10 + (byte_of c - 48)) 18446744073709551615) as [Hle|Hgt].
    + rewrite u64_small by (rewrite maxUint64_eq; lia).
      destruct (Z.ltb_spec (n * 10 + (byte_of c - 48)) (n * 10)); [lia|].
      destruct (Z.ltb_spec 18446744073709551615 (n * 10 + (byte_of c - 48))); [lia|].
      reflexivity.
    + assert (Hw : u64 (n * 10 + (byte_of c - 48))
                   = n * 10 + (byte_of c - 48) - 18446744073709551616).
      { unfold u64. change (2 ^ 64) with 18446744073709551616.
        symmetry. apply (Z.mod_unique _ _ 1); lia. }
      rewrite Hw.
      destruct (Z.ltb_spec (n * 10 + (byte_of c - 48) - 18446744073709551616) (n * 10));
        [reflexivity|lia].
Qed.

(** [ParseUint] returns the value of the digits, when it fits. *)
Lemma parseUint_loop_spec (s : string) : forall acc n,
  0 <= acc <= maxUint64 ->
  parseUint_loop s acc = Some n ->
  all_digits s = true /\ n = digits_value s acc /\ 0 <= n <= maxUint64.
Proof.
  induction s as [|c s IH]; intros acc n Hacc H.
  - simpl in H. inversion H; subst. simpl. auto.
  - destruct (is_digit c) eqn:Hc; [|simpl in H; rewrite Hc in H; discriminate].
    rewrite parseUint_loop_step in H by assumption.
    destruct (Z.leb_spec (acc * 10 + (byte_of c - 48)) maxUint64) as [Hle|]; [|discriminate].
    pose proof (proj1 (is_digit_range c) Hc).
    apply IH in H; [|lia].
    simpl. rewrite Hc. tauto.
Qed.

Lemma parseUint_loop_complete (s : string) : forall acc,
  0 <= acc -> all_digits s = true -> digits_value s acc <= maxUint64 ->
  parseUint_loop s acc = Some (digits_value s acc).
Proof.
  induction s as [|c s IH]; intros acc Hacc Hd Hv; [reflexivity|].
  simpl in Hd. apply andb_true_iff in Hd. destruct Hd as [Hc Hs].
  pose proof (proj1 (is_digit_range c) Hc) as Hr.
  simpl in Hv.
  pose proof (digits_value_ge s (acc * 10 + (byte_of c - 48)) Hs ltac:(lia)) as Hge.
  rewrite parseUint_loop_step by (auto; lia).
  destruct (Z.leb_spec (acc * 10 + (byte_of c - 48)) maxUint64); [|lia].
  simpl. apply IH; auto; lia.
Qed.

Lemma ParseUint_spec (s : string) (n : Z) :
  strconv_ParseUint s = Some n ->
  s <> EmptyString /\ all_digits s = true /\ n = digits_value s 0
  /\ 0 <= n <= maxUint64.
Proof.
  destruct s as [|c s]; [discriminate|]. unfold strconv_ParseUint. intros H.
  apply parseUint_loop_spec in H; [|rewrite maxUint64_eq; lia].
  split; [discriminate|tauto].
Qed.

Lemma ParseUint_complete (s : string) :
  s <> EmptyString -> all_digits s = true -> digits_value s 0 <= maxUint64 ->
  strconv_ParseUint s = Some (digits_value s 0).
Proof.
  destruct s as [|c s]; [congruence|]. intros _ Hd Hv.
  unfold strconv_ParseUint. apply parseUint_loop_complete; auto; lia.
Qed.

Lemma byte_of_inj (c d : ascii) : byte_of c = byte_of d -> c = d.
Proof.
  unfold byte_of. intros H. apply N2Z.inj in H.
  rewrite <- (ascii_N_embedding c), <- (ascii_N_embedding d). congruence.
Qed.

Lemma byte_of_digit_char (d : Z) : 0 <= d <= 9 -> byte_of (digit_char d) = 48 + d.
Proof.
  intros H. unfold byte_of, digit_char.
  rewrite N_ascii_embedding; [lia|].
  change 256%N with (Z.to_N 256). apply Z2N.inj_lt; lia.
Qed.

Lemma is_digit_digit_char (d : Z) : 0 <= d <= 9 -> is_digit (digit_char d) = true.
Proof. intros H. apply is_digit_range. rewrite byte_of_digit_char; lia. Qed.

Lemma string_app_assoc (a b c : string) : (a ++ b) ++ c = a ++ (b ++ c).
Proof. induction a; simpl; congruence. Qed.

Lemma string_app_nil_r (a : string) : a ++ EmptyString = a.
Proof. induction a; simpl; congruence. Qed.

Lemma string_length_app (a b : string) :
  String.length (a ++ b) = (String.length a + String.length b)%nat.
Proof. induction a; simpl; congruence. Qed.

Lemma digits_value_app (a b : string) : forall acc,
  digits_value (a ++ b) acc = digits_value b (digits_value a acc).
Proof. induction a; simpl; intros; auto. Qed.

Lemma all_digits_app (a b : string) :
  all_digits (a ++ b) = all_digits a && all_digits b.
Proof. induction a; simpl; auto. rewrite IHa. apply andb_assoc. Qed.

(** The accumulator of [format_digits] is only a suffix. *)
Lemma format_digits_acc (fuel : nat) : forall n acc,
  format_digits fuel n acc = format_digits fuel n EmptyString ++ acc.
Proof.
  induction fuel as [|f IH]; intros n acc; [reflexivity|].
  simpl. destruct (n / 10 =? 0); [reflexivity|].
  rewrite (IH _ (String _ acc)), (IH _ (String _ EmptyString)).
  rewrite string_app_assoc. reflexivity.
Qed.

Lemma format_digits_value (fuel : nat) : forall n,
  0 <= n < 10 ^ Z.of_nat fuel ->
  digits_value (format_digits fuel n EmptyString) 0 = n
  /\ all_digits (format_digits fuel n EmptyString) = true.
Proof.
  induction fuel as [|f IH]; intros n Hn.
  - simpl in *. split; [lia|reflexivity].
  - assert (Hd : 0 <= n mod 10 <= 9) by (pose proof (Z.mod_pos_bound n 10); lia).
    simpl. destruct (Z.eqb_spec (n / 10) 0) as [Hz|Hz].
    + simpl. rewrite byte_of_digit_char, is_digit_digit_char by lia.
      split; [|reflexivity].
      pose proof (Z.div_mod n 10). lia.
    + rewrite format_digits_acc, digits_value_app, all_digits_app.
      rewrite Nat2Z.inj_succ, Z.pow_succ_r in Hn by lia.
      destruct (IH (n / 10)) as [Hv Ha].
      { split; [apply Z.div_pos; lia|apply Z.div_lt_upper_bound; lia]. }
      rewrite Hv, Ha. simpl.
      rewrite byte_of_digit_char, is_digit_digit_char by lia.
      split; [|reflexivity].
      pose proof (Z.div_mod n 10). lia.
Qed.

Lemma format_digits_head (fuel : nat) : forall n acc,
  1 <= n < 10 ^ Z.of_nat fuel ->
  exists d rest, format_digits fuel n acc = String (digit_char d) rest /\ 1 <= d <= 9.
Proof.
  induction fuel as [|f IH]; intros n acc Hn.
  - simpl in Hn. lia.
  - simpl. destruct (Z.eqb_spec (n / 10) 0) as [Hz|Hz].
    + exists (n mod 10), acc. split; [reflexivity|].
      pose proof (Z.div_mod n 10). pose proof (Z.mod_pos_bound n 10). lia.
    + rewrite Nat2Z.inj_succ, Z.pow_succ_r in Hn by lia.
      apply IH. split.
      * assert (0 <= n / 10) by (apply Z.div_pos; lia). lia.
      * apply Z.div_lt_upper_bound; lia.
Qed.

Lemma format_digits_nonempty (fuel : nat) (n : Z) (acc : string) :
  format_digits (S fuel) n acc <> EmptyString.
Proof.
  simpl. destruct (n / 10 =? 0); [discriminate|].
  rewrite format_digits_acc. destruct (format_digits fuel (n / 10) EmptyString); discriminate.
Qed.

Lemma digit_char_not_zero (d : Z) : 1 <= d <= 9 -> digit_char d <> "0"%char.
Proof.
  intros H E. apply (f_equal byte_of) in E.
  rewrite byte_of_digit_char in E by lia. change (byte_of "0") with 48 in E. lia.
Qed.

(** The numeral printed for a [uint64]: non-empty, made of digits, without
    a leading zero, and denoting the number. *)
Lemma format_uint_spec (n : Z) :
  0 <= n <= maxUint64 ->
  format_uint n <> EmptyString /\ all_digits (format_uint n) = true
  /\ leadingZero (format_uint n) = false /\ digits_value (format_uint n) 0 = n.
Proof.
  intros Hn. rewrite maxUint64_eq in Hn. unfold format_uint.
  assert (Hb : 0 <= n < 10 ^ Z.of_nat 20).
  { change (10 ^ Z.of_nat 20) with 100000000000000000000. lia. }
  destruct (format_digits_value 20 n Hb) as [Hv Ha].
  repeat split; auto.
  - apply format_digits_nonempty.
  - destruct (Z.eq_dec n 0) as [->|Hz]; [reflexivity|].
    destruct (format_digits_head 20 n EmptyString ltac:(lia)) as (d & rest & E & Hd).
    rewrite E. unfold leadingZero.
    pose proof (digit_char_not_zero d Hd) as Hnz.
    destruct (digit_char d) as [[] [] [] [] [] [] [] []];
      try (rewrite andb_false_r; reflexivity).
    exfalso. apply Hnz. reflexivity.
Qed.

Lemma digits_value_bounds (s : string) : forall a,
  all_digits s = true -> 0 <= a ->
  a * 10 ^ Z.of_nat (String.length s) <= digits_value s a
  < (a + 1) * 10 ^ Z.of_nat (String.length s).
Proof.
  induction s as [|c s IH]; intros a Hd Ha.
  - simpl. lia.
  - simpl in Hd. apply andb_true_iff in Hd. destruct Hd as [Hc Hs].
    apply is_digit_range in Hc.
    cbn [String.length digits_value].
    rewrite Nat2Z.inj_succ, Z.pow_succ_r by lia.
    specialize (IH (a * 10 + (byte_of c - 48)) Hs ltac:(lia)).
    assert (0 < 10 ^ Z.of_nat (String.length s)) by (apply Z.pow_pos_nonneg; lia).
    nia.
Qed.

Lemma digits_value_inj_len (s : string) : forall o a b,
  String.length s = String.length o ->
  all_digits s = true -> all_digits o = true -> 0 <= a -> 0 <= b ->
  digits_value s a = digits_value o b -> a = b /\ s = o.
Proof.
  induction s as [|c s IH]; intros [|c' o] a b Hl Hs Ho Ha Hb Hv;
    try discriminate.
  - simpl in Hv. auto.
  - simpl in Hs, Ho. apply andb_true_iff in Hs, Ho.
    destruct Hs as [Hc Hs], Ho as [Hc' Ho].
    apply is_digit_range in Hc, Hc'.
    simpl in Hv. apply IH in Hv; auto; try lia.
    destruct Hv as [Hab ->].
    assert (a = b /\ byte_of c = byte_of c') as [-> Hcc] by lia.
    apply byte_of_inj in Hcc. subst. auto.
Qed.

Lemma canonical_lower_bound (o : string) :
  o <> EmptyString -> all_digits o = true -> leadingZero o = false ->
  (2 <= String.length o)%nat ->
  10 ^ (Z.of_nat (String.length o) - 1) <= digits_value o 0.
Proof.
  destruct o as [|c o]; [congruence|]. intros _ Hd Hz Hl.
  simpl in Hd. apply andb_true_iff in Hd. destruct Hd as [Hc Hd].
  apply is_digit_range in Hc.
  assert (Hc1 : 1 <= byte_of c - 48).
  { unfold leadingZero, len in Hz. cbn [String.length] in Hz, Hl.
    destruct (Z.ltb_spec 1 (Z.of_nat (S (String.length o)))); [|lia].
    simpl in Hz.
    assert (c <> "0"%char) as Hne.
    { intros ->. discriminate. }
    assert (byte_of c <> 48).
    { intros E. apply Hne. apply byte_of_inj. exact E. }
    lia. }
  cbn [digits_value String.length].
  pose proof (digits_value_bounds o (0 * 10 + (byte_of c - 48)) Hd ltac:(lia)) as [Hlo _].
  replace (Z.of_nat (S (String.length o)) - 1) with (Z.of_nat (String.length o)) by lia.
  assert (0 < 10 ^ Z.of_nat (String.length o)) by (apply Z.pow_pos_nonneg; lia).
  nia.
Qed.

Lemma canonical_length_le (s o : string) :
  s <> EmptyString -> o <> EmptyString ->
  all_digits s = true -> all_digits o = true ->
  leadingZero o = false ->
  digits_value s 0 = digits_value o 0 ->
  (String.length o <= String.length s)%nat.
Proof.
  intros Hs Ho Hds Hdo Hzo Hv.
  destruct (Nat.le_gt_cases (String.length o) (String.length s)) as [|Hlt]; [assumption|].
  exfalso.
  assert (1 <= String.length s)%nat by (destruct s; [congruence|simpl; lia]).
  pose proof (canonical_lower_bound o Ho Hdo Hzo ltac:(lia)) as Hlo.
  pose proof (digits_value_bounds s 0 Hds ltac:(lia)) as [_ Hhi].
  assert (10 ^ Z.of_nat (String.length s) <= 10 ^ (Z.of_nat (String.length o) - 1))
    by (apply Z.pow_le_mono_r; lia).
  lia.
Qed.

(** A number has one numeral without a leading zero. *)
Lemma canonical_numeral_unique (s o : string) :
  s <> EmptyString -> o <> EmptyString ->
  all_digits s = true -> all_digits o = true ->
  leadingZero s = false -> leadingZero o = false ->
  digits_value s 0 = digits_value o 0 -> s = o.
Proof.
  intros Hs Ho Hds Hdo Hzs Hzo Hv.
  pose proof (canonical_length_le s o Hs Ho Hds Hdo Hzo Hv).
  pose proof (canonical_length_le o s Ho Hs Hdo Hds Hzs (eq_sym Hv)).
  apply (digits_value_inj_len s o 0 0); auto; lia.
Qed.

(** Printing what [ParseUint] read gives the numeral back, unless it had a
    leading zero. *)
Lemma format_ParseUint (s : string) (n : Z) :
  strconv_ParseUint s = Some n -> leadingZero s = false -> format_uint n = s.
Proof.
  intros H Hz. apply ParseUint_spec in H. destruct H as (Hne & Hd & Hv & Hr).
  destruct (format_uint_spec n Hr) as (Fne & Fd & Fz & Fv).
  apply canonical_numeral_unique; auto. congruence.
Qed.

(** [ParseUint] reads back what [%d] printed. *)
Lemma ParseUint_format (n : Z) :
  0 <= n <= maxUint64 -> strconv_ParseUint (format_uint n) = Some n.
Proof.
  intros Hr. destruct (format_uint_spec n Hr) as (Fne & Fd & Fz & Fv).
  rewrite ParseUint_complete; auto; rewrite Fv; [reflexivity|lia].
Qed.

(* ================================================================== *)
(** * Total preorders and the precedence of versions *)
(* ================================================================== *)

Section TotalPreorders.
Context {A : Type}.
Variable P : A -> Prop.

Lemma TotalPreorder_lt_le (c : A -> A -> Z) (x y z : A) :
  TotalPreorder P c -> P x -> P y -> P z ->
  c x y < 0 -> c y z <= 0 -> c x z < 0.
Proof.
  intros T Px Py Pz Hxy Hyz.
  pose proof (cmp_trans P c T x y z Px Py Pz ltac:(lia) Hyz) as Hxz.
  destruct (Z.eq_dec (c x z) 0) as [E|]; [|lia].
  pose proof (cmp_opp P c T z x Pz Px) as Hzx.
  pose proof (cmp_trans P c T y z x Py Pz Px Hyz ltac:(lia)) as Hyx.
  pose proof (cmp_opp P c T x y Px Py). lia.
Qed.

Lemma TotalPreorder_le_lt (c : A -> A -> Z) (x y z : A) :
  TotalPreorder P c -> P x -> P y -> P z ->
  c x y <= 0 -> c y z < 0 -> c x z < 0.
Proof.
  intros T Px Py Pz Hxy Hyz.
  pose proof (cmp_trans P c T x y z Px Py Pz Hxy ltac:(lia)) as Hxz.
  destruct (Z.eq_dec (c x z) 0) as [E|]; [|lia].
  pose proof (cmp_opp P c T z x Pz Px) as Hzx.
  pose proof (cmp_trans P c T z x y Pz Px Py ltac:(lia) Hxy) as Hzy.
  pose proof (cmp_opp P c T y z Py Pz). lia.
Qed.

Lemma TotalPreorder_eq_eq (c : A -> A -> Z) (x y z : A) :
  TotalPreorder P c -> P x -> P y -> P z ->
  c x y = 0 -> c y z = 0 -> c x z = 0.
Proof.
  intros T Px Py Pz Hxy Hyz.
  pose proof (cmp_trans P c T x y z Px Py Pz ltac:(lia) ltac:(lia)).
  pose proof (cmp_opp P c T y x Py Px).
  pose proof (cmp_opp P c T z y Pz Py).
  pose proof (cmp_opp P c T z x Pz Px).
  pose proof (cmp_trans P c T z y x Pz Py Px ltac:(lia) ltac:(lia)).
  lia.
Qed.

Lemma TotalPreorder_lex (c1 c2 : A -> A -> Z) :
  TotalPreorder P c1 -> TotalPreorder P c2 -> TotalPreorder P (lex c1 c2).
Proof.
  intros T1 T2. split.
  - intros x Px. unfold lex. rewrite (cmp_refl P c1 T1 x Px). simpl.
    apply (cmp_refl P c2 T2 x Px).
  - intros x y Px Py. unfold lex.
    pose proof (cmp_opp P c1 T1 x y Px Py).
    pose proof (cmp_opp P c2 T2 x y Px Py).
    destruct (Z.eqb_spec (c1 x y) 0), (Z.eqb_spec (c1 y x) 0); lia.
  - intros x y z Px Py Pz. unfold lex.
    destruct (Z.eqb_spec (c1 x y) 0) as [Exy|Nxy];
      destruct (Z.eqb_spec (c1 y z) 0) as [Eyz|Nyz]; intros Hxy Hyz.
    + rewrite (TotalPreorder_eq_eq c1 x y z T1 Px Py Pz Exy Eyz). simpl.
      apply (cmp_trans P c2 T2 x y z); assumption.
    + pose proof (TotalPreorder_le_lt c1 x y z T1 Px Py Pz ltac:(lia) ltac:(lia)).
      destruct (Z.eqb_spec (c1 x z) 0); lia.
    + pose proof (TotalPreorder_lt_le c1 x y z T1 Px Py Pz ltac:(lia) ltac:(lia)).
      destruct (Z.eqb_spec (c1 x z) 0); lia.
    + pose proof (TotalPreorder_lt_le c1 x y z T1 Px Py Pz ltac:(lia) ltac:(lia)).
      destruct (Z.eqb_spec (c1 x z) 0); lia.
Qed.

Lemma TotalPreorder_zero : TotalPreorder P (fun _ _ => 0).
Proof. split; intros; lia. Qed.

Lemma TotalPreorder_ext (c c' : A -> A -> Z) :
  (forall x y, P x -> P y -> c x y = c' x y) ->
  TotalPreorder P c' -> TotalPreorder P c.
Proof.
  intros E T. split.
  - intros x Px. rewrite E by assumption. apply (cmp_refl P c' T x Px).
  - intros x y Px Py. rewrite !E by assumption. apply (cmp_opp P c' T x y Px Py).
  - intros x y z Px Py Pz. rewrite !E by assumption.
    apply (cmp_trans P c' T x y z Px Py Pz).
Qed.

Lemma TotalPreorder_map {B : Type} (Q : B -> Prop) (f : A -> B) (c : B -> B -> Z) :
  (forall x, P x -> Q (f x)) ->
  TotalPreorder Q c -> TotalPreorder P (fun x y => c (f x) (f y)).
Proof.
  intros F T. split.
  - intros x Px. apply (cmp_refl Q c T). auto.
  - intros x y Px Py. apply (cmp_opp Q c T); auto.
  - intros x y z Px Py Pz. apply (cmp_trans Q c T); auto.
Qed.
End TotalPreorders.

Lemma TotalPreorder_weaken {A : Type} (P Q : A -> Prop) (c : A -> A -> Z) :
  (forall x, P x -> Q x) -> TotalPreorder Q c -> TotalPreorder P c.
Proof.
  intros I T. split.
  - intros x Px. apply (cmp_refl Q c T). auto.
  - intros x y Px Py. apply (cmp_opp Q c T); auto.
  - intros x y z Px Py Pz. apply (cmp_trans Q c T); auto.
Qed.

Lemma compareSegment_TotalPreorder :
  TotalPreorder (fun _ : Z => True) semver.compareSegment.
Proof.
  split; unfold semver.compareSegment.
  - intros x _. destruct (Z.ltb_spec x x); lia.
  - intros x y _ _.
    destruct (Z.ltb_spec x y), (Z.ltb_spec y x); lia.
  - intros x y z _ _ _.
    destruct (Z.ltb_spec x y), (Z.ltb_spec y x), (Z.ltb_spec y z),
      (Z.ltb_spec z y), (Z.ltb_spec x z), (Z.ltb_spec z x); lia.
Qed.

Lemma compareSegment_zero (x y : Z) : semver.compareSegment x y = 0 -> x = y.
Proof.
  unfold semver.compareSegment.
  destruct (Z.ltb_spec x y), (Z.ltb_spec y x); lia.
Qed.

(** ** The order of Go strings *)

Lemma ascii_compare_lt_trans (a b c : ascii) :
  Ascii.compare a b = Lt -> Ascii.compare b c = Lt -> Ascii.compare a c = Lt.
Proof.
  unfold Ascii.compare. rewrite !N.compare_lt_iff. apply N.lt_trans.
Qed.

Lemma string_compare_refl (a : string) : String.compare a a = Eq.
Proof.
  induction a as [|c a IH]; [reflexivity|]. simpl.
  unfold Ascii.compare. rewrite N.compare_refl. exact IH.
Qed.

Lemma string_compare_lt_trans (a : string) : forall b c,
  String.compare a b = Lt -> String.compare b c = Lt -> String.compare a c = Lt.
Proof.
  induction a as [|x a IH]; intros [|y b] [|z c]; simpl; try congruence.
  destruct (Ascii.compare x y) eqn:Exy; try discriminate;
    destruct (Ascii.compare y z) eqn:Eyz; try discriminate; intros Hab Hbc.
  - apply Ascii.compare_eq_iff in Exy, Eyz. subst.
    unfold Ascii.compare. rewrite N.compare_refl. eapply IH; eauto.
  - apply Ascii.compare_eq_iff in Exy. subst. rewrite Eyz. reflexivity.
  - apply Ascii.compare_eq_iff in Eyz. subst. rewrite Exy. reflexivity.
  - rewrite (ascii_compare_lt_trans x y z Exy Eyz). reflexivity.
Qed.

Lemma compareStrings_TotalPreorder :
  TotalPreorder (fun _ : string => True) compareStrings.
Proof.
  assert (V : forall a b, compareStrings a b =
                          match String.compare a b with Eq => 0 | Lt => -1 | Gt => 1 end).
  { intros a b. unfold compareStrings, string_gt.
    destruct (String.eqb_spec a b) as [->|N].
    - rewrite string_compare_refl. reflexivity.
    - destruct (String.compare a b) eqn:E; try reflexivity.
      apply String.compare_eq_iff in E. contradiction. }
  split.
  - intros x _. rewrite V, string_compare_refl. reflexivity.
  - intros x y _ _. rewrite !V, (String.compare_antisym y x).
    destruct (String.compare x y); reflexivity.
  - intros x y z _ _ _. rewrite !V.
    destruct (String.compare x y) eqn:Exy; try lia;
      destruct (String.compare y z) eqn:Eyz; try lia; intros _ _.
    + apply String.compare_eq_iff in Exy, Eyz. subst.
      rewrite string_compare_refl. lia.
    + apply String.compare_eq_iff in Exy. subst. rewrite Eyz. lia.
    + apply String.compare_eq_iff in Eyz. subst. rewrite Exy. lia.
    + rewrite (string_compare_lt_trans x y z Exy Eyz). lia.
Qed.

Lemma compareStrings_zero (a b : string) : compareStrings a b = 0 -> a = b.
Proof.
  unfold compareStrings. destruct (String.eqb_spec a b); [auto|].
  destruct (string_gt a b); lia.
Qed.

(** ** Pre-release identifiers *)

Lemma goodPart_empty : goodPart EmptyString.
Proof. intros n H. discriminate. Qed.

(** [comparePrePart] compares by rank, then by number, then by text. *)
Lemma comparePrePart_lex (s o : string) :
  goodPart s -> goodPart o ->
  semver.comparePrePart s o =
  lex (fun a b => semver.compareSegment (partClass a) (partClass b))
      (lex (fun a b => semver.compareSegment (partNumber a) (partNumber b))
           (fun a b => compareStrings (partText a) (partText b))) s o.
Proof.
  intros Gs Go. unfold semver.comparePrePart, lex.
  destruct (String.eqb_spec s o) as [->|Hne].
  - assert (R : forall x, semver.compareSegment x x = 0).
    { intros x. unfold semver.compareSegment. destruct (Z.ltb_spec x x); lia. }
    rewrite !R. simpl. unfold compareStrings. rewrite String.eqb_refl. reflexivity.
  - destruct s as [|c s]; [destruct o as [|c' o]; [congruence|]|].
    + cbn -[strconv_ParseUint].
      destruct (strconv_ParseUint (String c' o)); reflexivity.
    + destruct o as [|c' o].
      * cbn -[strconv_ParseUint].
        destruct (strconv_ParseUint (String c s)); reflexivity.
      * cbn [String.eqb negb].
        unfold partClass, partNumber, partText.
        destruct (strconv_ParseUint (String c' o)) as [oi|] eqn:Ho;
          destruct (strconv_ParseUint (String c s)) as [si|] eqn:Hs;
          try reflexivity.
        -- assert (si <> oi).
           { intros ->. apply Hne.
             rewrite <- (format_ParseUint _ _ Hs (Gs _ Hs)).
             rewrite <- (format_ParseUint _ _ Ho (Go _ Ho)). reflexivity. }
           unfold semver.compareSegment. simpl.
           destruct (Z.ltb_spec si oi), (Z.ltb_spec oi si); simpl; try lia; reflexivity.
        -- simpl. unfold compareStrings.
           destruct (String.eqb_spec (String c s) (String c' o)); [contradiction|].
           reflexivity.
Qed.

Lemma comparePrePart_TotalPreorder :
  TotalPreorder goodPart semver.comparePrePart.
Proof.
  eapply TotalPreorder_ext.
  - intros x y Px Py. apply comparePrePart_lex; assumption.
  - apply TotalPreorder_lex; [|apply TotalPreorder_lex].
    + apply (TotalPreorder_map goodPart (fun _ => True) partClass); auto.
      apply compareSegment_TotalPreorder.
    + apply (TotalPreorder_map goodPart (fun _ => True) partNumber); auto.
      apply compareSegment_TotalPreorder.
    + apply (TotalPreorder_map goodPart (fun _ => True) partText); auto.
      apply compareStrings_TotalPreorder.
Qed.

(** ** The loop of [comparePrerelease] *)

Lemma nth_goodPart (l : list string) (i : nat) :
  Forall goodPart l -> goodPart (nth i l EmptyString).
Proof.
  intros F. destruct (Nat.lt_ge_cases i (List.length l)) as [Hlt|Hge].
  - rewrite Forall_forall in F. apply F. apply nth_In. assumption.
  - rewrite nth_overflow by assumption. apply goodPart_empty.
Qed.

Lemma comparePrerelease_loop_TotalPreorder (n : nat) : forall i,
  TotalPreorder (Forall goodPart)
    (fun s o => semver.comparePrerelease_loop s o i n).
Proof.
  induction n as [|n IH]; intros i.
  - apply TotalPreorder_zero.
  - apply (TotalPreorder_ext _ _
      (lex (fun s o => semver.comparePrePart (nth i s EmptyString) (nth i o EmptyString))
           (fun s o => semver.comparePrerelease_loop s o (S i) n))).
    + intros x y _ _. reflexivity.
    + apply TotalPreorder_lex; [|apply IH].
      apply (TotalPreorder_map (Forall goodPart) goodPart
               (fun s => nth i s EmptyString)).
      * intros x. apply nth_goodPart.
      * apply comparePrePart_TotalPreorder.
Qed.

Lemma comparePrerelease_loop_beyond (s o : list string) (n : nat) : forall i,
  (List.length s <= i)%nat -> (List.length o <= i)%nat ->
  semver.comparePrerelease_loop s o i n = 0.
Proof.
  induction n as [|n IH]; intros i Hs Ho; [reflexivity|].
  simpl. rewrite !nth_overflow by assumption. simpl.
  apply IH; lia.
Qed.

Lemma comparePrerelease_loop_extend (s o : list string) (k n : nat) : forall i,
  (List.length s <= i + n)%nat -> (List.length o <= i + n)%nat ->
  semver.comparePrerelease_loop s o i (n + k) = semver.comparePrerelease_loop s o i n.
Proof.
  induction n as [|n IH]; intros i Hs Ho.
  - simpl. apply comparePrerelease_loop_beyond; lia.
  - simpl. destruct (_ =? 0); [|reflexivity]. apply IH; lia.
Qed.

(** The number of iterations of [comparePrerelease] can be any bound of
    the two lengths. *)
Lemma comparePrerelease_bound (v o : string) (N : nat) :
  (List.length (strings_Split v "."%char) <= N)%nat ->
  (List.length (strings_Split o "."%char) <= N)%nat ->
  semver.comparePrerelease v o =
  semver.comparePrerelease_loop (strings_Split v "."%char) (strings_Split o "."%char) 0 N.
Proof.
  intros Hv Ho. unfold semver.comparePrerelease.
  set (sp := strings_Split v "."%char) in *.
  set (op := strings_Split o "."%char) in *.
  set (l := if (List.length sp <? List.length op)%nat then List.length op else List.length sp).
  assert (Hl : (List.length sp <= l /\ List.length op <= l /\ l <= N)%nat).
  { subst l. destruct (Nat.ltb_spec (List.length sp) (List.length op)); lia. }
  replace N with (l + (N - l))%nat by lia.
  symmetry. apply comparePrerelease_loop_extend; lia.
Qed.

Lemma comparePre_TotalPreorder :
  TotalPreorder (fun p => Forall goodPart (strings_Split p "."%char)) comparePre.
Proof.
  split.
  - intros x Px. unfold comparePre.
    destruct (String.eqb_spec x EmptyString); [reflexivity|]. simpl.
    rewrite (comparePrerelease_bound x x _ (Nat.le_refl _) (Nat.le_refl _)).
    apply (cmp_refl _ _ (comparePrerelease_loop_TotalPreorder _ 0) _ Px).
  - intros x y Px Py. unfold comparePre.
    destruct (String.eqb_spec x EmptyString), (String.eqb_spec y EmptyString);
      simpl; try reflexivity.
    set (N := Nat.max (List.length (strings_Split x "."%char))
                      (List.length (strings_Split y "."%char))).
    rewrite (comparePrerelease_bound x y N), (comparePrerelease_bound y x N)
      by (subst N; lia).
    apply (cmp_opp _ _ (comparePrerelease_loop_TotalPreorder N 0) _ _ Px Py).
  - intros x y z Px Py Pz. unfold comparePre.
    destruct (String.eqb_spec x EmptyString), (String.eqb_spec y EmptyString),
      (String.eqb_spec z EmptyString); simpl; try lia.
    set (N := Nat.max (List.length (strings_Split x "."%char))
                (Nat.max (List.length (strings_Split y "."%char))
                         (List.length (strings_Split z "."%char)))).
    rewrite (comparePrerelease_bound x y N), (comparePrerelease_bound y z N),
      (comparePrerelease_bound x z N) by (subst N; lia).
    apply (cmp_trans _ _ (comparePrerelease_loop_TotalPreorder N 0) _ _ _ Px Py Pz).
Qed.

(** ** [Compare] *)

Lemma Compare_lex (v o : semver.Version) :
  semver.Compare v o =
  lex (fun a b => semver.compareSegment (semver.major a) (semver.major b))
   (lex (fun a b => semver.compareSegment (semver.minor a) (semver.minor b))
     (lex (fun a b => semver.compareSegment (semver.patch a) (semver.patch b))
          (fun a b => comparePre (semver.pre a) (semver.pre b)))) v o.
Proof.
  unfold semver.Compare, lex, comparePre.
  destruct (_ =? 0); simpl; [|reflexivity].
  destruct (_ =? 0); simpl; [|reflexivity].
  destruct (_ =? 0); simpl; reflexivity.
Qed.

(** [Compare] is a total preorder on the versions [NewVersion] returns. *)
Lemma Compare_TotalPreorder : TotalPreorder goodVersion semver.Compare.
Proof.
  eapply TotalPreorder_ext.
  - intros x y _ _. apply Compare_lex.
  - repeat apply TotalPreorder_lex.
    + apply (TotalPreorder_map goodVersion (fun _ => True) semver.major); auto.
      apply compareSegment_TotalPreorder.
    + apply (TotalPreorder_map goodVersion (fun _ => True) semver.minor); auto.
      apply compareSegment_TotalPreorder.
    + apply (TotalPreorder_map goodVersion (fun _ => True) semver.patch); auto.
      apply compareSegment_TotalPreorder.
    + apply (TotalPreorder_map goodVersion
               (fun p => Forall goodPart (strings_Split p "."%char)) semver.pre).
      * intros x Px. exact Px.
      * apply comparePre_TotalPreorder.
Qed.

(* ================================================================== *)
(** * What [NewVersion] returns *)
(* ================================================================== *)

Lemma is_digit_containsByte (c : ascii) :
  semver.containsByte semver.num c = is_digit c.
Proof.
  destruct c as [[] [] [] [] [] [] [] []]; vm_compute; reflexivity.
Qed.

Lemma containsOnly_num (s : string) :
  semver.containsOnly s semver.num = all_digits s.
Proof.
  induction s as [|c s IH]; [reflexivity|].
  cbn [semver.containsOnly all_digits].
  rewrite is_digit_containsByte, IH. reflexivity.
Qed.

Lemma validatePrerelease_goodParts (p : string) :
  semver.validatePrerelease p = true ->
  Forall goodPart (strings_Split p "."%char).
Proof.
  unfold semver.validatePrerelease. intros H.
  rewrite forallb_forall in H. apply Forall_forall. intros part Hin n Hn.
  specialize (H part Hin).
  apply ParseUint_spec in Hn. destruct Hn as (_ & Hd & _).
  rewrite containsOnly_num, Hd in H.
  apply negb_true_iff in H. exact H.
Qed.

Lemma goodParts_empty : Forall goodPart (strings_Split EmptyString "."%char).
Proof. constructor; [apply goodPart_empty|constructor]. Qed.

Lemma parseSegment_range (m : string) (n : Z) :
  semver.parseSegment m = Some n -> 0 <= n <= maxUint64.
Proof.
  destruct m as [|c m]; simpl.
  - intros H. inversion H. rewrite maxUint64_eq. lia.
  - intros H. apply ParseUint_spec in H. tauto.
Qed.

(** The submatches of the pre-release and of the metadata are empty or
    match the grammar of identifiers. *)
Lemma FindStringSubmatch_idents (s m1 m2 m3 m5 m8 : string) :
  semver.versionRegex_FindStringSubmatch s = Some (m1, m2, m3, m5, m8) ->
  (m5 = EmptyString \/ semver.isIdents m5 = true)
  /\ (m8 = EmptyString \/ semver.isIdents m8 = true).
Proof.
  unfold semver.versionRegex_FindStringSubmatch.
  destruct (semver.span is_digit _) as [a s1].
  destruct a as [|c a]; [discriminate|].
  destruct (semver.dotDigits s1) as [b s2].
  destruct (semver.dotDigits s2) as [d s3].
  destruct s3 as [|x r].
  - intros H. inversion H. auto.
  - destruct (Ascii.eqb x "-"%char).
    + destruct (semver.span _ r) as [p r'].
      destruct (semver.isIdents p) eqn:E; [|discriminate].
      destruct r' as [|y q].
      * intros H. inversion H; subst. auto.
      * destruct (semver.isIdents q) eqn:E'; [|discriminate].
        intros H. inversion H; subst. auto.
    + destruct (Ascii.eqb x "+"%char); [|discriminate].
      destruct (semver.isIdents r) eqn:E; [|discriminate].
      intros H. inversion H; subst. auto.
Qed.

Lemma NewVersion_wellFormed (s : string) (v : semver.Version) :
  semver.NewVersion s = Some v -> wellFormed v.
Proof.
  unfold semver.NewVersion.
  destruct (semver.versionRegex_FindStringSubmatch s)
    as [[[[[m1 m2] m3] m5] m8]|] eqn:M; [|discriminate].
  destruct (strconv_ParseUint m1) as [ma|] eqn:E1; [|discriminate].
  destruct (semver.parseSegment m2) as [mi|] eqn:E2; [|discriminate].
  destruct (semver.parseSegment m3) as [pa|] eqn:E3; [|discriminate].
  destruct (_ && _) eqn:C; [|discriminate].
  intros H. inversion H; subst v; clear H.
  apply andb_true_iff in C. destruct C as [C5 C8].
  destruct (FindStringSubmatch_idents _ _ _ _ _ _ M) as [I5 I8].
  split; simpl.
  - apply ParseUint_spec in E1. tauto.
  - eapply parseSegment_range; eauto.
  - eapply parseSegment_range; eauto.
  - destruct I5 as [->|I5]; [left; reflexivity|].
    apply orb_true_iff in C5. destruct C5 as [C5|C5].
    + left. apply String.eqb_eq. exact C5.
    + right. auto.
  - exact I8.
Qed.

Lemma wellFormed_goodVersion (v : semver.Version) : wellFormed v -> goodVersion v.
Proof.
  intros W. unfold goodVersion. destruct (wf_pre v W) as [E|[_ V]].
  - rewrite E. apply goodParts_empty.
  - apply validatePrerelease_goodParts. exact V.
Qed.

Lemma NewVersion_goodVersion (s : string) (v : semver.Version) :
  semver.NewVersion s = Some v -> goodVersion v.
Proof. intros H. apply wellFormed_goodVersion. eapply NewVersion_wellFormed; eauto. Qed.

(* ================================================================== *)
(** * Sorting and the selection of the latest tag *)
(* ================================================================== *)

Section Sorting.
Context {A : Type}.
Variable less : A -> A -> bool.
Variable L : list A.
Hypothesis ordering : sort.TransitiveOrdering less L.

Lemma less_asym (x y : A) :
  In x L -> In y L -> less x y = true -> less y x = false.
Proof.
  intros Hx Hy Hxy. destruct ordering as (Irr & Tr & _).
  destruct (less y x) eqn:E; [|reflexivity].
  rewrite <- (Irr x Hx). symmetry. apply (Tr x y x); assumption.
Qed.

Lemma HdRel_insert (y x : A) (l : list A) :
  HdRel (fun a b => less b a = false) y l -> less x y = false ->
  HdRel (fun a b => less b a = false) y (sort.insert less x l).
Proof.
  intros H Hxy. destruct l as [|z l]; simpl.
  - constructor. exact Hxy.
  - destruct (less x z); constructor; [exact Hxy|].
    inversion H; assumption.
Qed.

Lemma insert_sorted (x : A) (l : list A) :
  In x L -> (forall y, In y l -> In y L) ->
  sort.IsSorted less l -> sort.IsSorted less (sort.insert less x l).
Proof.
  unfold sort.IsSorted. intros Hx Hl Hs.
  induction l as [|y l IH]; simpl.
  - repeat constructor.
  - destruct (less x y) eqn:E.
    + constructor; [assumption|]. constructor.
      apply less_asym; auto. apply Hl. left. reflexivity.
    + inversion Hs; subst. constructor.
      * apply IH; auto. intros z Hz. apply Hl. right. exact Hz.
      * apply HdRel_insert; assumption.
Qed.

(** The last element of a sorted slice is not less than any other. *)
Lemma sorted_last_max (l : list A) (d : A) :
  (forall y, In y l -> In y L) -> sort.IsSorted less l ->
  forall x, In x l -> less (last l d) x = false.
Proof.
  unfold sort.IsSorted. intros Hl Hs.
  destruct ordering as (Irr & _ & Neg).
  induction Hs as [|a l Hs IH Hd]; intros x Hx; [contradiction|].
  destruct l as [|b l].
  - destruct Hx as [<-|[]]. simpl. apply Irr. apply Hl. left. reflexivity.
  - assert (Hl' : forall y, In y (b :: l) -> In y L).
    { intros y Hy. apply Hl. right. exact Hy. }
    change (last (a :: b :: l) d) with (last (b :: l) d).
    destruct Hx as [<-|Hx]; [|apply IH; assumption].
    inversion Hd; subst.
    apply (Neg _ b a); auto.
    + apply Hl'. clear. generalize b. induction l as [|c l IHl]; intros b0.
      * left. reflexivity.
      * right. change (last (b0 :: c :: l) d) with (last (c :: l) d). apply IHl.
    + apply Hl'. left. reflexivity.
    + apply Hl. left. reflexivity.
    + apply IH; [assumption|]. left. reflexivity.
Qed.
End Sorting.

Lemma insert_Permutation {A : Type} (less : A -> A -> bool) (x : A) (l : list A) :
  Permutation (x :: l) (sort.insert less x l).
Proof.
  induction l as [|y l IH]; simpl; [reflexivity|].
  destruct (less x y); [reflexivity|].
  rewrite perm_swap. constructor. exact IH.
Qed.

Lemma insertionSort_Permutation {A : Type} (less : A -> A -> bool) (l : list A) :
  Permutation l (sort.insertionSort less l).
Proof.
  unfold sort.insertionSort.
  assert (G : forall acc, Permutation (l ++ acc)%list
                (fold_left (fun acc x => sort.insert less x acc) l acc)).
  { induction l as [|x l IH]; intros acc; simpl; [reflexivity|].
    rewrite <- IH. rewrite <- insert_Permutation.
    apply Permutation_middle. }
  specialize (G []). rewrite app_nil_r in G. exact G.
Qed.

Lemma insertionSort_IsSorted {A : Type} (less : A -> A -> bool) (l : list A) :
  sort.TransitiveOrdering less l -> sort.IsSorted less (sort.insertionSort less l).
Proof.
  intros T. unfold sort.insertionSort.
  assert (G : forall l' acc,
             (forall y, In y l' -> In y l) -> (forall y, In y acc -> In y l) ->
             sort.IsSorted less acc ->
             sort.IsSorted less (fold_left (fun acc x => sort.insert less x acc) l' acc)).
  { induction l' as [|x l' IH]; intros acc Hl' Hacc Hs; simpl; [exact Hs|].
    apply IH.
    - intros y Hy. apply Hl'. right. exact Hy.
    - intros y Hy.
      apply (Permutation_in y (Permutation_sym (insert_Permutation less x acc))) in Hy.
      destruct Hy as [<-|Hy]; [apply Hl'; left; reflexivity|auto].
    - apply (insert_sorted less l T); auto. apply Hl'. left. reflexivity. }
  apply G; auto.
  - intros y [].
  - constructor.
Qed.

(** Insertion sort meets the contract of [sort.Sort]. *)
Lemma insertionSorter : sort.Sorter.
Proof.
  refine {| sort.Sort := @sort.insertionSort |}.
  - intros A less l. apply insertionSort_Permutation.
  - intros A less l. apply insertionSort_IsSorted.
Defined.

Lemma nth_error_last {A : Type} (l : list A) (d : A) :
  l <> [] -> nth_error l (List.length l - 1) = Some (last l d).
Proof.
  induction l as [|a l IH]; [congruence|]. intros _.
  destruct l as [|b l]; [reflexivity|].
  change (last (a :: b :: l) d) with (last (b :: l) d).
  rewrite <- IH by discriminate. simpl. rewrite Nat.sub_0_r. reflexivity.
Qed.

Lemma ByVersion_Less_ordering (l : list semver.Version) :
  Forall goodVersion l -> sort.TransitiveOrdering Fetcher.ByVersion_Less l.
Proof.
  intros G. rewrite Forall_forall in G.
  pose proof Compare_TotalPreorder as T.
  unfold Fetcher.ByVersion_Less. repeat split.
  - intros x Hx. rewrite (cmp_refl _ _ T x (G x Hx)). reflexivity.
  - intros x y z Hx Hy Hz. rewrite !Z.ltb_lt. intros Hxy Hyz.
    apply (TotalPreorder_lt_le goodVersion _ x y z T); auto. lia.
  - intros x y z Hx Hy Hz. rewrite !Z.ltb_ge. intros Hxy Hyz.
    pose proof (cmp_opp _ _ T x y (G x Hx) (G y Hy)).
    pose proof (cmp_opp _ _ T y z (G y Hy) (G z Hz)).
    pose proof (cmp_opp _ _ T x z (G x Hx) (G z Hz)).
    pose proof (cmp_trans _ _ T z y x (G z Hz) (G y Hy) (G x Hx)). lia.
Qed.

Lemma parseTags_In (refs : list string) (v : semver.Version) :
  In v (Fetcher.parseTags refs) <->
  exists ref, In ref refs
              /\ semver.NewVersion (strings_TrimPrefix ref "refs/tags/") = Some v.
Proof.
  induction refs as [|r refs IH]; simpl.
  - split; [contradiction|]. intros (ref & [] & _).
  - destruct (semver.NewVersion (strings_TrimPrefix r "refs/tags/")) as [w|] eqn:E.
    + simpl. rewrite IH. split.
      * intros [<-|(ref & Hin & Hv)]; [exists r; auto|exists ref; auto].
      * intros (ref & [<-|Hin] & Hv); [left; congruence|right; exists ref; auto].
    + rewrite IH. split.
      * intros (ref & Hin & Hv). exists ref; auto.
      * intros (ref & [<-|Hin] & Hv); [congruence|exists ref; auto].
Qed.

Lemma parseTags_good (refs : list string) : Forall goodVersion (Fetcher.parseTags refs).
Proof.
  apply Forall_forall. intros v Hv. apply parseTags_In in Hv.
  destruct Hv as (ref & _ & Hv). eapply NewVersion_goodVersion; eauto.
Qed.

(** The selection: nothing without versions, otherwise one of them that no
    other exceeds. *)
Lemma latestOf_spec {sorter : sort.Sorter} (tags : list semver.Version) :
  Forall goodVersion tags ->
  match Fetcher.latestOf tags with
  | None => tags = []
  | Some v => In v tags /\ forall w, In w tags -> semver.Compare w v <= 0
  end.
Proof.
  intros G. unfold Fetcher.latestOf.
  destruct tags as [|t tags]; [reflexivity|].
  set (l := t :: tags) in *.
  pose proof (sort.Sort_Permutation _ Fetcher.ByVersion_Less l) as Hp.
  pose proof (sort.Sort_IsSorted _ Fetcher.ByVersion_Less l (ByVersion_Less_ordering l G)) as Hs.
  assert (Hne : sort.Sort Fetcher.ByVersion_Less l <> []).
  { intros E. rewrite E in Hp. apply Permutation_sym, Permutation_nil in Hp.
    subst l. discriminate. }
  rewrite (nth_error_last _ t Hne).
  assert (Hin : In (last (sort.Sort Fetcher.ByVersion_Less l) t) l).
  { apply (Permutation_in _ (Permutation_sym Hp)).
    destruct (exists_last Hne) as (l' & a & E). rewrite E.
    rewrite last_last. apply in_or_app. right. left. reflexivity. }
  split; [exact Hin|].
  intros w Hw.
  pose proof (sorted_last_max Fetcher.ByVersion_Less l (ByVersion_Less_ordering l G)
                (sort.Sort Fetcher.ByVersion_Less l) t
                (fun y Hy => Permutation_in y (Permutation_sym Hp) Hy) Hs
                w (Permutation_in w Hp Hw)) as Hmax.
  set (m := last (sort.Sort Fetcher.ByVersion_Less l) t) in *.
  unfold Fetcher.ByVersion_Less in Hmax. apply Z.ltb_ge in Hmax.
  rewrite Forall_forall in G.
  pose proof (cmp_opp _ _ Compare_TotalPreorder w _ (G w Hw) (G _ Hin)). lia.
Qed.

(* ================================================================== *)
(** * The version selector *)
(* ================================================================== *)

Lemma Compare_numeric (v w : semver.Version) :
  semver.major v < semver.major w
  \/ (semver.major v = semver.major w /\ semver.minor v < semver.minor w)
  \/ (semver.major v = semver.major w /\ semver.minor v = semver.minor w
      /\ semver.patch v < semver.patch w) ->
  semver.Compare v w = -1.
Proof.
  unfold semver.Compare, semver.compareSegment. intros H.
  destruct (Z.ltb_spec (semver.major v) (semver.major w)); [reflexivity|].
  destruct (Z.ltb_spec (semver.major w) (semver.major v)); [lia|]. simpl.
  destruct (Z.ltb_spec (semver.minor v) (semver.minor w)); [reflexivity|].
  destruct (Z.ltb_spec (semver.minor w) (semver.minor v)); [lia|]. simpl.
  destruct (Z.ltb_spec (semver.patch v) (semver.patch w)); [reflexivity|lia].
Qed.

Lemma stripPrefix_app (p s : string) : stripPrefix p (p ++ s) = Some s.
Proof.
  induction p as [|c p IH]; [reflexivity|].
  simpl. rewrite Ascii.eqb_refl. exact IH.
Qed.

Lemma TrimPrefix_app (p s : string) : strings_TrimPrefix (p ++ s) p = s.
Proof. unfold strings_TrimPrefix. rewrite stripPrefix_app. reflexivity. Qed.

Lemma parseTags_of_tags (tags : list string) (v : semver.Version) :
  In v (Fetcher.parseTags (map (String.append "refs/tags/") tags)) <->
  exists tag, In tag tags /\ semver.NewVersion tag = Some v.
Proof.
  rewrite parseTags_In. split.
  - intros (ref & Hin & Hv). apply in_map_iff in Hin.
    destruct Hin as (tag & <- & Hin). rewrite TrimPrefix_app in Hv. eauto.
  - intros (tag & Hin & Hv). exists ("refs/tags/" ++ tag). split.
    + apply in_map_iff. eauto.
    + rewrite TrimPrefix_app. exact Hv.
Qed.

(** The selection is a version parsed from one of the tags that no parsed
    version exceeds under [Compare], and nothing exactly when no tag
    parses. *)
Lemma latestOf_parseTags {sorter : sort.Sorter} (refs : list string) :
  match Fetcher.latestOf (Fetcher.parseTags refs) with
  | Some v =>
      (exists ref, In ref refs
                   /\ semver.NewVersion (strings_TrimPrefix ref "refs/tags/") = Some v)
      /\ (forall ref w, In ref refs ->
            semver.NewVersion (strings_TrimPrefix ref "refs/tags/") = Some w ->
            semver.Compare w v <= 0)
  | None => forall ref, In ref refs ->
                        semver.NewVersion (strings_TrimPrefix ref "refs/tags/") = None
  end.
Proof.
  pose proof (latestOf_spec _ (parseTags_good refs)) as S.
  destruct (Fetcher.latestOf _) as [v|].
  - destruct S as [Hin Hmax]. split.
    + apply parseTags_In. exact Hin.
    + intros ref w Href Hw. apply Hmax. apply parseTags_In. eauto.
  - intros ref Href.
    destruct (semver.NewVersion (strings_TrimPrefix ref "refs/tags/")) as [w|] eqn:E;
      [|reflexivity].
    assert (In w (Fetcher.parseTags refs)) as Hw by (apply parseTags_In; eauto).
    rewrite S in Hw. contradiction.
Qed.

Lemma selector_example {sorter : sort.Sorter} :
  option_map semver.Version_String
    (Fetcher.latestOf
       (Fetcher.parseTags ["refs/tags/v1.2.0"; "refs/tags/v1.10.0"; "refs/tags/v1.9.0"]))
  = Some "1.10.0".
Proof.
  pose proof (latestOf_parseTags
                ["refs/tags/v1.2.0"; "refs/tags/v1.10.0"; "refs/tags/v1.9.0"]) as General.
  destruct (Fetcher.latestOf _) as [v|].
  - destruct General as [(ref & Hin & Hv) Hmax].
    assert (H10 : semver.Compare (semver.mkVersion 1 10 0 "" "" "v1.10.0") v <= 0).
    { apply (Hmax "refs/tags/v1.10.0"); [right; left; reflexivity|].
      vm_compute. reflexivity. }
    destruct Hin as [<-|[<-|[<-|[]]]]; vm_compute in Hv; inversion Hv; subst v.
    + exfalso. vm_compute in H10. apply H10. reflexivity.
    + vm_compute. reflexivity.
    + exfalso. vm_compute in H10. apply H10. reflexivity.
  - specialize (General "refs/tags/v1.2.0" (or_introl eq_refl)). vm_compute in General.
    discriminate.
Qed.

(* ================================================================== *)
(** * The version bumper *)
(* ================================================================== *)

(** The version a bump starts from: the given one, or [0.0.0] as
    [semver.MustParse("v0.0.0")] returns it. *)
Lemma bumpVersion_start (version : option semver.Version) (b : string) :
  Fetcher.bumpVersion version b =
  Fetcher.bumpVersion
    (Some match version with
          | Some v => v
          | None => semver.mkVersion 0 0 0 "" "" "v0.0.0"
          end) b.
Proof. destruct version; reflexivity. Qed.

Lemma u64_succ (z : Z) : 0 <= z < maxUint64 -> u64 (z + 1) = z + 1.
Proof. intros H. apply u64_small. lia. Qed.

(** The claim of C2 fails on a version with a pre-release: the patch
    bump of 1.2.3-rc1 is 1.2.3, with the patch component unchanged. *)
Lemma patch_bump_of_prerelease_keeps_patch :
  exists v v',
    semver.NewVersion "1.2.3-rc1" = Some v
    /\ Fetcher.bumpVersion (Some v) "patch" = Some v'
    /\ semver.patch v' <> semver.patch v + 1
    /\ semver.Version_String v' = "1.2.3".
Proof.
  eexists. eexists. split; [vm_compute; reflexivity|].
  split; [vm_compute; reflexivity|].
  split; [vm_compute; discriminate|vm_compute; reflexivity].
Qed.

(** C2, amended. For every version whose patch component is below
    2^64 - 1, the patch bump keeps major and minor and clears pre-release
    and metadata; the patch component is incremented when the version has
    no pre-release (metadata or not) and kept when it has one; the patch
    bump of 1.2.3 is 1.2.4. *)
Theorem patch_bump (v : semver.Version)
    (Hpatch : 0 <= semver.patch v < maxUint64) :
  (exists v',
      Fetcher.bumpVersion (Some v) "patch" = Some v'
      /\ semver.major v' = semver.major v
      /\ semver.minor v' = semver.minor v
      /\ semver.patch v' =
         (if String.eqb (semver.pre v) EmptyString
          then semver.patch v + 1 else semver.patch v)
      /\ semver.pre v' = EmptyString
      /\ semver.metadata v' = EmptyString)
  /\ option_map semver.Version_String
       (Fetcher.bumpVersion (semver.NewVersion "1.2.3") "patch") = Some "1.2.4".
Proof.
  split; [|vm_compute; reflexivity].
  exists (semver.IncPatch v). split; [reflexivity|].
  unfold semver.IncPatch.
  destruct (String.eqb (semver.pre v) EmptyString); simpl; repeat split.
  apply u64_succ. exact Hpatch.
Qed.

Lemma patch_bump_witness :
  (exists v',
      Fetcher.bumpVersion (Some (semver.mkVersion 1 2 3 "" "build" "1.2.3+build"))
        "patch" = Some v'
      /\ semver.major v' = 1 /\ semver.minor v' = 2 /\ semver.patch v' = 3 + 1
      /\ semver.pre v' = EmptyString /\ semver.metadata v' = EmptyString)
  /\ option_map semver.Version_String
       (Fetcher.bumpVersion (semver.NewVersion "1.2.3") "patch") = Some "1.2.4".
Proof.
  apply (patch_bump (semver.mkVersion 1 2 3 "" "build" "1.2.3+build")).
  simpl. rewrite maxUint64_eq. lia.
Defined.

(** The claim of C3 fails at the top of the range of [uint64]: the major
    bump of 18446744073709551615.0.0 is 0.0.0. *)
Lemma major_bump_wraps_around :
  exists v v',
    semver.NewVersion "18446744073709551615.0.0" = Some v
    /\ Fetcher.bumpVersion (Some v) "major" = Some v'
    /\ semver.major v' <> semver.major v + 1
    /\ semver.Version_String v' = "0.0.0".
Proof.
  eexists. eexists. split; [vm_compute; reflexivity|].
  split; [vm_compute; reflexivity|].
  split; [vm_compute; discriminate|vm_compute; reflexivity].
Qed.

(** C3, amended. For every version (an absent one being 0.0.0) whose
    incremented component is below 2^64 - 1, the major bump yields
    (major + 1, 0, 0) and the minor bump (major, minor + 1, 0), both without
    pre-release and metadata; the minor bump of no version is 0.1.0, the
    major bump of 1.2.3 is 2.0.0 and the minor bump of 1.2.3-rc1 is 1.3.0. *)
Theorem major_minor_bump (version : option semver.Version) :
  let v := match version with
           | Some v => v
           | None => semver.mkVersion 0 0 0 "" "" "v0.0.0"
           end in
  (0 <= semver.major v < maxUint64 ->
   exists v',
     Fetcher.bumpVersion version "major" = Some v'
     /\ semver.major v' = semver.major v + 1
     /\ semver.minor v' = 0 /\ semver.patch v' = 0
     /\ semver.pre v' = EmptyString /\ semver.metadata v' = EmptyString)
  /\ (0 <= semver.minor v < maxUint64 ->
      exists v',
        Fetcher.bumpVersion version "minor" = Some v'
        /\ semver.major v' = semver.major v
        /\ semver.minor v' = semver.minor v + 1 /\ semver.patch v' = 0
        /\ semver.pre v' = EmptyString /\ semver.metadata v' = EmptyString)
  /\ option_map semver.Version_String (Fetcher.bumpVersion None "minor")
     = Some "0.1.0"
  /\ option_map semver.Version_String
       (Fetcher.bumpVersion (semver.NewVersion "1.2.3") "major") = Some "2.0.0"
  /\ option_map semver.Version_String
       (Fetcher.bumpVersion (semver.NewVersion "1.2.3-rc1") "minor") = Some "1.3.0".
Proof.
  intros v. split; [|split; [|split; [|split]]].
  - intros H. exists (semver.IncMajor v).
    rewrite bumpVersion_start. fold v.
    split; [reflexivity|]. split; [|simpl; auto].
    simpl. apply u64_succ. exact H.
  - intros H. exists (semver.IncMinor v).
    rewrite bumpVersion_start. fold v.
    split; [reflexivity|]. split; [reflexivity|]. split; [|simpl; auto].
    simpl. apply u64_succ. exact H.
  - vm_compute. reflexivity.
  - vm_compute. reflexivity.
  - vm_compute. reflexivity.
Qed.

Lemma major_minor_bump_witness :
  exists v',
    Fetcher.bumpVersion None "minor" = Some v'
    /\ semver.major v' = 0 /\ semver.minor v' = 0 + 1 /\ semver.patch v' = 0
    /\ semver.pre v' = EmptyString /\ semver.metadata v' = EmptyString.
Proof.
  apply (proj1 (proj2 (major_minor_bump None))).
  simpl. rewrite maxUint64_eq. lia.
Defined.

(* ================================================================== *)
(** * Traces *)
(* ================================================================== *)

Lemma bind_run {A B : Type} (m : M A) (k : A -> M B) (t t1 : trace) (a : A) :
  m t = (t1, Ret a) -> bind m k t = k a t1.
Proof. intros E. unfold bind. rewrite E. reflexivity. Qed.

Lemma bind_assoc {A B C : Type} (m : M A) (f : A -> M B) (g : B -> M C)
    (t : trace) :
  bind (bind m f) g t = bind m (fun x => bind (f x) g) t.
Proof. unfold bind. destruct (m t) as [t' [a| | |]]; reflexivity. Qed.

Lemma bind_ret {A B : Type} (a : A) (k : A -> M B) (t : trace) :
  bind (ret a) k t = k a t.
Proof. reflexivity. Qed.

Lemma bind_ask {R B : Type} (e : event) (answer : trace -> R) (k : R -> M B)
    (t : trace) :
  bind (ask e answer) k t = k (answer t) (t ++ [e])%list.
Proof. reflexivity. Qed.

Lemma bind_emit {B : Type} (e : event) (k : unit -> M B) (t : trace) :
  bind (emit e) k t = k tt (t ++ [e])%list.
Proof. reflexivity. Qed.

Lemma bind_checked {A B : Type} (a : A) (k : A -> M B) (t : trace) :
  bind (checked (inr a)) k t = k a t.
Proof. reflexivity. Qed.

Lemma createdRefs_app (t t' : trace) :
  createdRefs (t ++ t')%list = (createdRefs t ++ createdRefs t')%list.
Proof.
  induction t as [|e t IH]; [reflexivity|].
  destruct e as [[]| | | | |]; simpl; rewrite IH; reflexivity.
Qed.

Lemma sentRefs_app (t t' : trace) :
  sentRefs (t ++ t')%list = (sentRefs t ++ sentRefs t')%list.
Proof. unfold sentRefs. rewrite createdRefs_app, map_app. reflexivity. Qed.

Lemma skips_app (t t' : trace) : skips (t ++ t')%list = (skips t + skips t')%nat.
Proof. unfold skips. rewrite filter_app, length_app. reflexivity. Qed.

Lemma stdout_app (t t' : trace) : stdout (t ++ t')%list = stdout t ++ stdout t'.
Proof.
  induction t as [|e t IH]; [reflexivity|].
  destruct e; simpl; rewrite IH; try reflexivity.
  rewrite string_app_assoc. reflexivity.
Qed.

Lemma requests_app (t t' : trace) :
  requests (t ++ t')%list = (requests t ++ requests t')%list.
Proof.
  induction t as [|e t IH]; [reflexivity|].
  destruct e; simpl; rewrite IH; reflexivity.
Qed.

Lemma silent_createdRefs (es : trace) : Forall silent es -> createdRefs es = [].
Proof.
  induction 1 as [|e es He _ IH]; [reflexivity|].
  destruct e as [[]| | | | |]; simpl in *; auto; contradiction.
Qed.

Lemma silent_stdout (es : trace) : Forall silent es -> stdout es = EmptyString.
Proof.
  induction 1 as [|e es He _ IH]; [reflexivity|].
  destruct e; simpl in *; auto; contradiction.
Qed.

Lemma quiet_createdRefs {A : Type} (m : M A) (t : trace) :
  quiet m -> createdRefs (fst (m t)) = createdRefs t.
Proof.
  intros Q. destruct (Q t) as (es & -> & S).
  rewrite createdRefs_app, (silent_createdRefs es S), app_nil_r. reflexivity.
Qed.

Lemma quiet_stdout {A : Type} (m : M A) (t : trace) :
  quiet m -> stdout (fst (m t)) = stdout t.
Proof.
  intros Q. destruct (Q t) as (es & -> & S).
  rewrite stdout_app, (silent_stdout es S), string_app_nil_r. reflexivity.
Qed.

Lemma quiet_ret {A : Type} (a : A) : quiet (ret a).
Proof. intros t. exists []. simpl. rewrite app_nil_r. auto. Qed.

Lemma quiet_stop {A : Type} (o : outcome A) : quiet (stop o).
Proof. intros t. exists []. simpl. rewrite app_nil_r. auto. Qed.

Lemma quiet_emit (e : event) : silent e -> quiet (emit e).
Proof. intros S t. exists [e]. simpl. auto. Qed.

Lemma quiet_ask {R : Type} (e : event) (answer : trace -> R) :
  silent e -> quiet (ask e answer).
Proof. intros S t. exists [e]. simpl. auto. Qed.

Lemma quiet_bind {A B : Type} (m : M A) (k : A -> M B) :
  quiet m -> (forall a, quiet (k a)) -> quiet (bind m k).
Proof.
  intros Qm Qk t. unfold bind.
  destruct (Qm t) as (es & E & S).
  destruct (m t) as [t1 [a| | |]]; simpl in E; subst t1;
    try (exists es; simpl; auto; fail).
  destruct (Qk a (t ++ es)%list) as (es' & E' & S').
  exists (es ++ es')%list. rewrite E', app_assoc. split; [reflexivity|].
  apply Forall_app. auto.
Qed.

Lemma quiet_noError (err : error) : quiet (noError err).
Proof. destruct err; [apply quiet_stop|apply quiet_ret]. Qed.

Lemma quiet_checked {A : Type} (r : result A) : quiet (checked r).
Proof. destruct r; [apply quiet_stop|apply quiet_ret]. Qed.

Lemma quiet_forM {A B : Type} (xs : list A) (f : A -> M B) :
  (forall x, quiet (f x)) -> quiet (forM xs f).
Proof.
  intros Q. induction xs as [|x xs IH]; simpl.
  - apply quiet_ret.
  - apply quiet_bind; [apply Q|]. intros y.
    apply quiet_bind; [apply IH|]. intros ys. apply quiet_ret.
Qed.


(** A command line that [flag.Parse] accepts goes on to the tests of
    [parseFlags]. *)
Lemma Fetcher_parsed {B : Type} (cl : Fetcher.commandLine)
    (k : Fetcher.commandLine -> M B) :
  bind (Fetcher.flag_Parse cl) k = k cl.
Proof. reflexivity. Qed.

Lemma Creator_parsed {B : Type} (cl : Creator.commandLine)
    (k : Creator.commandLine -> M B) :
  bind (Creator.flag_Parse cl) k = k cl.
Proof. reflexivity. Qed.

(* ================================================================== *)
(** * Configuration errors of [gh-tag-fetcher] *)
(* ================================================================== *)



(* ================================================================== *)
(** * Input errors of [gh-tag-creator] *)
(* ================================================================== *)

Lemma fetchRepo_quiet (api : Creator.API) (g : Creator.globals) (line : string) :
  quiet (Creator.fetchRepo api g line).
Proof.
  unfold Creator.fetchRepo, Creator.log_Printf.
  repeat first
    [ apply quiet_bind; [|intros ?]
    | apply quiet_ret
    | apply quiet_checked
    | apply quiet_noError
    | apply quiet_ask; exact I
    | match goal with |- quiet (if ?c then _ else _) => destruct c end
    | apply quiet_emit; exact I ].
Qed.

(** A line that is not accepted ends the process at once. *)
Lemma fetchRepo_rejects (api : Creator.API) (g : Creator.globals) (line : string)
    (t : trace) :
  acceptedLine line = false ->
  exists msg, Creator.fetchRepo api g line t = (t, Fatal msg).
Proof.
  unfold acceptedLine, Creator.fetchRepo. intros H.
  unfold bind at 1.
  destruct (List.length (strings_Split line " "%char) =? 2)%nat; simpl.
  - simpl in H. rewrite H. simpl.
    unfold bind at 1. simpl. eexists. reflexivity.
  - eexists. reflexivity.
Qed.

Lemma fetchRepo_outcome (api : Creator.API) (g : Creator.globals) (line : string)
    (t : trace) :
  exists t' o,
    Creator.fetchRepo api g line t = (t', o)
    /\ (forall r, o = Ret r -> acceptedLine line = true)
    /\ (forall code, o <> Exit code)
    /\ (forall msg, o <> Panic msg).
Proof.
  destruct (acceptedLine line) eqn:A.
  - unfold Creator.fetchRepo, Creator.log_Printf.
    unfold acceptedLine in A. apply andb_true_iff in A. destruct A as [A1 A2].
    rewrite A1, A2. cbn [negb].
    unfold bind, ret, ask, emit, checked, fatal, stop.
    destruct (Creator.verbose g);
      match goal with
      | |- context [Creator.Repositories_Get ?a ?t ?o ?n] =>
          destruct (Creator.Repositories_Get a t o n)
      end;
      eexists; eexists; (split; [reflexivity|]);
      repeat split; intros; discriminate.
  - destruct (fetchRepo_rejects api g line t A) as (msg & E).
    exists t, (Fatal msg). split; [exact E|].
    repeat split; intros; discriminate.
Qed.




(* ================================================================== *)
(** * The creation of the tags *)
(* ================================================================== *)

(** One turn of the loop of the interactive [createTags]: once the latest
    commit is fetched and the confirmation prompt is answered, the request
    that creates the ref is sent whatever the answer is; a negative answer
    only adds the "Skip" warning before it. *)
Lemma createTag_sends_after_any_answer (api : Interactive.API)
    (r : Interactive.repo) (t : trace) (commit : RepositoryCommit)
    (answer : bool) :
  let name := Name (Interactive.repo_repo r) in
  let branch := DefaultBranch (Interactive.repo_repo r) in
  let question :=
    "Confirm you want to create tag v"
      ++ semver.Version_String (Interactive.newTag r)
      ++ " on branch " ++ branch ++ " (SHA: " ++ SHA commit ++ ")" in
  let t1 := (t ++ [Terminal nl])%list in
  let t2 := (t1 ++ [Request (GetCommit Interactive.org name branch)])%list in
  Interactive.Repositories_GetCommit api t1 Interactive.org name branch = inr commit ->
  Interactive.InteractiveConfirm_Show api t2 question = inr answer ->
  exists rest,
    fst (Interactive.createTag api r t) =
    (t2 ++ [Prompt question]
        ++ (if answer then [] else [Terminal ("Skip" ++ nl)])
        ++ [Request (CreateRef Interactive.org name
                       (mkReference
                          ("ref/tags/v" ++ semver.Version_String (Interactive.newTag r))
                          (SHA commit)))]
        ++ rest)%list.
Proof.
  intros name branch question t1 t2 Hcommit Hanswer.
  unfold Interactive.createTag.
  unfold bind, emit, ask, checked, ret, fatal, stop.
  fold name branch t1. rewrite Hcommit. fold question t2. rewrite Hanswer.
  destruct answer; cbn [negb];
    match goal with
    | |- context [Interactive.Git_CreateRef ?a ?t ?o ?n ?ref] =>
        destruct (Interactive.Git_CreateRef a t o n ref)
    end; cbn [fst]; eexists; rewrite <- ?app_assoc; cbn [app];
    try reflexivity.
  all: rewrite <- ?app_assoc; cbn [app].
  all: try (instantiate (1 := []); reflexivity).
Qed.

(** One turn of the loop when no call fails. *)
Lemma createTag_turn (api : Interactive.API) (r : Interactive.repo) (t : trace) :
  (forall t' owner repo sha, exists commit,
      Interactive.Repositories_GetCommit api t' owner repo sha = inr commit) ->
  (forall t' question, exists answer,
      Interactive.InteractiveConfirm_Show api t' question = inr answer) ->
  (forall t' owner repo ref, exists created,
      Interactive.Git_CreateRef api t' owner repo ref = inr created) ->
  exists t',
    Interactive.createTag api r t = (t', Ret tt)
    /\ sentRefs t' = (sentRefs t ++ [askedRef r])%list
    /\ ((forall t'' question,
            Interactive.InteractiveConfirm_Show api t'' question = inr false) ->
        skips t' = S (skips t)).
Proof.
  intros HC HA HR. unfold Interactive.createTag.
  rewrite bind_emit, bind_ask.
  match goal with
  | |- context [Interactive.Repositories_GetCommit api ?t0 ?o ?n ?b] =>
      destruct (HC t0 o n b) as [commit ->]
  end.
  rewrite bind_checked, bind_ask.
  match goal with
  | |- context [Interactive.InteractiveConfirm_Show api ?t0 ?q] =>
      pose proof (fun N : forall t'' question,
                    Interactive.InteractiveConfirm_Show api t'' question = inr false
                  => N t0 q) as No;
      destruct (HA t0 q) as [answer Ea]; rewrite Ea in *
  end.
  rewrite bind_checked.
  assert (Skip : forall (k : M unit) t0,
             ((if negb answer then emit (Terminal ("Skip" ++ nl)) else ret tt) ;;; k) t0
             = k (t0 ++ (if answer then [] else [Terminal ("Skip" ++ nl)]))%list).
  { intros k t0. destruct answer; simpl; unfold bind, emit, ret; simpl;
      rewrite ?app_nil_r; reflexivity. }
  rewrite Skip, bind_ask.
  match goal with
  | |- context [Interactive.Git_CreateRef api ?t0 ?o ?n ?ref] =>
      destruct (HR t0 o n ref) as [created ->]
  end.
  rewrite bind_checked. unfold emit. eexists. split; [reflexivity|]. split.
  - rewrite !sentRefs_app. unfold sentRefs at 2 3 4 5 6, askedRef.
    destruct answer; simpl; rewrite ?app_nil_r; reflexivity.
  - intros N. specialize (No N). inversion No; subst answer.
    rewrite !skips_app. unfold skips at 2 3 4 5 6 7. simpl. lia.
Qed.

(** C10. In the interactive variant, when no call fails, [createTags] sends
    the request that creates the ref for every repository of its list, in
    order, whatever the answers to the confirmation prompts are; when every
    answer is no it does so all the same, having printed one "Skip" warning
    per repository. *)
Theorem confirmation_does_not_gate_creation (api : Interactive.API)
    (repos : list Interactive.repo) (t : trace) :
  (forall t' owner repo sha, exists commit,
      Interactive.Repositories_GetCommit api t' owner repo sha = inr commit) ->
  (forall t' question, exists answer,
      Interactive.InteractiveConfirm_Show api t' question = inr answer) ->
  (forall t' owner repo ref, exists created,
      Interactive.Git_CreateRef api t' owner repo ref = inr created) ->
  snd (Interactive.createTags api repos t) = Ret tt
  /\ sentRefs (fst (Interactive.createTags api repos t))
     = (sentRefs t ++ map askedRef repos)%list
  /\ ((forall t' question,
          Interactive.InteractiveConfirm_Show api t' question = inr false) ->
      skips (fst (Interactive.createTags api repos t))
      = (skips t + List.length repos)%nat).
Proof.
  intros HC HA HR.
  assert (G : forall t0, exists t' ys,
             forM repos (Interactive.createTag api) t0 = (t', Ret ys)
             /\ sentRefs t' = (sentRefs t0 ++ map askedRef repos)%list
             /\ ((forall t'' question,
                     Interactive.InteractiveConfirm_Show api t'' question = inr false) ->
                 skips t' = (skips t0 + List.length repos)%nat)).
  { induction repos as [|r repos IH]; intros t0.
    - exists t0, []. simpl. rewrite app_nil_r. split; [reflexivity|].
      split; [reflexivity|]. intros _. lia.
    - destruct (createTag_turn api r t0 HC HA HR) as (t1 & E & Hs & Hk).
      destruct (IH t1) as (t2 & ys & E' & Hs' & Hk').
      exists t2, (tt :: ys). simpl forM.
      rewrite (bind_run _ _ _ _ _ E), (bind_run _ _ _ _ _ E').
      split; [reflexivity|]. split.
      + rewrite Hs', Hs, <- app_assoc. reflexivity.
      + intros N. rewrite (Hk' N), (Hk N). simpl. lia. }
  destruct (G t) as (t' & ys & E & Hs & Hk).
  unfold Interactive.createTags. rewrite (bind_run _ _ _ _ _ E). simpl. auto.
Qed.

Lemma confirmation_does_not_gate_creation_witness :
  let api := Interactive.mkAPI
               (fun _ _ _ _ => inr (mkCommit "0123abc"))
               (fun _ _ _ ref => inr ref)
               (fun _ _ => inr false) in
  let repos :=
    [Interactive.mkRepo (mkRepository "conduit" "conduitio/conduit" "conduitio" "main")
       None (semver.mkVersion 0 1 0 "" "" "v0.1.0");
     Interactive.mkRepo (mkRepository "builder" "conduitio/builder" "conduitio" "main")
       None (semver.mkVersion 1 3 0 "" "" "v1.3.0")] in
  snd (Interactive.createTags api repos []) = Ret tt
  /\ sentRefs (fst (Interactive.createTags api repos []))
     = (sentRefs [] ++ map askedRef repos)%list
  /\ ((forall t' question,
          Interactive.InteractiveConfirm_Show api t' question = inr false) ->
      skips (fst (Interactive.createTags api repos []))
      = (skips [] + List.length repos)%nat).
Proof.
  intros api repos.
  apply (confirmation_does_not_gate_creation api repos []); intros; eexists; reflexivity.
Defined.

(** The tag creator of the command-line tool names the ref
    [refs/tags/<tag>] and points it at the commit fetched for the default
    branch. *)
Lemma creator_creates_the_ref (api : Creator.API)
    (Reference_String : Reference -> string) (g : Creator.globals)
    (r : Creator.repo) (t : trace) :
  let owner := OwnerLogin (Creator.repo_repo r) in
  let name := Name (Creator.repo_repo r) in
  match Creator.createTag api Reference_String g r t with
  | (t', Ret _) =>
      exists commit,
        Creator.Repositories_GetCommit api t owner name
          (DefaultBranch (Creator.repo_repo r)) = inr commit
        /\ createdRefs t' =
           (createdRefs t
              ++ [(owner, name, mkReference ("refs/tags/" ++ Creator.tag r) (SHA commit))])%list
  | (t', _) => True
  end.
Proof.
  intros owner name. unfold Creator.createTag, Creator.log_Printf.
  unfold bind, emit, ask, checked, ret, fatal, stop.
  fold owner name.
  destruct (Creator.Repositories_GetCommit api t owner name
              (DefaultBranch (Creator.repo_repo r))) as [err|commit]; [exact I|].
  destruct (Creator.verbose g);
    match goal with
    | |- context [Creator.Git_CreateRef ?a ?t ?o ?n ?ref] =>
        destruct (Creator.Git_CreateRef a t o n ref)
    end; try exact I;
    exists commit; (split; [reflexivity|]);
    rewrite !createdRefs_app; simpl; rewrite ?app_nil_r; reflexivity.
Qed.

(** C6 at a failing input. The interactive variant, run on one selected
    repository with new tag v0.1.0 and an API that accepts every request,
    asks for the ref [ref/tags/v0.1.0], which is not [refs/tags/v0.1.0]; the
    command-line tool, given the same tag, asks for [refs/tags/v0.1.0]. Both
    point the ref at the commit returned for the default branch. *)
Theorem interactive_ref_name_is_not_refs_tags :
  let commit := mkCommit "0123abc" in
  let repository := mkRepository "conduit" "conduitio/conduit" "conduitio" "main" in
  let interactive :=
    Interactive.createTags
      (Interactive.mkAPI (fun _ _ _ _ => inr commit) (fun _ _ _ ref => inr ref)
                         (fun _ _ => inr true))
      [Interactive.mkRepo repository None (semver.mkVersion 0 1 0 "" "" "v0.1.0")] [] in
  let creator :=
    Creator.createTags
      (Creator.mkAPI (fun _ _ _ => inr repository) (fun _ _ _ _ => inr commit)
                     (fun _ _ _ ref => inr ref) (fun _ => inr "y"%char))
      Ref (Creator.mkGlobals false true "secret")
      [Creator.mkRepo repository "v0.1.0"] [] in
  createdRefs (fst interactive)
  = [("conduitio", "conduit", mkReference "ref/tags/v0.1.0" "0123abc")]
  /\ createdRefs (fst creator)
     = [("conduitio", "conduit", mkReference "refs/tags/v0.1.0" "0123abc")]
  /\ "ref/tags/v0.1.0" <> "refs/tags/v0.1.0".
Proof.
  repeat split; try (vm_compute; reflexivity). discriminate.
Qed.

(* ================================================================== *)
(** * Runs of [gh-tag-fetcher] *)
(* ================================================================== *)

Lemma bind_Ret_inv {A B : Type} (m : M A) (k : A -> M B) (t t' : trace) (b : B) :
  bind m k t = (t', Ret b) ->
  exists t1 a, m t = (t1, Ret a) /\ k a t1 = (t', Ret b).
Proof.
  unfold bind. destruct (m t) as [t1 [a| | |]]; try discriminate.
  intros H. exists t1, a. auto.
Qed.

Lemma forM_Ret_inv {A B : Type} (f : A -> M B) (xs : list A) :
  forall t t' ys, forM xs f t = (t', Ret ys) ->
  Forall2 (fun x y => exists t1 t2, f x t1 = (t2, Ret y)) xs ys.
Proof.
  induction xs as [|x xs IH]; intros t t' ys H; simpl in H.
  - inversion H. constructor.
  - apply bind_Ret_inv in H. destruct H as (t1 & y & Hy & H).
    apply bind_Ret_inv in H. destruct H as (t2 & ys' & Hys & H).
    inversion H; subst. constructor; [eauto|]. eapply IH; eauto.
Qed.



(** [fetchLatestTag] returns, whatever the tags are, once the API has
    answered. *)
Lemma fetchLatestTag_run {sorter : sort.Sorter} (api : Fetcher.API)
    (g : Fetcher.globals) (org name : string) (refs : list Reference) (t : trace) :
  let t1 := fst (Fetcher.log_Println g
                   ("Fetching latest tag for " ++ org ++ "/" ++ name) t) in
  Fetcher.Git_ListMatchingRefs api t1 org name "tags/" = inr refs ->
  Fetcher.fetchLatestTag api g org name t =
  ((t1 ++ [Request (ListMatchingRefs org name "tags/")])%list,
   if forallb hasRef refs
   then Ret (Fetcher.latestOf (Fetcher.parseTags (map Ref refs)))
   else Panic nilDereference).
Proof.
  intros t1 H. subst t1. unfold Fetcher.fetchLatestTag, Fetcher.log_Println in *.
  unfold bind, ask, emit, ret, checked, stop in *.
  destruct (Fetcher.verbose g); simpl in *; rewrite H; cbn;
    destruct (forallb hasRef refs); reflexivity.
Qed.

Lemma bumpVersion_clears (latest : option semver.Version) (b : string)
    (new : semver.Version) :
  Fetcher.bumpVersion latest b = Some new ->
  semver.pre new = EmptyString /\ semver.metadata new = EmptyString.
Proof.
  rewrite bumpVersion_start. unfold Fetcher.bumpVersion.
  destruct (String.eqb b "major"); [intros H; inversion H; split; reflexivity|].
  destruct (String.eqb b "minor"); [intros H; inversion H; split; reflexivity|].
  destruct (String.eqb b "patch"); [|discriminate].
  intros H. inversion H. unfold semver.IncPatch.
  destruct (negb _); split; reflexivity.
Qed.

Lemma versionToString_segments (v : semver.Version) :
  semver.pre v = EmptyString -> semver.metadata v = EmptyString ->
  Fetcher.versionToString (Some v) =
  "v" ++ format_uint (semver.major v) ++ "." ++ format_uint (semver.minor v)
      ++ "." ++ format_uint (semver.patch v).
Proof.
  intros Hp Hm. unfold Fetcher.versionToString, semver.Version_String.
  rewrite Hp, Hm. simpl. rewrite !string_app_nil_r. reflexivity.
Qed.

Lemma fetchLatestTag_quiet {sorter : sort.Sorter} (api : Fetcher.API)
    (g : Fetcher.globals) (org name : string) :
  quiet (Fetcher.fetchLatestTag api g org name).
Proof.
  unfold Fetcher.fetchLatestTag, Fetcher.log_Println.
  repeat first
    [ apply quiet_bind; [|intros ?]
    | apply quiet_ret
    | apply quiet_checked
    | apply quiet_stop
    | apply quiet_ask; exact I
    | match goal with |- quiet (if ?c then _ else _) => destruct c end
    | apply quiet_emit; exact I ].
Qed.

Lemma fetchRepos_quiet {sorter : sort.Sorter} (api : Fetcher.API)
    (g : Fetcher.globals) (org : string) :
  quiet (Fetcher.fetchRepos api g org).
Proof.
  unfold Fetcher.fetchRepos, Fetcher.log_Println.
  apply quiet_bind; [destruct (Fetcher.verbose g);
                     [apply quiet_emit; exact I|apply quiet_ret]|intros _].
  apply quiet_bind; [apply quiet_ask; exact I|intros r].
  apply quiet_bind; [apply quiet_checked|intros ghRepos].
  destruct ghRepos as [|gh ghRepos]; [apply quiet_ret|].
  apply quiet_bind.
  - apply quiet_forM. intros ghr.
    apply quiet_bind; [apply fetchLatestTag_quiet|intros latest].
    destruct (Fetcher.bumpVersion latest (Fetcher.bump g));
      [apply quiet_ret|apply quiet_stop].
  - intros repos.
    apply quiet_bind; [|intros _; apply quiet_ret].
    destruct (Fetcher.verbose g); [apply quiet_emit; exact I|apply quiet_ret].
Qed.

(** The repositories [fetchRepos] returns are those the API listed, in
    order, each with a new tag free of pre-release and metadata. *)
Lemma fetchRepos_Ret {sorter : sort.Sorter} (api : Fetcher.API)
    (g : Fetcher.globals) (org : string) (t t' : trace) (repos : list Fetcher.repo) :
  Fetcher.fetchRepos api g org t = (t', Ret repos) ->
  (exists t0, Fetcher.Repositories_ListByOrg api t0 org
              = inr (map Fetcher.repo_repo repos))
  /\ Forall (fun r => semver.pre (Fetcher.newTag r) = EmptyString
                      /\ semver.metadata (Fetcher.newTag r) = EmptyString) repos.
Proof.
  unfold Fetcher.fetchRepos. intros H.
  apply bind_Ret_inv in H. destruct H as (t1 & [] & _ & H).
  apply bind_Ret_inv in H. destruct H as (t2 & r & Hask & H).
  unfold ask in Hask. inversion Hask; subst t2 r; clear Hask.
  apply bind_Ret_inv in H. destruct H as (t3 & ghRepos & Hc & H).
  destruct (Fetcher.Repositories_ListByOrg api t1 org) as [err|l] eqn:E;
    [discriminate|].
  unfold checked, ret in Hc. inversion Hc; subst t3 l; clear Hc.
  destruct ghRepos as [|gh ghRepos].
  - inversion H; subst. split; [exists t1; exact E|constructor].
  - apply bind_Ret_inv in H. destruct H as (t4 & rs & Hf & H).
    apply bind_Ret_inv in H. destruct H as (t5 & [] & _ & H).
    inversion H; subst rs t5; clear H.
    apply forM_Ret_inv in Hf.
    assert (G : forall xs ys,
               Forall2 (fun x y => exists t1 t2,
                  (latest <- Fetcher.fetchLatestTag api g org (Name x) ;;
                   match Fetcher.bumpVersion latest (Fetcher.bump g) with
                   | Some new => ret (Fetcher.mkRepo x latest new)
                   | None => stop (Panic "invalid bump")
                   end) t1 = (t2, Ret y)) xs ys ->
               map Fetcher.repo_repo ys = xs
               /\ Forall (fun r => semver.pre (Fetcher.newTag r) = EmptyString
                            /\ semver.metadata (Fetcher.newTag r) = EmptyString) ys).
    { clear. induction 1 as [|x y xs ys Hxy _ IH]; [split; [reflexivity|constructor]|].
      destruct IH as [IH1 IH2]. destruct Hxy as (ta & tb & Hxy).
      apply bind_Ret_inv in Hxy. destruct Hxy as (tc & latest & _ & Hxy).
      destruct (Fetcher.bumpVersion latest (Fetcher.bump g)) as [new|] eqn:B;
        [|discriminate].
      inversion Hxy; subst y. simpl. split; [rewrite IH1; reflexivity|].
      constructor; [|exact IH2]. simpl. eapply bumpVersion_clears; eauto. }
    apply G in Hf.
    destruct Hf as [G1 G2]. split; [exists t1; rewrite G1; exact E|exact G2].
Qed.

Lemma reposToStdOutput_lines (repos : list Fetcher.repo) :
  Forall (fun r => semver.pre (Fetcher.newTag r) = EmptyString
                   /\ semver.metadata (Fetcher.newTag r) = EmptyString) repos ->
  Fetcher.reposToStdOutput repos =
  map outputLine
      (map (fun r => (Fetcher.repo_repo r,
                      (semver.major (Fetcher.newTag r),
                       (semver.minor (Fetcher.newTag r)),
                       (semver.patch (Fetcher.newTag r))))) repos).
Proof.
  induction 1 as [|r repos [Hp Hm] _ IH]; [reflexivity|].
  unfold Fetcher.reposToStdOutput in *. cbn [map]. rewrite <- IH. f_equal.
  rewrite (versionToString_segments _ Hp Hm). reflexivity.
Qed.

Lemma parseFlags_Ret (cl : Fetcher.commandLine) (getenv : string -> string)
    (t t' : trace) (g : Fetcher.globals) :
  Fetcher.parseFlags cl getenv t = (t', Ret g) ->
  t' = t /\ Fetcher.org g = nth 0 (Fetcher.flag_args cl) EmptyString
  /\ Fetcher.bump g = Fetcher.flag_bump cl.
Proof.
  unfold Fetcher.parseFlags. rewrite Fetcher_parsed. cbv beta.
  unfold bind, noError, fatal, stop, ret.
  destruct (List.length (Fetcher.flag_args cl) =? 0)%nat; [discriminate|].
  destruct (1 <? List.length (Fetcher.flag_args cl))%nat; [discriminate|].
  destruct (String.eqb (getenv Fetcher.EnvGithubToken) EmptyString); [discriminate|].
  destruct (_ || _); [|discriminate].
  intros H. inversion H. auto.
Qed.

(** The standard output of a run of [gh-tag-fetcher] that returns. *)
Lemma fetchLatestTag_Ret {sorter : sort.Sorter} (api : Fetcher.API)
    (g : Fetcher.globals) (org name : string) (t t' : trace)
    (latest : option semver.Version) :
  Fetcher.fetchLatestTag api g org name t = (t', Ret latest) ->
  exists t1 refs,
    Fetcher.Git_ListMatchingRefs api t1 org name "tags/" = inr refs
    /\ forallb hasRef refs = true
    /\ latest = Fetcher.latestOf (Fetcher.parseTags (map Ref refs)).
Proof.
  unfold Fetcher.fetchLatestTag. intros H.
  apply bind_Ret_inv in H. destruct H as (t1 & [] & _ & H).
  rewrite bind_ask in H. unfold bind, checked, fatal, stop, ret in H.
  destruct (Fetcher.Git_ListMatchingRefs api t1 org name "tags/") as [e|refs] eqn:E;
    [discriminate|].
  destruct (forallb hasRef refs) eqn:F; inversion H.
  exists t1, refs. auto.
Qed.

(** Each repository that [fetchRepos] returns carries the bump of the
    selection over the tags the API listed for it. *)
Lemma fetchRepos_proposed {sorter : sort.Sorter} (api : Fetcher.API)
    (g : Fetcher.globals) (org : string) (t t' : trace) (repos : list Fetcher.repo) :
  Fetcher.fetchRepos api g org t = (t', Ret repos) ->
  Forall (fun r => exists t1 refs,
            Fetcher.Git_ListMatchingRefs api t1 org (Name (Fetcher.repo_repo r)) "tags/"
            = inr refs
            /\ Fetcher.bumpVersion
                 (Fetcher.latestOf (Fetcher.parseTags (map Ref refs))) (Fetcher.bump g)
               = Some (Fetcher.newTag r)) repos.
Proof.
  unfold Fetcher.fetchRepos. intros H.
  apply bind_Ret_inv in H. destruct H as (t1 & [] & _ & H).
  apply bind_Ret_inv in H. destruct H as (t2 & r & Hask & H).
  unfold ask in Hask. inversion Hask; subst t2 r; clear Hask.
  apply bind_Ret_inv in H. destruct H as (t3 & ghRepos & Hc & H).
  destruct ghRepos as [|gh ghRepos]; [inversion H; constructor|].
  apply bind_Ret_inv in H. destruct H as (t4 & rs & Hf & H).
  apply bind_Ret_inv in H. destruct H as (t5 & [] & _ & H).
  inversion H; subst rs t5; clear H.
  apply forM_Ret_inv in Hf. revert Hf. generalize (gh :: ghRepos). clear.
  intros xs Hf. induction Hf as [|x y xs ys (ta & tb & Hxy) _ IH]; constructor; auto.
  apply bind_Ret_inv in Hxy. destruct Hxy as (tc & latest & Hl & Hxy).
  apply fetchLatestTag_Ret in Hl. destruct Hl as (t1 & refs & E & _ & ->).
  destruct (Fetcher.bumpVersion _ (Fetcher.bump g)) as [new|] eqn:B; [|discriminate].
  inversion Hxy; subst y. simpl. exists t1, refs. auto.
Qed.

Lemma Join_lines (l : list string) :
  l <> [] -> strings_Join l nl ++ nl = lines l.
Proof.
  induction l as [|x [|y l] IH]; intros H; [contradiction| |].
  - cbn [strings_Join lines]. rewrite (string_app_nil_r nl). reflexivity.
  - change (strings_Join (x :: y :: l) nl) with (x ++ nl ++ strings_Join (y :: l) nl).
    rewrite !string_app_assoc, IH; [reflexivity|discriminate].
Qed.

Lemma main_output {sorter : sort.Sorter} (api : Fetcher.API)
    (cl : Fetcher.commandLine) (getenv : string -> string) (t t' : trace) :
  Fetcher.main api cl getenv t = (t', Ret tt) ->
  exists t0 rows,
    Fetcher.Repositories_ListByOrg api t0 (nth 0 (Fetcher.flag_args cl) EmptyString)
    = inr (map fst rows)
    /\ Forall (fun '(r, (x, y, z)) =>
                exists t1 refs new,
                  Fetcher.Git_ListMatchingRefs api t1
                    (nth 0 (Fetcher.flag_args cl) EmptyString) (Name r) "tags/"
                  = inr refs
                  /\ Fetcher.bumpVersion
                       (Fetcher.latestOf (Fetcher.parseTags (map Ref refs)))
                       (Fetcher.flag_bump cl) = Some new
                  /\ (semver.major new, semver.minor new, semver.patch new) = (x, y, z))
              rows
    /\ stdout t' = stdout t ++ match rows with
                               | [] => nl
                               | _ :: _ => lines (map outputLine rows)
                               end.
Proof.
  unfold Fetcher.main. intros H.
  apply bind_Ret_inv in H. destruct H as (t1 & g & Hg & H).
  apply parseFlags_Ret in Hg. destruct Hg as (-> & Horg & Hbump).
  apply bind_Ret_inv in H. destruct H as (t2 & repos & Hr & H).
  pose proof (quiet_stdout _ t (fetchRepos_quiet api g (Fetcher.org g))) as Hs.
  rewrite Hr in Hs. simpl in Hs.
  pose proof (fetchRepos_proposed api g _ _ _ _ Hr) as Hp.
  apply fetchRepos_Ret in Hr. destruct Hr as [(t0 & Hl) Hc].
  unfold Fetcher.printRepos in H.
  apply bind_Ret_inv in H. destruct H as (t3 & [] & Hlog & H).
  assert (stdout t3 = stdout t2) as Hs3.
  { unfold Fetcher.log_Println in Hlog.
    destruct (Fetcher.verbose g); inversion Hlog; subst; [|reflexivity].
    rewrite stdout_app. simpl. apply string_app_nil_r. }
  unfold emit in H. inversion H; subst t'; clear H.
  exists t0, (map (fun r => (Fetcher.repo_repo r,
                             (semver.major (Fetcher.newTag r),
                              (semver.minor (Fetcher.newTag r)),
                              (semver.patch (Fetcher.newTag r))))) repos).
  split; [|split].
  - rewrite map_map. simpl. rewrite <- Horg. exact Hl.
  - rewrite Forall_map. rewrite <- Horg, <- Hbump.
    eapply Forall_impl; [|exact Hp].
    intros r (ta & refs & E & B). exists ta, refs, (Fetcher.newTag r). auto.
  - rewrite stdout_app, Hs3, Hs. simpl stdout. rewrite string_app_nil_r.
    rewrite (reposToStdOutput_lines repos Hc). f_equal.
    destruct repos as [|r repos]; [reflexivity|].
    apply Join_lines. discriminate.
Qed.

(** An element that strictly exceeds all the others is the selection. *)
Lemma latestOf_greatest {sorter : sort.Sorter} (l : list semver.Version)
    (m : semver.Version) :
  Forall goodVersion l -> In m l ->
  (forall w, In w l -> w = m \/ 0 < semver.Compare m w) ->
  Fetcher.latestOf l = Some m.
Proof.
  intros G Hm Hgt. pose proof (latestOf_spec l G) as S.
  destruct (Fetcher.latestOf l) as [v|]; [|subst l; contradiction].
  destruct S as [Hv Hmax]. destruct (Hgt v Hv) as [->|Hlt]; [reflexivity|].
  specialize (Hmax m Hm). lia.
Qed.

(* ================================================================== *)
(** * [Compare] and the precedence of the specification *)
(* ================================================================== *)

Lemma threeWay_compareSegment (x y : Z) : semver.compareSegment x y = threeWay x y.
Proof. reflexivity. Qed.

(** On an identifier without a leading zero whose number, if it is one, is
    in range, [ParseUint] succeeds exactly on the strings of digits. *)
Lemma ParseUint_small (s : string) :
  s <> EmptyString ->
  (all_digits s = true -> digits_value s 0 <= maxUint64) ->
  strconv_ParseUint s = if all_digits s then Some (digits_value s 0) else None.
Proof.
  intros Hs Hsmall. destruct (all_digits s) eqn:D.
  - apply ParseUint_complete; auto.
  - destruct (strconv_ParseUint s) as [n|] eqn:E; [|reflexivity].
    apply ParseUint_spec in E. destruct E as (_ & D' & _). congruence.
Qed.

Lemma comparePrePart_precedence (x y : string) :
  x <> EmptyString -> y <> EmptyString -> goodPart x -> goodPart y ->
  (all_digits x = true -> digits_value x 0 <= maxUint64) ->
  (all_digits y = true -> digits_value y 0 <= maxUint64) ->
  semver.comparePrePart x y = identifierPrecedence x y.
Proof.
  intros Hx Hy Gx Gy Sx Sy. unfold semver.comparePrePart, identifierPrecedence.
  pose proof (ParseUint_small x Hx Sx) as Px.
  pose proof (ParseUint_small y Hy Sy) as Py.
  destruct (String.eqb_spec x y) as [->|Hxy].
  - destruct (all_digits y).
    + unfold threeWay. rewrite Z.ltb_irrefl. reflexivity.
    + unfold compareStrings. rewrite String.eqb_refl. reflexivity.
  - apply String.eqb_neq in Hx, Hy. rewrite Hx, Hy.
    apply String.eqb_neq in Hx, Hy.
    rewrite Px, Py.
    destruct (all_digits x) eqn:Dx, (all_digits y) eqn:Dy; try reflexivity.
    + assert (digits_value x 0 <> digits_value y 0) as Hne.
      { intros E. apply Hxy.
        apply canonical_numeral_unique; auto;
          [apply (Gx _ Px)|apply (Gy _ Py)]. }
      unfold threeWay.
      destruct (Z.ltb_spec (digits_value y 0) (digits_value x 0)),
               (Z.ltb_spec (digits_value x 0) (digits_value y 0));
        try reflexivity; lia.
    + unfold compareStrings. apply String.eqb_neq in Hxy. rewrite Hxy. reflexivity.
Qed.

Lemma comparePrerelease_loop_shift (x y : string) (xs ys : list string) (n : nat) :
  forall i,
    semver.comparePrerelease_loop (x :: xs) (y :: ys) (S i) n
    = semver.comparePrerelease_loop xs ys i n.
Proof.
  induction n as [|n IH]; intros i; [reflexivity|].
  cbn [semver.comparePrerelease_loop nth]. rewrite IH. reflexivity.
Qed.

Lemma comparePrerelease_loop_precedence (xs : list string) :
  forall ys, Forall plainPart xs -> Forall plainPart ys ->
  semver.comparePrerelease_loop xs ys 0 (Nat.max (List.length xs) (List.length ys))
  = identifiersPrecedence xs ys.
Proof.
  induction xs as [|x xs IH]; intros [|y ys] Hxs Hys; [reflexivity| | |].
  - inversion Hys as [|? ? (Hy & _) _]; subst.
    cbn [List.length Nat.max semver.comparePrerelease_loop nth identifiersPrecedence].
    unfold semver.comparePrePart.
    apply String.eqb_neq in Hy. rewrite (String.eqb_sym EmptyString y), Hy.
    reflexivity.
  - inversion Hxs as [|? ? (Hx & _) _]; subst.
    cbn [List.length Nat.max semver.comparePrerelease_loop nth identifiersPrecedence].
    unfold semver.comparePrePart.
    apply String.eqb_neq in Hx. rewrite Hx. reflexivity.
  - inversion Hxs as [|? ? (Hx & Gx & Sx) Hxs']; subst.
    inversion Hys as [|? ? (Hy & Gy & Sy) Hys']; subst.
    cbn [List.length Nat.max semver.comparePrerelease_loop nth identifiersPrecedence].
    rewrite (comparePrePart_precedence x y Hx Hy Gx Gy Sx Sy).
    rewrite comparePrerelease_loop_shift, (IH ys Hxs' Hys'). reflexivity.
Qed.

Lemma wellFormed_plainParts (v : semver.Version) :
  wellFormed v -> smallNumerals v -> semver.pre v <> EmptyString ->
  Forall plainPart (strings_Split (semver.pre v) "."%char).
Proof.
  intros W S Hp. destruct (wf_pre v W) as [E|[I V]]; [contradiction|].
  apply validatePrerelease_goodParts in V. unfold semver.isIdents in I.
  rewrite forallb_forall in I. unfold smallNumerals in S.
  rewrite Forall_forall in *. intros part Hin. split; [|split; auto].
  specialize (I part Hin). apply andb_true_iff in I. destruct I as [I _].
  intros ->. discriminate.
Qed.

(** On the versions [NewVersion] returns, [Compare] is the precedence of
    the specification as long as the numeric identifiers of the
    pre-releases are in the range of [uint64]. *)
Lemma Compare_precedence (v w : semver.Version) :
  wellFormed v -> wellFormed w -> smallNumerals v -> smallNumerals w ->
  semver.Compare v w = precedence v w.
Proof.
  intros Wv Ww Sv Sw. unfold semver.Compare, precedence.
  rewrite !threeWay_compareSegment.
  assert (T : forall x y, (threeWay x y =? 0) = (x =? y)).
  { intros x y. unfold threeWay.
    destruct (Z.ltb_spec x y), (Z.ltb_spec y x), (Z.eqb_spec x y);
      try reflexivity; lia. }
  rewrite !T.
  destruct (semver.major v =? semver.major w); [|reflexivity].
  destruct (semver.minor v =? semver.minor w); [|reflexivity].
  destruct (semver.patch v =? semver.patch w); [|reflexivity].
  cbn [negb].
  destruct (String.eqb_spec (semver.pre v) EmptyString) as [Ev|Ev],
           (String.eqb_spec (semver.pre w) EmptyString) as [Ew|Ew];
    try reflexivity.
  cbn [andb].
  rewrite (comparePrerelease_bound _ _
             (Nat.max (List.length (strings_Split (semver.pre v) "."%char))
                      (List.length (strings_Split (semver.pre w) "."%char))));
    [|lia..].
  apply comparePrerelease_loop_precedence; apply wellFormed_plainParts; assumption.
Qed.

(** Numeric pre-release identifiers beyond 2^64 - 1 are compared as
    strings by [comparePrePart]: of the tags 1.0.0-99999999999999999999 and
    1.0.0-100000000000000000000 the second has the higher precedence, and
    the selector returns the first, whatever algorithm [sort.Sort] runs. *)
Lemma large_numerals_selection (sorter : sort.Sorter) :
  let api := Fetcher.mkAPI
               (fun _ _ => inr [])
               (fun _ _ _ _ =>
                  inr [mkReference "refs/tags/v1.0.0-99999999999999999999" "1a";
                       mkReference "refs/tags/v1.0.0-100000000000000000000" "2b"]) in
  let g := Fetcher.mkGlobals "minor" false "org" "secret" in
  exists v w,
    semver.NewVersion "v1.0.0-99999999999999999999" = Some v
    /\ semver.NewVersion "v1.0.0-100000000000000000000" = Some w
    /\ precedence v w = -1
    /\ snd (Fetcher.fetchLatestTag api g "org" "A" []) = Ret (Some v).
Proof.
  intros api g. eexists. eexists.
  split; [vm_compute; reflexivity|]. split; [vm_compute; reflexivity|].
  split; [vm_compute; reflexivity|].
  rewrite (fetchLatestTag_run api g "org" "A" _ [] eq_refl).
  cbn [snd forallb hasRef andb]. f_equal.
  apply latestOf_greatest.
  - apply parseTags_good.
  - vm_compute. left. reflexivity.
  - intros w' Hw'. vm_compute in Hw'.
    destruct Hw' as [<-|[<-|[]]]; [left; reflexivity|right; vm_compute; reflexivity].
Qed.

(** The claim of C1 fails on numeric pre-release identifiers beyond
    2^64 - 1: of the tags 1.0.0-99999999999999999999 and
    1.0.0-100000000000000000000 the second has the higher precedence, and
    the selector returns the first. *)
Lemma large_numeric_identifiers_are_misordered :
  let api := Fetcher.mkAPI
               (fun _ _ => inr [])
               (fun _ _ _ _ =>
                  inr [mkReference "refs/tags/v1.0.0-99999999999999999999" "1a";
                       mkReference "refs/tags/v1.0.0-100000000000000000000" "2b"]) in
  let g := Fetcher.mkGlobals "minor" false "org" "secret" in
  exists v w,
    semver.NewVersion "v1.0.0-99999999999999999999" = Some v
    /\ semver.NewVersion "v1.0.0-100000000000000000000" = Some w
    /\ precedence v w = -1
    /\ snd (Fetcher.fetchLatestTag (sorter := insertionSorter) api g "org" "A" [])
       = Ret (Some v).
Proof. exact (large_numerals_selection insertionSorter). Qed.

(** C1, amended. For the refs the API lists for a repository, each with its
    [ref] field, and whatever algorithm [sort.Sort] runs, [fetchLatestTag]
    returns a version parsed from one of the tags that no parsed version
    exceeds under [Compare], and nothing exactly when no tag parses;
    [Compare] is the precedence of the specification (major, minor and patch
    as numbers, pre-releases identifier by identifier) as long as the
    numeric identifiers of the pre-releases are below 2^64, so that no
    parsed version then exceeds the returned one under that precedence; for
    the tags v1.2.0, v1.10.0 and v1.9.0 the selection is 1.10.0. *)
Theorem selector_returns_maximum (sorter : sort.Sorter) (api : Fetcher.API)
    (g : Fetcher.globals) (org name : string) (refs : list Reference) (t : trace) :
  let t1 := fst (Fetcher.log_Println g
                   ("Fetching latest tag for " ++ org ++ "/" ++ name) t) in
  Fetcher.Git_ListMatchingRefs api t1 org name "tags/" = inr refs ->
  forallb hasRef refs = true ->
  exists latest,
    Fetcher.fetchLatestTag api g org name t =
      ((t1 ++ [Request (ListMatchingRefs org name "tags/")])%list, Ret latest)
    /\ match latest with
       | Some v =>
           (exists ref, In ref refs /\ semver.NewVersion (tagOf ref) = Some v)
           /\ (forall ref w, In ref refs -> semver.NewVersion (tagOf ref) = Some w ->
                 semver.Compare w v <= 0
                 /\ (smallNumerals w -> smallNumerals v ->
                     semver.Compare w v = precedence w v /\ precedence w v <= 0))
       | None => forall ref, In ref refs -> semver.NewVersion (tagOf ref) = None
       end
    /\ (map Ref refs = ["refs/tags/v1.2.0"; "refs/tags/v1.10.0"; "refs/tags/v1.9.0"] ->
        option_map semver.Version_String latest = Some "1.10.0").
Proof.
  intros t1 H HR. eexists.
  split; [rewrite (fetchLatestTag_run api g org name refs t H), HR; reflexivity|].
  split.
  - pose proof (latestOf_parseTags (map Ref refs)) as S.
    destruct (Fetcher.latestOf _) as [v|].
    + destruct S as [(ref & Hin & Hv) Hmax]. split.
      * apply in_map_iff in Hin. destruct Hin as (r & <- & Hr). exists r. auto.
      * intros r w Hr Hw.
        assert (C : semver.Compare w v <= 0).
        { apply (Hmax (Ref r)); [apply in_map; exact Hr|exact Hw]. }
        split; [exact C|]. intros Sw Sv.
        assert (E : semver.Compare w v = precedence w v).
        { apply Compare_precedence; auto;
            eapply NewVersion_wellFormed; eassumption. }
        split; [exact E|rewrite <- E; exact C].
    + intros r Hr. apply (S (Ref r)). apply in_map. exact Hr.
  - intros ->. apply selector_example.
Qed.

Lemma selector_returns_maximum_witness :
  let refs := [mkReference "refs/tags/v1.2.0" "1a"; mkReference "refs/tags/v1.10.0" "2b";
               mkReference "refs/tags/v1.9.0" "3c"] in
  let api := Fetcher.mkAPI (fun _ _ => inr []) (fun _ _ _ _ => inr refs) in
  let g := Fetcher.mkGlobals "minor" false "org" "secret" in
  exists latest,
    Fetcher.fetchLatestTag (sorter := insertionSorter) api g "org" "A" [] =
      ([Request (ListMatchingRefs "org" "A" "tags/")], Ret latest)
    /\ match latest with
       | Some v =>
           (exists ref, In ref refs /\ semver.NewVersion (tagOf ref) = Some v)
           /\ (forall ref w, In ref refs -> semver.NewVersion (tagOf ref) = Some w ->
                 semver.Compare w v <= 0
                 /\ (smallNumerals w -> smallNumerals v ->
                     semver.Compare w v = precedence w v /\ precedence w v <= 0))
       | None => forall ref, In ref refs -> semver.NewVersion (tagOf ref) = None
       end
    /\ (map Ref refs = ["refs/tags/v1.2.0"; "refs/tags/v1.10.0"; "refs/tags/v1.9.0"] ->
        option_map semver.Version_String latest = Some "1.10.0").
Proof.
  intros refs api g.
  apply (selector_returns_maximum insertionSorter api g "org" "A" refs []);
    reflexivity.
Defined.

(* ================================================================== *)
(** * Tags that do not parse *)
(* ================================================================== *)






(** The end-to-end example of C5, for every sorter and every API that
    lists the repositories A (tags v1.0.0 and v1.1.0) and B (no tag) of the
    organization. *)
Lemma end_to_end_example {sorter : sort.Sorter} (api : Fetcher.API)
    (getenv : string -> string) (verbose : bool) (t : trace) :
  getenv Fetcher.EnvGithubToken <> EmptyString ->
  (forall t', Fetcher.Repositories_ListByOrg api t' "org"
              = inr [mkRepository "A" "org/A" "org" "main";
                     mkRepository "B" "org/B" "org" "main"]) ->
  (forall t', Fetcher.Git_ListMatchingRefs api t' "org" "A" "tags/"
              = inr [mkReference "refs/tags/v1.0.0" "1a"; mkReference "refs/tags/v1.1.0" "2b"]) ->
  (forall t', Fetcher.Git_ListMatchingRefs api t' "org" "B" "tags/" = inr []) ->
  exists t',
    Fetcher.main api (Fetcher.mkCommandLine "minor" verbose ["org"]) getenv t
    = (t', Ret tt)
    /\ stdout t' = stdout t ++ "github.com/org/A v1.2.0" ++ nl
                            ++ "github.com/org/B v0.1.0" ++ nl.
Proof.
  intros Htok HL HA HB. apply String.eqb_neq in Htok.
  assert (LA : Fetcher.latestOf
                 (Fetcher.parseTags (map Ref [mkReference "refs/tags/v1.0.0" "1a";
                                               mkReference "refs/tags/v1.1.0" "2b"]))
               = Some (semver.mkVersion 1 1 0 "" "" "v1.1.0")).
  { apply latestOf_greatest.
    - apply parseTags_good.
    - vm_compute. right. left. reflexivity.
    - intros w Hw. vm_compute in Hw. destruct Hw as [<-|[<-|[]]].
      + right. vm_compute. reflexivity.
      + left. reflexivity. }
  set (g := Fetcher.mkGlobals "minor" verbose "org" (getenv Fetcher.EnvGithubToken)).
  assert (PF : Fetcher.parseFlags (Fetcher.mkCommandLine "minor" verbose ["org"]) getenv t
               = (t, Ret g)).
  { unfold Fetcher.parseFlags. rewrite Fetcher_parsed. cbv beta.
  unfold bind, noError, ret. cbn [Fetcher.flag_args Fetcher.flag_bump
      Fetcher.flag_verbose List.length Nat.eqb Nat.ltb Nat.leb nth].
    rewrite Htok. reflexivity. }
  assert (FA : forall t0, exists t1,
               Fetcher.fetchLatestTag api g "org" "A" t0
               = (t1, Ret (Some (semver.mkVersion 1 1 0 "" "" "v1.1.0")))).
  { intros t0. eexists. rewrite (fetchLatestTag_run api g "org" "A" _ t0 (HA _)).
    rewrite LA. reflexivity. }
  assert (FB : forall t0, exists t1,
               Fetcher.fetchLatestTag api g "org" "B" t0 = (t1, Ret None)).
  { intros t0. eexists. rewrite (fetchLatestTag_run api g "org" "B" _ t0 (HB _)).
    reflexivity. }
  assert (FR : exists t1,
             Fetcher.fetchRepos api g "org" t
             = (t1, Ret [Fetcher.mkRepo (mkRepository "A" "org/A" "org" "main")
                           (Some (semver.mkVersion 1 1 0 "" "" "v1.1.0"))
                           (semver.mkVersion 1 2 0 "" "" "v1.2.0");
                         Fetcher.mkRepo (mkRepository "B" "org/B" "org" "main")
                           None (semver.mkVersion 0 1 0 "" "" "v0.1.0")])).
  { unfold Fetcher.fetchRepos.
    destruct (Fetcher.log_Println g "Fetching repositories (might take a minute)..." t)
      as [ta [[]| | |]] eqn:E0;
      try (unfold Fetcher.log_Println in E0; destruct (Fetcher.verbose g); discriminate).
    rewrite (bind_run _ _ _ _ _ E0), bind_ask, HL, bind_checked.
    cbn [forM Name].
    destruct (FA (ta ++ [Request (ListByOrg "org")])%list) as (tb & EA).
    rewrite !bind_assoc, (bind_run _ _ _ _ _ EA).
    replace (Fetcher.bumpVersion _ (Fetcher.bump g))
      with (Some (semver.mkVersion 1 2 0 "" "" "v1.2.0")) by (vm_compute; reflexivity).
    rewrite bind_ret, !bind_assoc.
    destruct (FB tb) as (tc & EB).
    rewrite (bind_run _ _ _ _ _ EB).
    replace (Fetcher.bumpVersion None (Fetcher.bump g))
      with (Some (semver.mkVersion 0 1 0 "" "" "v0.1.0")) by (vm_compute; reflexivity).
    repeat (rewrite bind_assoc || rewrite bind_ret).
    destruct (Fetcher.log_Println g EmptyString tc) as [td [[]| | |]] eqn:E1;
      try (unfold Fetcher.log_Println in E1; destruct (Fetcher.verbose g); discriminate).
    rewrite (bind_run _ _ _ _ _ E1). eexists. reflexivity. }
  destruct FR as (t1 & FR).
  pose proof (quiet_stdout _ t (fetchRepos_quiet api g "org")) as Hs.
  rewrite FR in Hs. simpl in Hs.
  unfold Fetcher.main. unfold bind at 1. rewrite PF.
  cbn [Fetcher.org g]. unfold bind at 1. rewrite FR.
  unfold Fetcher.printRepos, Fetcher.log_Println, bind, emit, ret.
  destruct (Fetcher.verbose g); eexists; (split; [reflexivity|]);
    rewrite !stdout_app, Hs; cbn [stdout]; rewrite ?string_app_nil_r;
    f_equal; vm_compute; reflexivity.
Qed.

(** The claim of C5 fails for an organization without repositories: the
    output is then not empty, as one line per repository would be, but one
    empty line. *)
Lemma no_repository_prints_an_empty_line :
  let api := Fetcher.mkAPI (fun _ _ => inr []) (fun _ _ _ _ => inr []) in
  exists t',
    Fetcher.main (sorter := insertionSorter) api
      (Fetcher.mkCommandLine "minor" false ["org"]) (fun _ => "secret") []
    = (t', Ret tt)
    /\ stdout t' = nl.
Proof. intros api. eexists. split; reflexivity. Qed.

(** C5, amended. Every run of [gh-tag-fetcher] that returns has written to
    standard output one line [github.com/<full name> vX.Y.Z] per repository
    the API listed for the organization, in order, each followed by a
    newline, where X.Y.Z is the bump, of the kind given by [-bump], of the
    version selected among the tags the API listed for that repository
    (of 0.0.0 when none parses); when the API lists no repository the
    output is one empty line. For an organization with the repositories A
    (tags v1.0.0 and v1.1.0) and B (no tag) and the bump kind minor, the
    lines are [github.com/org/A v1.2.0] and [github.com/org/B v0.1.0]. *)
Theorem fetcher_output_lines (sorter : sort.Sorter) (api : Fetcher.API) :
  (forall (cl : Fetcher.commandLine) (getenv : string -> string) (t t' : trace),
      Fetcher.main api cl getenv t = (t', Ret tt) ->
      exists t0 rows,
        Fetcher.Repositories_ListByOrg api t0
          (nth 0 (Fetcher.flag_args cl) EmptyString) = inr (map fst rows)
        /\ Forall (fun '(r, (x, y, z)) =>
                    exists t1 refs new,
                      Fetcher.Git_ListMatchingRefs api t1
                        (nth 0 (Fetcher.flag_args cl) EmptyString) (Name r) "tags/"
                      = inr refs
                      /\ Fetcher.bumpVersion
                           (Fetcher.latestOf (Fetcher.parseTags (map Ref refs)))
                           (Fetcher.flag_bump cl) = Some new
                      /\ (semver.major new, semver.minor new, semver.patch new)
                         = (x, y, z))
                  rows
        /\ stdout t' = stdout t ++ match rows with
                                   | [] => nl
                                   | _ :: _ => lines (map outputLine rows)
                                   end)
  /\ (forall (getenv : string -> string) (verbose : bool) (t : trace),
        getenv Fetcher.EnvGithubToken <> EmptyString ->
        (forall t', Fetcher.Repositories_ListByOrg api t' "org"
                    = inr [mkRepository "A" "org/A" "org" "main";
                           mkRepository "B" "org/B" "org" "main"]) ->
        (forall t', Fetcher.Git_ListMatchingRefs api t' "org" "A" "tags/"
                    = inr [mkReference "refs/tags/v1.0.0" "1a";
                           mkReference "refs/tags/v1.1.0" "2b"]) ->
        (forall t', Fetcher.Git_ListMatchingRefs api t' "org" "B" "tags/" = inr []) ->
        exists t',
          Fetcher.main api (Fetcher.mkCommandLine "minor" verbose ["org"]) getenv t
          = (t', Ret tt)
          /\ stdout t' = stdout t ++ "github.com/org/A v1.2.0" ++ nl
                                  ++ "github.com/org/B v0.1.0" ++ nl).
Proof.
  split.
  - intros cl getenv t t'. apply main_output.
  - intros getenv verbose t. apply end_to_end_example.
Qed.

Lemma fetcher_output_lines_witness :
  let api := Fetcher.mkAPI
               (fun _ _ => inr [mkRepository "A" "org/A" "org" "main";
                                mkRepository "B" "org/B" "org" "main"])
               (fun _ _ name _ =>
                  if String.eqb name "A"
                  then inr [mkReference "refs/tags/v1.0.0" "1a";
                            mkReference "refs/tags/v1.1.0" "2b"]
                  else inr []) in
  exists t',
    Fetcher.main (sorter := insertionSorter) api
      (Fetcher.mkCommandLine "minor" false ["org"]) (fun _ => "secret") []
    = (t', Ret tt)
    /\ stdout t' = stdout [] ++ "github.com/org/A v1.2.0" ++ nl
                             ++ "github.com/org/B v0.1.0" ++ nl.
Proof.
  intros api.
  apply (proj2 (fetcher_output_lines insertionSorter api) (fun _ => "secret") false []).
  - discriminate.
  - reflexivity.
  - reflexivity.
  - reflexivity.
Defined.

(* ================================================================== *)
(** * Parsing and formatting *)
(* ================================================================== *)

Lemma all_digits_stringForall (s : string) : all_digits s = stringForall is_digit s.
Proof. induction s; simpl; congruence. Qed.

Lemma span_app (f : ascii -> bool) (a b : string) :
  stringForall f a = true -> stopsAt f b -> semver.span f (a ++ b) = (a, b).
Proof.
  intros Ha Hb. induction a as [|c a IH]; simpl in *.
  - destruct b as [|c b]; [reflexivity|]. simpl in *. rewrite Hb. reflexivity.
  - apply andb_true_iff in Ha. destruct Ha as [Hc Ha].
    rewrite Hc, (IH Ha). reflexivity.
Qed.


Lemma dotDigits_app (d rest : string) :
  d <> EmptyString -> all_digits d = true -> stopsAt is_digit rest ->
  semver.dotDigits (String "."%char (d ++ rest)) = (String "."%char d, rest).
Proof.
  intros Hne Hd Hr. unfold semver.dotDigits. cbn [Ascii.eqb Bool.eqb].
  rewrite span_app; [|rewrite <- all_digits_stringForall; exact Hd|exact Hr].
  destruct d; [congruence|reflexivity].
Qed.

Lemma dotDigits_stops (s : string) :
  stopsAt (fun c => Ascii.eqb c "."%char) s -> semver.dotDigits s = (EmptyString, s).
Proof.
  destruct s as [|c s]; [reflexivity|]. simpl. intros ->. reflexivity.
Qed.


(** ** Identifiers *)

Lemma stringForall_parts (f : ascii -> bool) (p : string) :
  f "."%char = true ->
  forallb (stringForall f) (strings_Split p "."%char) = true ->
  stringForall f p = true.
Proof.
  intros Hdot. induction p as [|c p IH]; [reflexivity|].
  simpl. destruct (Ascii.eqb_spec c "."%char) as [->|N].
  - simpl. intros H. rewrite Hdot. simpl. auto.
  - destruct (strings_Split p "."%char) as [|h tl] eqn:E.
    + simpl. rewrite andb_true_r. intros H. apply andb_true_iff in H.
      destruct H as [Hc _]. rewrite Hc. simpl. apply IH. reflexivity.
    + simpl. intros H. apply andb_true_iff in H. destruct H as [H Htl].
      apply andb_true_iff in H. destruct H as [Hc Hh].
      rewrite Hc. simpl. apply IH. simpl. rewrite Hh, Htl. reflexivity.
Qed.

Lemma containsOnly_allowed_no_plus (part : string) :
  semver.containsOnly part semver.allowed = true ->
  stringForall (fun c => negb (Ascii.eqb c "+"%char)) part = true.
Proof.
  induction part as [|c part IH]; [reflexivity|].
  cbn [semver.containsOnly stringForall]. intros H.
  apply andb_true_iff in H. destruct H as [Hc H].
  rewrite (IH H), andb_true_r.
  destruct (Ascii.eqb_spec c "+"%char) as [->|]; [|reflexivity].
  vm_compute in Hc. discriminate.
Qed.

Lemma isIdents_no_plus (p : string) :
  semver.isIdents p = true ->
  stringForall (fun c => negb (Ascii.eqb c "+"%char)) p = true.
Proof.
  unfold semver.isIdents. intros H.
  apply stringForall_parts; [reflexivity|].
  rewrite forallb_forall in *. intros part Hin.
  specialize (H part Hin). apply andb_true_iff in H.
  apply containsOnly_allowed_no_plus. tauto.
Qed.

Lemma isIdents_validateMetadata (m : string) :
  semver.isIdents m = true -> semver.validateMetadata m = true.
Proof.
  unfold semver.isIdents, semver.validateMetadata. intros H.
  rewrite forallb_forall in *. intros part Hin.
  specialize (H part Hin). apply andb_true_iff in H. tauto.
Qed.

Lemma isIdents_nonempty (p : string) :
  semver.isIdents p = true -> p <> EmptyString.
Proof. intros H ->. vm_compute in H. discriminate. Qed.

(** ** Reading a printed version *)

Lemma digit_not_v (c : ascii) : is_digit c = true -> Ascii.eqb "v"%char c = false.
Proof.
  intros H. destruct (Ascii.eqb_spec "v"%char c) as [<-|]; [|reflexivity].
  vm_compute in H. discriminate.
Qed.

Lemma TrimPrefix_v_digit (c : ascii) (s : string) :
  is_digit c = true -> strings_TrimPrefix (String c s) "v" = String c s.
Proof.
  intros H. unfold strings_TrimPrefix. cbn [stripPrefix].
  rewrite (digit_not_v c H). reflexivity.
Qed.

Lemma format_uint_head (n : Z) :
  0 <= n <= maxUint64 ->
  exists c r, format_uint n = String c r /\ is_digit c = true.
Proof.
  intros H. destruct (format_uint_spec n H) as (Hne & Hd & _).
  destruct (format_uint n) as [|c r]; [congruence|].
  simpl in Hd. apply andb_true_iff in Hd. exists c, r. tauto.
Qed.

(** The suffix of [Version.String()] after the three segments. *)
Lemma suffix_stops (pre metadata : string) (f : ascii -> bool) :
  f "-"%char = false -> f "+"%char = false ->
  stopsAt f ((if String.eqb pre EmptyString then EmptyString else "-" ++ pre)
             ++ (if String.eqb metadata EmptyString then EmptyString
                 else "+" ++ metadata)).
Proof.
  intros Hm Hp.
  destruct (String.eqb pre EmptyString), (String.eqb metadata EmptyString);
    simpl; auto.
Qed.

(** The submatches of the text printed for a well-formed version. *)
Lemma FindStringSubmatch_String (v : semver.Version) :
  wellFormed v ->
  semver.versionRegex_FindStringSubmatch (semver.Version_String v) =
  Some (format_uint (semver.major v),
        String "."%char (format_uint (semver.minor v)),
        String "."%char (format_uint (semver.patch v)),
        semver.pre v, semver.metadata v).
Proof.
  intros W. unfold semver.versionRegex_FindStringSubmatch, semver.Version_String.
  destruct (format_uint_spec _ (wf_major v W)) as (Ane & Ad & _ & _).
  destruct (format_uint_spec _ (wf_minor v W)) as (Bne & Bd & _ & _).
  destruct (format_uint_spec _ (wf_patch v W)) as (Cne & Cd & _ & _).
  destruct (format_uint_head _ (wf_major v W)) as (c & r & Ea & Hc).
  set (sfx := (if String.eqb (semver.pre v) EmptyString then EmptyString
               else "-" ++ semver.pre v)
              ++ (if String.eqb (semver.metadata v) EmptyString then EmptyString
                  else "+" ++ semver.metadata v)).
  assert (T : strings_TrimPrefix
                (format_uint (semver.major v) ++ "." ++ format_uint (semver.minor v)
                   ++ "." ++ format_uint (semver.patch v) ++ sfx) "v"
              = format_uint (semver.major v) ++ "." ++ format_uint (semver.minor v)
                   ++ "." ++ format_uint (semver.patch v) ++ sfx).
  { rewrite Ea. simpl. apply TrimPrefix_v_digit. exact Hc. }
  rewrite T.
  rewrite span_app; [|rewrite <- all_digits_stringForall; exact Ad|reflexivity].
  destruct (format_uint (semver.major v)) as [|c0 r0] eqn:EA; [congruence|].
  change ("." ++ format_uint (semver.minor v) ++ "." ++ format_uint (semver.patch v) ++ sfx)
    with (String "."%char (format_uint (semver.minor v)
                           ++ String "."%char (format_uint (semver.patch v) ++ sfx))).
  rewrite (dotDigits_app _ _ Bne Bd) by reflexivity.
  rewrite (dotDigits_app _ _ Cne Cd)
    by (apply suffix_stops; reflexivity).
  subst sfx.
  destruct (wf_pre v W) as [Ep|[Ip Vp]]; destruct (wf_metadata v W) as [Em|Im].
  - rewrite Ep, Em. reflexivity.
  - rewrite Ep. pose proof (isIdents_nonempty _ Im) as N.
    apply String.eqb_neq in N. rewrite N. simpl. rewrite Im. reflexivity.
  - rewrite Em. pose proof (isIdents_nonempty _ Ip) as N.
    apply String.eqb_neq in N. rewrite N. simpl.
    rewrite string_app_nil_r.
    rewrite <- (string_app_nil_r (semver.pre v)) at 1.
    rewrite span_app; [|apply isIdents_no_plus; exact Ip|exact I].
    rewrite Ip. reflexivity.
  - pose proof (isIdents_nonempty _ Ip) as Np. pose proof (isIdents_nonempty _ Im) as Nm.
    apply String.eqb_neq in Np, Nm. rewrite Np, Nm. simpl.
    change (semver.pre v ++ String "+"%char (semver.metadata v))
      with (semver.pre v ++ String "+"%char (semver.metadata v)).
    rewrite span_app; [|apply isIdents_no_plus; exact Ip|reflexivity].
    rewrite Ip, Im. reflexivity.
Qed.

Lemma NewVersion_of_submatches (text : string) (v : semver.Version) :
  wellFormed v ->
  semver.versionRegex_FindStringSubmatch text =
  Some (format_uint (semver.major v),
        String "."%char (format_uint (semver.minor v)),
        String "."%char (format_uint (semver.patch v)),
        semver.pre v, semver.metadata v) ->
  semver.NewVersion text = Some (reparsed v text).
Proof.
  intros W M. unfold semver.NewVersion. rewrite M.
  rewrite (ParseUint_format _ (wf_major v W)).
  unfold semver.parseSegment, strings_TrimPrefix. cbn [stripPrefix Ascii.eqb Bool.eqb].
  rewrite (ParseUint_format _ (wf_minor v W)), (ParseUint_format _ (wf_patch v W)).
  assert (C1 : String.eqb (semver.pre v) EmptyString
               || semver.validatePrerelease (semver.pre v) = true).
  { destruct (wf_pre v W) as [->|[_ V]]; [reflexivity|].
    rewrite V. apply orb_true_r. }
  assert (C2 : String.eqb (semver.metadata v) EmptyString
               || semver.validateMetadata (semver.metadata v) = true).
  { destruct (wf_metadata v W) as [->|V]; [reflexivity|].
    rewrite (isIdents_validateMetadata _ V). apply orb_true_r. }
  rewrite C1, C2. reflexivity.
Qed.


(** And so with the ["v"] that [versionToString] puts in front. *)
Lemma NewVersion_versionToString (v : semver.Version) :
  wellFormed v ->
  semver.NewVersion (Fetcher.versionToString (Some v))
  = Some (reparsed v (Fetcher.versionToString (Some v))).
Proof.
  intros W. apply NewVersion_of_submatches; [exact W|].
  rewrite <- (FindStringSubmatch_String v W).
  unfold semver.versionRegex_FindStringSubmatch, Fetcher.versionToString.
  replace (strings_TrimPrefix ("v" ++ semver.Version_String v) "v")
    with (strings_TrimPrefix (semver.Version_String v) "v"); [reflexivity|].
  unfold semver.Version_String.
  destruct (format_uint_head _ (wf_major v W)) as (c & r & Ea & Hc).
  rewrite Ea. simpl. rewrite TrimPrefix_v_digit by exact Hc. reflexivity.
Qed.

(** ** Printing a version read from a string *)




Lemma sameVersion_reparsed (v : semver.Version) (text : string) :
  sameVersion v (reparsed v text).
Proof. repeat split. Qed.



(** Strings that [NewVersion] accepts without being written in full are
    printed in full: a missing segment is printed as 0 and a leading zero is
    dropped. *)
Example shortened_forms_are_printed_in_full :
  option_map semver.Version_String (semver.NewVersion "v1.2") = Some "1.2.0"
  /\ option_map semver.Version_String (semver.NewVersion "01.2.3") = Some "1.2.3"
  /\ writtenInFull "v1.2" = false /\ writtenInFull "01.2.3" = false.
Proof. repeat split; vm_compute; reflexivity. Qed.

(* ================================================================== *)
(** * More on [gh-tag-fetcher]: flags, bumps and ordering *)
(* ================================================================== *)

Lemma validBump_eqb (b : string) :
  String.eqb b "patch" || String.eqb b "minor" || String.eqb b "major" = true
  <-> validBump b.
Proof.
  unfold validBump. rewrite !orb_true_iff, !String.eqb_eq. tauto.
Qed.

(** X1. [parseFlags] ends inside [flag.Parse] when the flags do not parse
    (status 2) or ask for help (status 0), the usage having gone to
    standard error. On a command line that [flag.Parse] accepts it adds no
    event; it returns exactly when there is one argument, the token is set
    and the bump kind is valid, and the package variables are then the
    flags, the argument and the token; otherwise it ends in [log.Fatalf]
    with the message of the first test that fails, in the order arguments,
    token, bump kind. *)
Theorem parseFlags_outcomes (a : Fetcher.arguments) (getenv : string -> string)
    (t : trace) :
  match a with
  | Fetcher.Help output =>
      Fetcher.parseFlags a getenv t = ((t ++ [Stderr output])%list, Exit 0)
  | Fetcher.BadFlag output =>
      Fetcher.parseFlags a getenv t = ((t ++ [Stderr output])%list, Exit 2)
  | Fetcher.Parsed cl =>
      fst (Fetcher.parseFlags a getenv t) = t
      /\ match snd (Fetcher.parseFlags a getenv t) with
         | Ret g =>
             Fetcher.flag_args cl = [Fetcher.org g]
             /\ Fetcher.token g = getenv Fetcher.EnvGithubToken
             /\ Fetcher.token g <> EmptyString
             /\ Fetcher.bump g = Fetcher.flag_bump cl
             /\ Fetcher.verbose g = Fetcher.flag_verbose cl
             /\ validBump (Fetcher.bump g)
         | Fatal msg =>
             (Fetcher.flag_args cl = []
              /\ msg = "Error: missing argument: github organization")
             \/ ((1 < List.length (Fetcher.flag_args cl))%nat
                 /\ msg = "Error: too many arguments: expected only 1 argument, got "
                          ++ format_uint
                               (Z.of_nat (List.length (Fetcher.flag_args cl))))
             \/ (List.length (Fetcher.flag_args cl) = 1%nat
                 /\ getenv Fetcher.EnvGithubToken = EmptyString
                 /\ msg = "Error: environment variable not set: GITHUB_TOKEN")
             \/ (List.length (Fetcher.flag_args cl) = 1%nat
                 /\ getenv Fetcher.EnvGithubToken <> EmptyString
                 /\ ~ validBump (Fetcher.flag_bump cl)
                 /\ msg = "Error: bump flag expects one of [patch minor major], got: "
                          ++ Fetcher.flag_bump cl)
         | Exit _ | Panic _ => False
         end
  end.
Proof.
  destruct a as [cl|output|output]; [|reflexivity..].
  unfold Fetcher.parseFlags. rewrite Fetcher_parsed. cbv beta.
  unfold bind, noError, fatal, stop, ret.
  destruct (Fetcher.flag_args cl) as [|a [|a' args]] eqn:L;
    cbn [List.length Nat.eqb Nat.ltb Nat.leb].
  - split; [reflexivity|]. left. auto.
  - destruct (String.eqb_spec (getenv Fetcher.EnvGithubToken) EmptyString) as [E|E].
    + split; [reflexivity|]. right. right. left. auto.
    + destruct (_ || _) eqn:B.
      * split; [reflexivity|]. apply validBump_eqb in B. simpl. auto 10.
      * split; [reflexivity|]. right. right. right.
        repeat split; auto. intros V. apply validBump_eqb in V. congruence.
  - split; [reflexivity|]. right. left. split; [simpl; lia|reflexivity].
Qed.

(** The panic of [bumpVersion] is the one of its [default] case: parsing
    ["v0.0.0"] succeeds. *)
Lemma bumpVersion_None (version : option semver.Version) (b : string) :
  Fetcher.bumpVersion version b = None -> ~ validBump b.
Proof.
  rewrite bumpVersion_start. unfold Fetcher.bumpVersion, validBump.
  destruct (String.eqb_spec b "major"); [discriminate|].
  destruct (String.eqb_spec b "minor"); [discriminate|].
  destruct (String.eqb_spec b "patch"); [discriminate|]. tauto.
Qed.

(** X2. [bumpVersion] panics exactly when the bump kind is none of patch,
    minor and major, whether a version is given or not. *)
Theorem bumpVersion_panics_exactly (version : option semver.Version) (b : string) :
  Fetcher.bumpVersion version b = None <-> ~ validBump b.
Proof.
  split; [apply bumpVersion_None|].
  rewrite bumpVersion_start. unfold Fetcher.bumpVersion, validBump.
  destruct (String.eqb_spec b "major"); [tauto|].
  destruct (String.eqb_spec b "minor"); [tauto|].
  destruct (String.eqb_spec b "patch"); [tauto|]. reflexivity.
Qed.

Lemma compareSegment_succ (z : Z) :
  semver.compareSegment (z + 1) z = 1 /\ semver.compareSegment z (z + 1) = -1.
Proof.
  unfold semver.compareSegment.
  destruct (Z.ltb_spec (z + 1) z), (Z.ltb_spec z (z + 1)); try lia; auto.
Qed.

Lemma compareSegment_refl (z : Z) : semver.compareSegment z z = 0.
Proof. unfold semver.compareSegment. destruct (Z.ltb_spec z z); lia. Qed.

(** X3. As long as the component it increments is below 2^64 - 1, a bump
    yields a version that [Compare] puts strictly above the version it
    started from: the proposed tag is newer than the latest tag. *)
Theorem bump_is_strictly_newer (v new : semver.Version) (b : string) :
  0 <= semver.major v < maxUint64 ->
  0 <= semver.minor v < maxUint64 ->
  0 <= semver.patch v < maxUint64 ->
  Fetcher.bumpVersion (Some v) b = Some new ->
  semver.Compare new v = 1 /\ semver.Compare v new = -1.
Proof.
  intros Hma Hmi Hpa. unfold Fetcher.bumpVersion.
  destruct (String.eqb b "major").
  { intros H. inversion H. unfold semver.Compare. simpl.
    rewrite (u64_succ _ Hma).
    destruct (compareSegment_succ (semver.major v)) as [-> ->]. auto. }
  destruct (String.eqb b "minor").
  { intros H. inversion H. unfold semver.Compare. simpl.
    rewrite (u64_succ _ Hmi), !compareSegment_refl.
    destruct (compareSegment_succ (semver.minor v)) as [-> ->]. auto. }
  destruct (String.eqb b "patch"); [|discriminate].
  intros H. inversion H. unfold semver.Compare, semver.IncPatch.
  destruct (String.eqb_spec (semver.pre v) EmptyString) as [E|E]; simpl.
  - rewrite (u64_succ _ Hpa), !compareSegment_refl.
    destruct (compareSegment_succ (semver.patch v)) as [-> ->]. auto.
  - rewrite !compareSegment_refl. simpl. auto.
Qed.

Lemma bump_is_strictly_newer_witness :
  semver.Compare (semver.mkVersion 1 2 3 "" "" "1.2.3")
                 (semver.mkVersion 1 2 3 "rc1" "" "1.2.3-rc1") = 1
  /\ semver.Compare (semver.mkVersion 1 2 3 "rc1" "" "1.2.3-rc1")
                    (semver.mkVersion 1 2 3 "" "" "1.2.3") = -1.
Proof.
  apply (bump_is_strictly_newer (semver.mkVersion 1 2 3 "rc1" "" "1.2.3-rc1")
           (semver.mkVersion 1 2 3 "" "" "1.2.3") "patch");
    try (simpl; rewrite maxUint64_eq; lia).
  reflexivity.
Defined.

Lemma u64_range (z : Z) : 0 <= u64 z <= maxUint64.
Proof.
  unfold u64. rewrite maxUint64_eq.
  pose proof (Z.mod_pos_bound z (2 ^ 64) ltac:(reflexivity)) as H.
  change (2 ^ 64) with 18446744073709551616 in *. lia.
Qed.

Lemma bumpVersion_wellFormed (v new : semver.Version) (b : string) :
  wellFormed v -> Fetcher.bumpVersion (Some v) b = Some new -> wellFormed new.
Proof.
  intros W. unfold Fetcher.bumpVersion.
  pose proof (maxUint64_eq) as M.
  destruct (String.eqb b "major").
  { intros H. inversion H. split; simpl; auto using u64_range; lia. }
  destruct (String.eqb b "minor").
  { intros H. inversion H. destruct W. split; simpl; auto using u64_range; lia. }
  destruct (String.eqb b "patch"); [|discriminate].
  intros H. inversion H. unfold semver.IncPatch.
  destruct W. destruct (negb _); split; simpl; auto using u64_range.
Qed.

Lemma zero_wellFormed : wellFormed (semver.mkVersion 0 0 0 "" "" "v0.0.0").
Proof. split; simpl; auto; rewrite maxUint64_eq; lia. Qed.

Lemma latestOf_wellFormed {sorter : sort.Sorter} (refs : list string)
    (v : semver.Version) :
  Fetcher.latestOf (Fetcher.parseTags refs) = Some v -> wellFormed v.
Proof.
  intros H. pose proof (latestOf_spec _ (parseTags_good refs)) as S.
  rewrite H in S. destruct S as [Hin _].
  apply parseTags_In in Hin. destruct Hin as (ref & _ & Hv).
  eapply NewVersion_wellFormed; eauto.
Qed.

(** X4. Whatever the tags of a repository are, the tag [gh-tag-fetcher]
    proposes for it is itself a version string: [NewVersion] accepts the
    printed new tag and reads it as the bumped version. *)
Theorem proposed_tag_is_a_version (sorter : sort.Sorter) (refs : list string)
    (b : string) :
  match Fetcher.bumpVersion (Fetcher.latestOf (Fetcher.parseTags refs)) b with
  | Some new =>
      exists w, semver.NewVersion (Fetcher.versionToString (Some new)) = Some w
                /\ sameVersion new w
                /\ semver.pre w = EmptyString /\ semver.metadata w = EmptyString
  | None => ~ validBump b
  end.
Proof.
  destruct (Fetcher.bumpVersion _ b) as [new|] eqn:B;
    [|apply bumpVersion_None in B; exact B].
  destruct (bumpVersion_clears _ _ _ B) as [Hp Hm].
  rewrite bumpVersion_start in B.
  assert (W : wellFormed new).
  { eapply bumpVersion_wellFormed; [|exact B].
    destruct (Fetcher.latestOf _) as [v|] eqn:L;
      [eapply latestOf_wellFormed; eauto|apply zero_wellFormed]. }
  exists (reparsed new (Fetcher.versionToString (Some new))).
  split; [apply NewVersion_versionToString; exact W|].
  split; [apply sameVersion_reparsed|]. simpl. auto.
Qed.

(** X5. On the versions parsed from any list of tags, [ByVersion.Less] is
    what [sort.Interface] asks for: no version is less than itself, and
    both "less" and "not less" are transitive. *)
Theorem ByVersion_Less_is_a_transitive_ordering (refs : list string) :
  sort.TransitiveOrdering Fetcher.ByVersion_Less (Fetcher.parseTags refs).
Proof. apply ByVersion_Less_ordering. apply parseTags_good. Qed.

(* ================================================================== *)
(** * More on [gh-tag-fetcher]: its runs *)
(* ================================================================== *)

Lemma mild_ret {A : Type} (a : A) : mild (ret a).
Proof. intros t. exact I. Qed.

Lemma mild_fatal {A : Type} (e : string) : mild (@fatal A e).
Proof. intros t. exact I. Qed.

Lemma mild_emit (e : event) : mild (emit e).
Proof. intros t. exact I. Qed.

Lemma mild_ask {R : Type} (e : event) (answer : trace -> R) : mild (ask e answer).
Proof. intros t. exact I. Qed.

Lemma mild_bind {A B : Type} (m : M A) (k : A -> M B) :
  mild m -> (forall a, mild (k a)) -> mild (bind m k).
Proof.
  intros Hm Hk t. unfold bind. specialize (Hm t).
  destruct (m t) as [t1 [a| | |]]; simpl in *; auto. apply Hk.
Qed.

Lemma mild_noError (err : error) : mild (noError err).
Proof. destruct err; intros t; exact I. Qed.

Lemma mild_checked {A : Type} (r : result A) : mild (checked r).
Proof. destruct r; intros t; exact I. Qed.

Lemma mild_forM {A B : Type} (xs : list A) (f : A -> M B) :
  (forall x, mild (f x)) -> mild (forM xs f).
Proof.
  intros H. induction xs as [|x xs IH]; simpl; [apply mild_ret|].
  apply mild_bind; [apply H|]. intros y.
  apply mild_bind; [apply IH|]. intros ys. apply mild_ret.
Qed.

Lemma mild_log_Println (g : Fetcher.globals) (s : string) :
  mild (Fetcher.log_Println g s).
Proof.
  unfold Fetcher.log_Println. destruct (Fetcher.verbose g);
    [apply mild_emit|apply mild_ret].
Qed.

Lemma mild_ask_bind {R B : Type} (e : event) (answer : trace -> R)
    (k : R -> M B) :
  (forall t, mild (k (answer t))) -> mild (bind (ask e answer) k).
Proof. intros H t. rewrite bind_ask. apply H. Qed.

(** The end of [fetchLatestTag] on an answer of the API. *)
Lemma mild_parse_refs {sorter : sort.Sorter}
    (answer : trace -> string -> string -> string -> result (list Reference))
    (t : trace) (owner repo ref : string) :
  allRefsSet answer ->
  mild (refs <- checked (answer t owner repo ref) ;;
        (if forallb hasRef refs then ret tt else stop (Panic nilDereference)) ;;;
        ret (Fetcher.latestOf (Fetcher.parseTags (map Ref refs)))).
Proof.
  intros HR. destruct (answer t owner repo ref) as [e|refs] eqn:E.
  - intros t0. exact I.
  - intros t0. cbn [checked]. rewrite bind_ret, (HR _ _ _ _ _ E). exact I.
Qed.

Lemma fetchRepos_mild {sorter : sort.Sorter} (api : Fetcher.API)
    (g : Fetcher.globals) (org : string) :
  allRefsSet (Fetcher.Git_ListMatchingRefs api) ->
  validBump (Fetcher.bump g) -> mild (Fetcher.fetchRepos api g org).
Proof.
  intros HR V. unfold Fetcher.fetchRepos.
  apply mild_bind; [apply mild_log_Println|intros _].
  apply mild_bind; [apply mild_ask|intros r].
  apply mild_bind; [apply mild_checked|intros ghRepos].
  destruct ghRepos as [|gh ghRepos]; [apply mild_ret|].
  apply mild_bind.
  - apply mild_forM. intros ghr.
    apply mild_bind.
    + unfold Fetcher.fetchLatestTag.
      apply mild_bind; [apply mild_log_Println|intros _].
      apply mild_ask_bind. intros t0. apply mild_parse_refs. exact HR.
    + intros latest.
      destruct (Fetcher.bumpVersion latest (Fetcher.bump g)) as [new|] eqn:B;
        [apply mild_ret|].
      apply bumpVersion_None in B. contradiction.
  - intros repos. apply mild_bind; [apply mild_log_Println|intros _; apply mild_ret].
Qed.

Lemma parseFlags_cases (cl : Fetcher.commandLine) (getenv : string -> string)
    (t : trace) :
  (exists g, Fetcher.parseFlags cl getenv t = (t, Ret g)
             /\ validBump (Fetcher.bump g)
             /\ Fetcher.org g = nth 0 (Fetcher.flag_args cl) EmptyString)
  \/ (exists msg, Fetcher.parseFlags cl getenv t = (t, Fatal msg)).
Proof.
  unfold Fetcher.parseFlags. rewrite Fetcher_parsed. cbv beta.
  unfold bind, noError, fatal, stop, ret.
  destruct (List.length (Fetcher.flag_args cl) =? 0)%nat; [right; eauto|].
  destruct (1 <? List.length (Fetcher.flag_args cl))%nat; [right; eauto|].
  destruct (String.eqb (getenv Fetcher.EnvGithubToken) EmptyString); [right; eauto|].
  destruct (_ || _) eqn:B; [|right; eauto].
  left. eexists. split; [reflexivity|]. split; [|reflexivity].
  apply validBump_eqb. exact B.
Qed.

Lemma printRepos_run (g : Fetcher.globals) (repos : list Fetcher.repo) (t : trace) :
  exists t', Fetcher.printRepos g repos t = (t', Ret tt)
             /\ createdRefs t' = createdRefs t
             /\ requests t' = requests t
             /\ stdout t' = stdout t
                  ++ strings_Join (Fetcher.reposToStdOutput repos) nl ++ nl.
Proof.
  unfold Fetcher.printRepos, Fetcher.log_Println, bind, emit, ret.
  destruct (Fetcher.verbose g); eexists; (split; [reflexivity|]);
    rewrite ?createdRefs_app, ?requests_app, ?stdout_app; simpl;
    rewrite ?app_nil_r, ?string_app_nil_r; auto.
Qed.

(** X6. As long as the API lists no reference without its [ref] field, a
    run of [gh-tag-fetcher] never panics, whatever its arguments are: it
    returns, or ends through [log.Fatalf], or ends inside [flag.Parse], with
    status 0 after [-h] and status 2 after a flag that does not parse. The
    panic of [bumpVersion] cannot be reached from [main], which has checked
    the bump kind. *)
Theorem fetcher_never_panics (sorter : sort.Sorter) (api : Fetcher.API)
    (a : Fetcher.arguments) (getenv : string -> string) (t : trace) :
  allRefsSet (Fetcher.Git_ListMatchingRefs api) ->
  match snd (Fetcher.main api a getenv t) with
  | Ret _ | Fatal _ => True
  | Exit code =>
      (exists output, a = Fetcher.Help output /\ code = 0)
      \/ (exists output, a = Fetcher.BadFlag output /\ code = 2)
  | Panic _ => False
  end.
Proof.
  intros HR. destruct a as [cl|output|output].
  - assert (H : match snd (Fetcher.main api cl getenv t) with
                | Ret _ | Fatal _ => True
                | Exit _ | Panic _ => False
                end).
    { unfold Fetcher.main.
      destruct (parseFlags_cases cl getenv t) as [(g & E & V & _)|(msg & E)].
      - rewrite (bind_run _ _ _ _ _ E).
        apply (mild_bind (Fetcher.fetchRepos api g (Fetcher.org g))
                 (fun repos => Fetcher.printRepos g repos)).
        + apply fetchRepos_mild; assumption.
        + intros repos t0.
          destruct (printRepos_run g repos t0) as (t' & -> & _). exact I.
      - unfold bind. rewrite E. exact I. }
    destruct (snd (Fetcher.main api cl getenv t)); auto; contradiction.
  - simpl. left. eauto.
  - simpl. right. eauto.
Qed.

Lemma fetcher_never_panics_witness :
  let api := Fetcher.mkAPI
               (fun _ _ => inr [mkRepository "A" "org/A" "org" "main"])
               (fun _ _ _ _ => inr [mkReference "refs/tags/v1.2.3" "abc"]) in
  match snd (Fetcher.main (sorter := insertionSorter) api
               (Fetcher.BadFlag "flag provided but not defined: -x")
               (fun _ => "secret") []) with
  | Ret _ | Fatal _ => True
  | Exit code =>
      (exists output,
          Fetcher.BadFlag "flag provided but not defined: -x" = Fetcher.Help output
          /\ code = 0)
      \/ (exists output,
             Fetcher.BadFlag "flag provided but not defined: -x"
             = Fetcher.BadFlag output /\ code = 2)
  | Panic _ => False
  end.
Proof.
  intros api.
  apply (fetcher_never_panics insertionSorter api
           (Fetcher.BadFlag "flag provided but not defined: -x")
           (fun _ => "secret") []).
  intros t owner repo ref refs E. inversion E. reflexivity.
Defined.

(** X7. [gh-tag-fetcher] only reads: no run of it sends a request that
    creates a ref; and it prints to standard output only at the end of a
    run that returns: after any failure standard output is untouched. *)
Theorem fetcher_reads_only_and_prints_last (sorter : sort.Sorter)
    (api : Fetcher.API) (cl : Fetcher.commandLine) (getenv : string -> string)
    (t : trace) :
  createdRefs (fst (Fetcher.main api cl getenv t)) = createdRefs t
  /\ match snd (Fetcher.main api cl getenv t) with
     | Ret _ => True
     | _ => stdout (fst (Fetcher.main api cl getenv t)) = stdout t
     end.
Proof.
  unfold Fetcher.main.
  destruct (parseFlags_cases cl getenv t) as [(g & E & _ & _)|(msg & E)].
  - rewrite (bind_run _ _ _ _ _ E).
    pose proof (quiet_createdRefs _ t (fetchRepos_quiet api g (Fetcher.org g))) as Hc.
    pose proof (quiet_stdout _ t (fetchRepos_quiet api g (Fetcher.org g))) as Hs.
    unfold bind.
    destruct (Fetcher.fetchRepos api g (Fetcher.org g) t) as [t1 [repos| | |]];
      simpl in Hc, Hs; simpl; auto.
    destruct (printRepos_run g repos t1) as (t' & -> & Hc' & _). simpl.
    split; [congruence|exact I].
  - unfold bind. rewrite E. simpl. auto.
Qed.

Lemma log_Println_run (g : Fetcher.globals) (s : string) (t : trace) :
  exists t', Fetcher.log_Println g s t = (t', Ret tt) /\ requests t' = requests t.
Proof.
  unfold Fetcher.log_Println, emit, ret.
  destruct (Fetcher.verbose g); eexists; (split; [reflexivity|]);
    rewrite ?requests_app; simpl; rewrite ?app_nil_r; reflexivity.
Qed.

Lemma forM_requests {A B : Type} (f : A -> M B) (q : A -> list request) :
  (forall x t t' y, f x t = (t', Ret y) -> requests t' = (requests t ++ q x)%list) ->
  forall xs t t' ys, forM xs f t = (t', Ret ys) ->
    requests t' = (requests t ++ flat_map q xs)%list.
Proof.
  intros F. induction xs as [|x xs IH]; intros t t' ys H; simpl in H.
  - inversion H. simpl. rewrite app_nil_r. reflexivity.
  - apply bind_Ret_inv in H. destruct H as (t1 & y & Hy & H).
    apply bind_Ret_inv in H. destruct H as (t2 & ys' & Hys & H).
    inversion H; subst. simpl.
    rewrite (IH _ _ _ Hys), (F _ _ _ _ Hy), <- app_assoc. reflexivity.
Qed.

Lemma fetchLatestTag_requests {sorter : sort.Sorter} (api : Fetcher.API)
    (g : Fetcher.globals) (org name : string) (t t' : trace)
    (o : outcome (option semver.Version)) :
  Fetcher.fetchLatestTag api g org name t = (t', o) ->
  requests t' = (requests t ++ [ListMatchingRefs org name "tags/"])%list.
Proof.
  unfold Fetcher.fetchLatestTag.
  destruct (log_Println_run g ("Fetching latest tag for " ++ org ++ "/" ++ name) t)
    as (t1 & E & R).
  rewrite (bind_run _ _ _ _ _ E), bind_ask.
  unfold bind, checked, fatal, stop, ret.
  destruct (Fetcher.Git_ListMatchingRefs api t1 org name "tags/") as [e|refs];
    [|destruct (forallb hasRef refs)];
    intros H; inversion H; subst; rewrite requests_app, R; reflexivity.
Qed.

Lemma fetchRepos_requests {sorter : sort.Sorter} (api : Fetcher.API)
    (g : Fetcher.globals) (org : string) (t t' : trace) (repos : list Fetcher.repo) :
  Fetcher.fetchRepos api g org t = (t', Ret repos) ->
  requests t' =
  (requests t ++ ListByOrg org
     :: map (fun r => ListMatchingRefs org (Name (Fetcher.repo_repo r)) "tags/") repos)%list.
Proof.
  intros H. pose proof (fetchRepos_Ret api g org t t' repos H) as [(t0 & L) _].
  revert H. unfold Fetcher.fetchRepos.
  destruct (log_Println_run g "Fetching repositories (might take a minute)..." t)
    as (t1 & E & R).
  rewrite (bind_run _ _ _ _ _ E), bind_ask. intros H.
  apply bind_Ret_inv in H. destruct H as (t2 & ghRepos & Hc & H).
  destruct (Fetcher.Repositories_ListByOrg api t1 org) as [err|l]; [discriminate|].
  inversion Hc; subst t2 l; clear Hc.
  destruct ghRepos as [|gh ghRepos].
  - inversion H; subst. rewrite requests_app, R. reflexivity.
  - apply bind_Ret_inv in H. destruct H as (t4 & rs & Hf & H).
    apply bind_Ret_inv in H. destruct H as (t5 & [] & Hlog & H).
    inversion H; subst rs t5; clear H.
    destruct (log_Println_run g EmptyString t4) as (t6 & E6 & R6).
    rewrite E6 in Hlog. inversion Hlog; subst t6. rewrite R6.
    pose proof Hf as Hf'. apply forM_Ret_inv in Hf'.
    assert (F : forall x ta tb y,
               (latest <- Fetcher.fetchLatestTag api g org (Name x) ;;
                match Fetcher.bumpVersion latest (Fetcher.bump g) with
                | Some new => ret (Fetcher.mkRepo x latest new)
                | None => stop (Panic "invalid bump")
                end) ta = (tb, Ret y) ->
               requests tb =
               (requests ta ++ [ListMatchingRefs org (Name x) "tags/"])%list).
    { intros x ta tb y Hxy.
      apply bind_Ret_inv in Hxy. destruct Hxy as (tc & latest & Hl & Hxy).
      apply fetchLatestTag_requests in Hl.
      destruct (Fetcher.bumpVersion latest (Fetcher.bump g)); [|discriminate].
      inversion Hxy; subst. exact Hl. }
    rewrite (forM_requests _ _ F _ _ _ _ Hf).
    rewrite requests_app, R. simpl requests. rewrite <- app_assoc. simpl.
    do 2 f_equal.
    assert (G : forall xs ys,
               Forall2 (fun x y => exists t1 t2,
                  (latest <- Fetcher.fetchLatestTag api g org (Name x) ;;
                   match Fetcher.bumpVersion latest (Fetcher.bump g) with
                   | Some new => ret (Fetcher.mkRepo x latest new)
                   | None => stop (Panic "invalid bump")
                   end) t1 = (t2, Ret y)) xs ys ->
               flat_map (fun ghr => [ListMatchingRefs org (Name ghr) "tags/"]) xs
               = map (fun r => ListMatchingRefs org (Name (Fetcher.repo_repo r)) "tags/") ys).
    { clear. induction 1 as [|x y xs ys Hxy _ IH]; [reflexivity|].
      destruct Hxy as (ta & tb & Hxy).
      apply bind_Ret_inv in Hxy. destruct Hxy as (tc & latest & _ & Hxy).
      destruct (Fetcher.bumpVersion latest (Fetcher.bump g)); [|discriminate].
      inversion Hxy; subst y. simpl. f_equal. exact IH. }
    apply (G _ _ Hf').
Qed.

(** X8. A run of [gh-tag-fetcher] that returns has sent exactly one
    request listing the repositories of the organization and then one
    request listing the tags of each repository the API listed, in order. *)
Theorem fetcher_requests (sorter : sort.Sorter) (api : Fetcher.API)
    (cl : Fetcher.commandLine) (getenv : string -> string) (t t' : trace) :
  Fetcher.main api cl getenv t = (t', Ret tt) ->
  let org := nth 0 (Fetcher.flag_args cl) EmptyString in
  exists t0 ghRepos,
    Fetcher.Repositories_ListByOrg api t0 org = inr ghRepos
    /\ requests t' =
       (requests t ++ ListByOrg org
          :: map (fun r => ListMatchingRefs org (Name r) "tags/") ghRepos)%list.
Proof.
  intros H. cbv zeta. unfold Fetcher.main in H.
  set (org := nth 0 (Fetcher.flag_args cl) EmptyString).
  apply bind_Ret_inv in H. destruct H as (t1 & g & Hg & H).
  apply parseFlags_Ret in Hg. destruct Hg as (-> & Horg & _).
  apply bind_Ret_inv in H. destruct H as (t2 & repos & Hr & H).
  pose proof (fetchRepos_requests _ _ _ _ _ _ Hr) as R.
  apply fetchRepos_Ret in Hr. destruct Hr as [(t0 & L) _].
  destruct (printRepos_run g repos t2) as (t3 & E & _ & R3 & _).
  rewrite E in H. inversion H; subst t3.
  exists t0, (map Fetcher.repo_repo repos). fold org in Horg. rewrite Horg in *.
  split; [exact L|]. rewrite R3, R, map_map. reflexivity.
Qed.

Lemma fetcher_requests_witness :
  let api := Fetcher.mkAPI
               (fun _ _ => inr [mkRepository "A" "org/A" "org" "main"])
               (fun _ _ _ _ => inr []) in
  exists t0 ghRepos,
    Fetcher.Repositories_ListByOrg api t0 "org" = inr ghRepos
    /\ requests [Request (ListByOrg "org");
                 Request (ListMatchingRefs "org" "A" "tags/");
                 Stdout ("github.com/org/A v0.1.0" ++ nl)] =
       (requests [] ++ ListByOrg "org"
          :: map (fun r => ListMatchingRefs "org" (Name r) "tags/") ghRepos)%list.
Proof.
  intros api.
  apply (fetcher_requests insertionSorter api
           (Fetcher.mkCommandLine "minor" false ["org"]) (fun _ => "secret") []).
  vm_compute. reflexivity.
Defined.

Lemma parseFlags_accepts (cl : Fetcher.commandLine) (getenv : string -> string)
    (org : string) (t : trace) :
  Fetcher.flag_args cl = [org] ->
  getenv Fetcher.EnvGithubToken <> EmptyString ->
  validBump (Fetcher.flag_bump cl) ->
  Fetcher.parseFlags cl getenv t =
  (t, Ret (Fetcher.mkGlobals (Fetcher.flag_bump cl) (Fetcher.flag_verbose cl) org
             (getenv Fetcher.EnvGithubToken))).
Proof.
  intros A T V. apply String.eqb_neq in T. apply validBump_eqb in V.
  unfold Fetcher.parseFlags. rewrite Fetcher_parsed. cbv beta.
  unfold bind, noError, ret. rewrite A, T, V. reflexivity.
Qed.

(** X9. For an organization without repositories, [gh-tag-fetcher] sends
    the one request that lists them, prints an empty line and returns. *)
Theorem empty_organization_prints_an_empty_line (sorter : sort.Sorter)
    (api : Fetcher.API) (cl : Fetcher.commandLine) (getenv : string -> string)
    (org : string) (t : trace) :
  Fetcher.flag_args cl = [org] ->
  getenv Fetcher.EnvGithubToken <> EmptyString ->
  validBump (Fetcher.flag_bump cl) ->
  (forall t', Fetcher.Repositories_ListByOrg api t' org = inr []) ->
  exists t',
    Fetcher.main api cl getenv t = (t', Ret tt)
    /\ stdout t' = stdout t ++ nl
    /\ requests t' = (requests t ++ [ListByOrg org])%list.
Proof.
  intros A T V L. unfold Fetcher.main.
  rewrite (bind_run _ _ _ _ _ (parseFlags_accepts cl getenv org t A T V)).
  cbn [Fetcher.org]. set (g := Fetcher.mkGlobals _ _ _ _).
  unfold Fetcher.fetchRepos.
  destruct (log_Println_run g "Fetching repositories (might take a minute)..." t)
    as (t1 & E & R).
  pose proof (quiet_stdout (Fetcher.log_Println g
                "Fetching repositories (might take a minute)...") t) as S1.
  rewrite E in S1. simpl in S1.
  rewrite bind_assoc, (bind_run _ _ _ _ _ E), bind_assoc, bind_ask, L.
  rewrite bind_assoc, bind_checked, bind_ret.
  destruct (printRepos_run g [] (t1 ++ [Request (ListByOrg org)])%list)
    as (t' & E' & _ & R' & S').
  exists t'. split; [exact E'|]. split.
  - rewrite S', stdout_app, S1; simpl.
    + rewrite string_app_nil_r. reflexivity.
    + unfold Fetcher.log_Println. destruct (Fetcher.verbose g);
        [apply quiet_emit; exact I|apply quiet_ret].
  - rewrite R', requests_app, R. reflexivity.
Qed.

Lemma empty_organization_prints_an_empty_line_witness :
  exists t',
    Fetcher.main (sorter := insertionSorter)
      (Fetcher.mkAPI (fun _ _ => inr []) (fun _ _ _ _ => inr []))
      (Fetcher.mkCommandLine "patch" true ["nobody"]) (fun _ => "secret") []
    = (t', Ret tt)
    /\ stdout t' = stdout [] ++ nl
    /\ requests t' = (requests [] ++ [ListByOrg "nobody"])%list.
Proof.
  apply (empty_organization_prints_an_empty_line insertionSorter
           (Fetcher.mkAPI (fun _ _ => inr []) (fun _ _ _ _ => inr []))
           (Fetcher.mkCommandLine "patch" true ["nobody"]) (fun _ => "secret")
           "nobody" []).
  - reflexivity.
  - discriminate.
  - left. reflexivity.
  - reflexivity.
Defined.

Lemma bind_Fatal_inv {A B : Type} (m : M A) (k : A -> M B) (t t' : trace)
    (msg : string) :
  bind m k t = (t', Fatal msg) ->
  m t = (t', Fatal msg)
  \/ exists t1 a, m t = (t1, Ret a) /\ k a t1 = (t', Fatal msg).
Proof.
  unfold bind. destruct (m t) as [t1 [a| | |]]; intros H; try discriminate.
  - right. eauto.
  - left. inversion H. reflexivity.
Qed.

Lemma forM_Fatal_inv {A B : Type} (f : A -> M B) (xs : list A) :
  forall t t' msg, forM xs f t = (t', Fatal msg) ->
  exists x t1, In x xs /\ f x t1 = (t', Fatal msg).
Proof.
  induction xs as [|x xs IH]; intros t t' msg H; simpl in H; [discriminate|].
  apply bind_Fatal_inv in H. destruct H as [H|(t1 & y & Hy & H)].
  - exists x, t. split; [left; reflexivity|exact H].
  - apply bind_Fatal_inv in H. destruct H as [H|(t2 & ys & _ & H)]; [|discriminate].
    destruct (IH _ _ _ H) as (x' & t3 & Hin & Hx').
    exists x', t3. split; [right; exact Hin|exact Hx'].
Qed.

Lemma log_Println_not_Fatal (g : Fetcher.globals) (s : string) (t t' : trace)
    (msg : string) :
  Fetcher.log_Println g s t <> (t', Fatal msg).
Proof.
  unfold Fetcher.log_Println. destruct (Fetcher.verbose g); discriminate.
Qed.

Lemma fetchLatestTag_Fatal {sorter : sort.Sorter} (api : Fetcher.API)
    (g : Fetcher.globals) (org name : string) (t t' : trace) (msg : string) :
  Fetcher.fetchLatestTag api g org name t = (t', Fatal msg) ->
  exists e t0, msg = "Error: " ++ e
               /\ Fetcher.Git_ListMatchingRefs api t0 org name "tags/" = inl e.
Proof.
  unfold Fetcher.fetchLatestTag. intros H.
  apply bind_Fatal_inv in H.
  destruct H as [H|(t1 & [] & _ & H)]; [exfalso; eapply log_Println_not_Fatal; eauto|].
  rewrite bind_ask in H. unfold bind, checked, fatal, stop, ret in H.
  destruct (Fetcher.Git_ListMatchingRefs api t1 org name "tags/") as [e|refs] eqn:E;
    [|destruct (forallb hasRef refs)]; inversion H; subst.
  exists e, t1. split; [reflexivity|exact E].
Qed.

(** X10. When a run of [gh-tag-fetcher] ends in [log.Fatalf], the message
    is either the one of [parseFlags] or the text ["Error: "] followed by
    the error the API returned to one of the two listing calls. *)
Theorem fetcher_fatal_messages (sorter : sort.Sorter) (api : Fetcher.API)
    (cl : Fetcher.commandLine) (getenv : string -> string) (t t' : trace)
    (msg : string) :
  Fetcher.main api cl getenv t = (t', Fatal msg) ->
  let org := nth 0 (Fetcher.flag_args cl) EmptyString in
  Fetcher.parseFlags cl getenv t = (t, Fatal msg)
  \/ exists e t0,
       msg = "Error: " ++ e
       /\ (Fetcher.Repositories_ListByOrg api t0 org = inl e
           \/ exists name, Fetcher.Git_ListMatchingRefs api t0 org name "tags/" = inl e).
Proof.
  intros H. cbv zeta. unfold Fetcher.main in H.
  destruct (parseFlags_cases cl getenv t) as [(g & E & _ & Horg)|(m & E)].
  - right. rewrite (bind_run _ _ _ _ _ E), Horg in H.
    set (org := nth 0 (Fetcher.flag_args cl) EmptyString) in *.
    apply bind_Fatal_inv in H. destruct H as [H|(t1 & repos & _ & H)].
    + unfold Fetcher.fetchRepos in H.
      apply bind_Fatal_inv in H.
      destruct H as [H|(t1 & [] & _ & H)];
        [exfalso; eapply log_Println_not_Fatal; eauto|].
      rewrite bind_ask in H.
      destruct (Fetcher.Repositories_ListByOrg api t1 org) as [e|ghRepos] eqn:L.
      * unfold bind, checked, fatal, stop in H. inversion H; subst.
        exists e, t1. auto.
      * rewrite bind_checked in H. destruct ghRepos as [|gh ghRepos]; [discriminate|].
        apply bind_Fatal_inv in H. destruct H as [H|(t2 & rs & _ & H)].
        -- apply forM_Fatal_inv in H. destruct H as (x & t2 & _ & H).
           apply bind_Fatal_inv in H. destruct H as [H|(t3 & latest & _ & H)].
           ++ apply fetchLatestTag_Fatal in H. destruct H as (e & t0 & -> & H).
              exists e, t0. eauto.
           ++ destruct (Fetcher.bumpVersion latest (Fetcher.bump g)); discriminate.
        -- apply bind_Fatal_inv in H.
           destruct H as [H|(t3 & [] & _ & H)];
             [exfalso; eapply log_Println_not_Fatal; eauto|discriminate].
    + destruct (printRepos_run g repos t1) as (t2 & E2 & _). rewrite E2 in H.
      discriminate.
  - left. unfold bind in H. rewrite E in *. inversion H; subst. reflexivity.
Qed.

Lemma fetcher_fatal_messages_witness :
  let api := Fetcher.mkAPI (fun _ _ => inl "404 Not Found") (fun _ _ _ _ => inr []) in
  let cl := Fetcher.mkCommandLine "minor" false ["nobody"] in
  Fetcher.parseFlags cl (fun _ => "secret") []
  = ([], Fatal "Error: 404 Not Found")
  \/ exists e t0,
       "Error: 404 Not Found" = "Error: " ++ e
       /\ (Fetcher.Repositories_ListByOrg api t0 "nobody" = inl e
           \/ exists name, Fetcher.Git_ListMatchingRefs api t0 "nobody" name "tags/" = inl e).
Proof.
  intros api cl.
  apply (fetcher_fatal_messages insertionSorter api cl (fun _ => "secret") []
           [Request (ListByOrg "nobody")] "Error: 404 Not Found").
  vm_compute. reflexivity.
Defined.

(** ** The selection does not depend on the order of the tags *)

Lemma parseTags_Permutation (refs refs' : list string) :
  Permutation refs refs' ->
  Permutation (Fetcher.parseTags refs) (Fetcher.parseTags refs').
Proof.
  induction 1 as [|x l l' _ IH|x y l|l l' l'' _ IH1 _ IH2]; simpl.
  - constructor.
  - destruct (semver.NewVersion _); [constructor|]; exact IH.
  - destruct (semver.NewVersion (strings_TrimPrefix y _)),
      (semver.NewVersion (strings_TrimPrefix x _));
      try reflexivity. apply perm_swap.
  - eapply Permutation_trans; eauto.
Qed.

Lemma Compare_zero (v w : semver.Version) :
  semver.Compare v w = 0 ->
  semver.major v = semver.major w /\ semver.minor v = semver.minor w
  /\ semver.patch v = semver.patch w
  /\ String.eqb (semver.pre v) EmptyString = String.eqb (semver.pre w) EmptyString.
Proof.
  unfold semver.Compare.
  destruct (Z.eqb_spec (semver.compareSegment (semver.major v) (semver.major w)) 0)
    as [E1|]; simpl; [|congruence].
  destruct (Z.eqb_spec (semver.compareSegment (semver.minor v) (semver.minor w)) 0)
    as [E2|]; simpl; [|congruence].
  destruct (Z.eqb_spec (semver.compareSegment (semver.patch v) (semver.patch w)) 0)
    as [E3|]; simpl; [|congruence].
  apply compareSegment_zero in E1, E2, E3.
  destruct (String.eqb (semver.pre v) EmptyString),
    (String.eqb (semver.pre w) EmptyString); simpl; intros H;
    try discriminate; auto.
Qed.

Lemma bump_of_equals (v w : semver.Version) (b : string) :
  semver.Compare v w = 0 ->
  option_map semver.Version_String (Fetcher.bumpVersion (Some v) b)
  = option_map semver.Version_String (Fetcher.bumpVersion (Some w) b).
Proof.
  intros H. apply Compare_zero in H. destruct H as (E1 & E2 & E3 & E4).
  unfold Fetcher.bumpVersion.
  destruct (String.eqb b "major").
  { simpl. unfold semver.Version_String. simpl. rewrite E1. reflexivity. }
  destruct (String.eqb b "minor").
  { simpl. unfold semver.Version_String. simpl. rewrite E1, E2. reflexivity. }
  destruct (String.eqb b "patch"); [|reflexivity].
  simpl. unfold semver.IncPatch, semver.Version_String. rewrite E4.
  destruct (negb _); simpl; rewrite E1, E2, E3; reflexivity.
Qed.

(** X11. The tag proposed for a repository depends neither on the order in
    which the API lists its tags nor on the algorithm [sort.Sort] runs: two
    selections over the same tags bump to versions printed alike. *)
Theorem proposed_tag_ignores_order (sorter sorter' : sort.Sorter)
    (refs refs' : list string) (b : string) :
  Permutation refs refs' ->
  option_map semver.Version_String
    (Fetcher.bumpVersion
       (Fetcher.latestOf (sorter := sorter) (Fetcher.parseTags refs)) b)
  = option_map semver.Version_String
      (Fetcher.bumpVersion
         (Fetcher.latestOf (sorter := sorter') (Fetcher.parseTags refs')) b).
Proof.
  intros P. apply parseTags_Permutation in P.
  pose proof (latestOf_spec (sorter := sorter) _ (parseTags_good refs)) as S.
  pose proof (latestOf_spec (sorter := sorter') _ (parseTags_good refs')) as S'.
  destruct (Fetcher.latestOf (Fetcher.parseTags refs)) as [v|];
    destruct (Fetcher.latestOf (Fetcher.parseTags refs')) as [w|].
  - destruct S as [Hv Hmax], S' as [Hw Hmax'].
    apply bump_of_equals.
    pose proof (Hmax' v (Permutation_in _ P Hv)).
    pose proof (Hmax w (Permutation_in _ (Permutation_sym P) Hw)).
    pose proof (parseTags_good refs) as G. rewrite Forall_forall in G.
    pose proof (cmp_opp _ _ Compare_TotalPreorder v w (G v Hv)
                  (G w (Permutation_in _ (Permutation_sym P) Hw))). lia.
  - exfalso. rewrite S' in P. apply Permutation_sym, Permutation_nil in P.
    destruct S as [Hv _]. rewrite P in Hv. contradiction.
  - exfalso. rewrite S in P. apply Permutation_nil in P.
    destruct S' as [Hw _]. rewrite P in Hw. contradiction.
  - reflexivity.
Qed.

Lemma proposed_tag_ignores_order_witness :
  option_map semver.Version_String
    (Fetcher.bumpVersion
       (Fetcher.latestOf (sorter := insertionSorter)
          (Fetcher.parseTags ["refs/tags/v1.1.0"; "refs/tags/1.1.0+build"])) "minor")
  = option_map semver.Version_String
      (Fetcher.bumpVersion
         (Fetcher.latestOf (sorter := insertionSorter)
            (Fetcher.parseTags ["refs/tags/1.1.0+build"; "refs/tags/v1.1.0"])) "minor").
Proof.
  apply (proposed_tag_ignores_order insertionSorter insertionSorter
           ["refs/tags/v1.1.0"; "refs/tags/1.1.0+build"]
           ["refs/tags/1.1.0+build"; "refs/tags/v1.1.0"] "minor").
  apply perm_swap.
Defined.

(* ================================================================== *)
(** * More on [gh-tag-creator] *)
(* ================================================================== *)

Lemma Split_without (sep : ascii) (s : string) :
  without sep s = true -> strings_Split s sep = [s].
Proof.
  unfold without. induction s as [|c s IH]; [reflexivity|].
  simpl. intros H. apply andb_true_iff in H. destruct H as [Hc Hs].
  apply negb_true_iff in Hc. rewrite Hc, (IH Hs). reflexivity.
Qed.

Lemma Split_app (sep : ascii) (a b : string) :
  without sep a = true ->
  strings_Split (a ++ String sep b) sep = a :: strings_Split b sep.
Proof.
  unfold without. induction a as [|c a IH]; simpl.
  - intros _. rewrite Ascii.eqb_refl. reflexivity.
  - intros H. apply andb_true_iff in H. destruct H as [Hc Ha].
    apply negb_true_iff in Hc. rewrite Hc, (IH Ha). reflexivity.
Qed.

Lemma without_app (c : ascii) (a b : string) :
  without c (a ++ b) = without c a && without c b.
Proof.
  unfold without. induction a as [|x a IH]; simpl; [reflexivity|].
  rewrite IH. apply andb_assoc.
Qed.

(** What [fetchRepos] reads in a line [github.com/<org>/<name> <tag>]. *)
Lemma lineFields_hosted (org name tag : string) :
  without " " org = true -> without "/" org = true ->
  without " " name = true -> without "/" name = true ->
  without " " tag = true ->
  let line := "github.com/" ++ org ++ "/" ++ name ++ " " ++ tag in
  acceptedLine line = true /\ lineFields line = (org, name, tag).
Proof.
  intros So Lo Sn Ln St line.
  assert (T : strings_Split line " "%char = ["github.com/" ++ org ++ "/" ++ name; tag]).
  { subst line.
    replace ("github.com/" ++ org ++ "/" ++ name ++ " " ++ tag)
      with (("github.com/" ++ org ++ "/" ++ name) ++ String " "%char tag)
      by (rewrite !string_app_assoc; reflexivity).
    rewrite Split_app, (Split_without _ tag St); [reflexivity|].
    rewrite !without_app, So, Sn. reflexivity. }
  assert (U : strings_Split (org ++ "/" ++ name) "/"%char = [org; name]).
  { change (org ++ "/" ++ name) with (org ++ String "/"%char name).
    rewrite (Split_app _ _ _ Lo), (Split_without _ name Ln). reflexivity. }
  unfold acceptedLine, lineFields. rewrite T. cbn [nth List.length Nat.eqb andb].
  rewrite TrimPrefix_app, U. split; reflexivity.
Qed.

Lemma fetchRepo_reads (api : Creator.API) (g : Creator.globals)
    (line : string) (t : trace) :
  acceptedLine line = true ->
  let '(org, name, tag) := lineFields line in
  let t1 := fst (Creator.log_Printf g ("Fetching info for " ++ org ++ "/" ++ name) t) in
  Creator.fetchRepo api g line t =
  ((t1 ++ [Request (RepositoriesGet org name)])%list,
   match Creator.Repositories_Get api t1 org name with
   | inl e => Fatal ("Error: " ++ e)
   | inr r => Ret (Creator.mkRepo r tag)
   end).
Proof.
  unfold acceptedLine, lineFields, Creator.fetchRepo. intros A.
  apply andb_true_iff in A. destruct A as [A1 A2]. rewrite A1, A2. cbn [negb].
  unfold Creator.log_Printf, bind, ret, ask, emit, checked, fatal, stop.
  destruct (Creator.verbose g); cbn [fst];
    match goal with
    | |- context [Creator.Repositories_Get ?a ?t ?o ?n] =>
        destruct (Creator.Repositories_Get a t o n)
    end; reflexivity.
Qed.

(** X12. In an input line [github.com/<org>/<name> <tag>] whose fields
    contain neither a space nor (for the first two) a slash,
    [gh-tag-creator] reads the owner, the repository and the tag as
    written: it asks the API for that repository and, on an answer, pairs
    the repository with the tag; on an error the run ends with it. *)
Theorem creator_reads_a_line (api : Creator.API) (g : Creator.globals)
    (org name tag : string) (t : trace) :
  without " " org = true -> without "/" org = true ->
  without " " name = true -> without "/" name = true ->
  without " " tag = true ->
  let line := "github.com/" ++ org ++ "/" ++ name ++ " " ++ tag in
  let t1 := fst (Creator.log_Printf g ("Fetching info for " ++ org ++ "/" ++ name) t) in
  Creator.fetchRepo api g line t =
  ((t1 ++ [Request (RepositoriesGet org name)])%list,
   match Creator.Repositories_Get api t1 org name with
   | inl e => Fatal ("Error: " ++ e)
   | inr r => Ret (Creator.mkRepo r tag)
   end).
Proof.
  intros So Lo Sn Ln St line t1.
  destruct (lineFields_hosted org name tag So Lo Sn Ln St) as [A F].
  pose proof (fetchRepo_reads api g ("github.com/" ++ org ++ "/" ++ name ++ " " ++ tag)
                t A) as R.
  rewrite F in R. exact R.
Qed.

Lemma creator_reads_a_line_witness :
  let api := Creator.mkAPI
               (fun _ owner name => inr (mkRepository name (owner ++ "/" ++ name) owner "main"))
               (fun _ _ _ _ => inr (mkCommit "0123abc"))
               (fun _ _ _ ref => inr ref)
               (fun _ => inr "y"%char) in
  Creator.fetchRepo api (Creator.mkGlobals false true "secret")
    ("github.com/" ++ "conduitio" ++ "/" ++ "conduit" ++ " " ++ "v0.4.0") []
  = ([Request (RepositoriesGet "conduitio" "conduit")],
     Ret (Creator.mkRepo
            (mkRepository "conduit" "conduitio/conduit" "conduitio" "main") "v0.4.0")).
Proof.
  intros api.
  apply (creator_reads_a_line api (Creator.mkGlobals false true "secret")
           "conduitio" "conduit" "v0.4.0" []); reflexivity.
Defined.

Lemma is_digit_not (c d : ascii) :
  is_digit d = false -> forall s, all_digits s = true -> without d s = true.
Proof.
  intros Hd. unfold without. induction s as [|x s IH]; [reflexivity|].
  simpl. intros H. apply andb_true_iff in H. destruct H as [Hx Hs].
  rewrite (IH Hs), andb_true_r.
  destruct (Ascii.eqb_spec x d) as [->|]; [congruence|reflexivity].
Qed.

Lemma versionToString_without_space (v : semver.Version) :
  wellFormed v -> semver.pre v = EmptyString -> semver.metadata v = EmptyString ->
  without " " (Fetcher.versionToString (Some v)) = true.
Proof.
  intros W Hp Hm. rewrite (versionToString_segments v Hp Hm).
  destruct (format_uint_spec _ (wf_major v W)) as (_ & Ad & _).
  destruct (format_uint_spec _ (wf_minor v W)) as (_ & Bd & _).
  destruct (format_uint_spec _ (wf_patch v W)) as (_ & Cd & _).
  rewrite !without_app.
  rewrite (is_digit_not " " " " eq_refl _ Ad), (is_digit_not " " " " eq_refl _ Bd),
    (is_digit_not " " " " eq_refl _ Cd). reflexivity.
Qed.

(** X13. The two tools compose: the line [gh-tag-fetcher] prints for a
    repository with full name [<org>/<name>] (no space or slash inside the
    two names) is a line [gh-tag-creator] accepts, and it reads in it that
    owner, that repository and the proposed tag. *)
Theorem fetcher_lines_are_accepted (sorter : sort.Sorter) (refs : list string)
    (b org name : string) (new : semver.Version) (full : Repository) :
  without " " org = true -> without "/" org = true ->
  without " " name = true -> without "/" name = true ->
  FullName full = org ++ "/" ++ name ->
  Fetcher.bumpVersion (Fetcher.latestOf (Fetcher.parseTags refs)) b = Some new ->
  forall latest line,
    Fetcher.reposToStdOutput [Fetcher.mkRepo full latest new] = [line] ->
    acceptedLine line = true
    /\ lineFields line = (org, name, Fetcher.versionToString (Some new)).
Proof.
  intros So Lo Sn Ln F B latest line L.
  unfold Fetcher.reposToStdOutput in L. simpl in L. inversion L as [L']. clear L L'.
  rewrite F.
  destruct (bumpVersion_clears _ _ _ B) as [Hp Hm].
  assert (W : wellFormed new).
  { rewrite bumpVersion_start in B. eapply bumpVersion_wellFormed; [|exact B].
    destruct (Fetcher.latestOf _) as [v|] eqn:E;
      [eapply latestOf_wellFormed; eauto|apply zero_wellFormed]. }
  pose proof (lineFields_hosted org name (Fetcher.versionToString (Some new))
                So Lo Sn Ln (versionToString_without_space new W Hp Hm)) as R.
  cbv zeta in R. rewrite !string_app_assoc in *. exact R.
Qed.

Lemma fetcher_lines_are_accepted_witness :
  acceptedLine "github.com/conduitio/conduit v0.1.0" = true
  /\ lineFields "github.com/conduitio/conduit v0.1.0"
     = ("conduitio", "conduit",
        Fetcher.versionToString (Some (semver.mkVersion 0 1 0 "" "" "v0.1.0"))).
Proof.
  apply (fetcher_lines_are_accepted insertionSorter [] "minor" "conduitio" "conduit"
           (semver.mkVersion 0 1 0 "" "" "v0.1.0")
           (mkRepository "conduit" "conduitio/conduit" "conduitio" "main")
           eq_refl eq_refl eq_refl eq_refl eq_refl eq_refl None
           "github.com/conduitio/conduit v0.1.0").
  reflexivity.
Defined.

(** X14. Once [flag.Parse] has accepted the command line, [gh-tag-creator]
    ends in [log.Fatalf] before any event when the token is not set, and,
    with a token, when standard input is empty. *)
Theorem creator_needs_token_and_input (api : Creator.API)
    (Reference_String : Reference -> string) (cl : Creator.commandLine)
    (getenv : string -> string) (input : list string) (t : trace) :
  (getenv Creator.EnvGithubToken = EmptyString ->
   Creator.main api Reference_String cl getenv input t
   = (t, Fatal "Error: environment variable not set: GITHUB_TOKEN"))
  /\ (getenv Creator.EnvGithubToken <> EmptyString -> input = [] ->
      Creator.main api Reference_String cl getenv input t
      = (t, Fatal "Error: no input")).
Proof.
  unfold Creator.main, Creator.parseFlags. rewrite Creator_parsed. cbv beta. split.
  - intros E. rewrite E. reflexivity.
  - intros E ->. apply String.eqb_neq in E. unfold bind, noError, ret.
    rewrite E. reflexivity.
Qed.

Lemma creator_needs_token_and_input_witness :
  Creator.main
    (Creator.mkAPI (fun _ _ _ => inl "unused") (fun _ _ _ _ => inl "unused")
                   (fun _ _ _ _ => inl "unused") (fun _ => inl "unused"))
    Ref (Creator.mkCommandLine false false) (fun _ => "secret") [] []
  = ([], Fatal "Error: no input").
Proof.
  apply (proj2 (creator_needs_token_and_input
                  (Creator.mkAPI (fun _ _ _ => inl "unused") (fun _ _ _ _ => inl "unused")
                     (fun _ _ _ _ => inl "unused") (fun _ => inl "unused"))
                  Ref (Creator.mkCommandLine false false) (fun _ => "secret") [] []));
    [discriminate|reflexivity].
Defined.

(** One turn of the loop of [createTags]: the request for the ref of the
    repository is the only ref-creating request it can send, and it has
    sent it when it returns. *)
Lemma createTag_cases (api : Creator.API) (Reference_String : Reference -> string)
    (g : Creator.globals) (r : Creator.repo) (t : trace) :
  exists t' o,
    Creator.createTag api Reference_String g r t = (t', o)
    /\ ((o = Ret tt /\ sentRefs t' = (sentRefs t ++ [wantedRef r])%list)
        \/ (exists msg, o = Fatal msg
                        /\ (sentRefs t' = sentRefs t
                            \/ sentRefs t' = (sentRefs t ++ [wantedRef r])%list))).
Proof.
  unfold Creator.createTag, Creator.log_Printf.
  unfold bind, emit, ask, checked, ret, fatal, stop.
  destruct (Creator.Repositories_GetCommit api t _ _ _) as [err|commit].
  - eexists. eexists. split; [reflexivity|]. right. eexists. split; [reflexivity|].
    left. rewrite sentRefs_app. simpl. apply app_nil_r.
  - destruct (Creator.verbose g);
      match goal with
      | |- context [Creator.Git_CreateRef ?a ?t ?o ?n ?ref] =>
          destruct (Creator.Git_CreateRef a t o n ref)
      end;
      eexists; eexists; (split; [reflexivity|]);
      [right; eexists; split; [reflexivity|right]
      |left; split; [reflexivity|]
      |right; eexists; split; [reflexivity|right]
      |left; split; [reflexivity|]];
      rewrite !sentRefs_app; simpl; rewrite ?app_nil_r; reflexivity.
Qed.

(** The loop of [createTags] stops at the first failure, having sent the
    requests of the repositories before it. *)
Lemma forM_createTag_sends (api : Creator.API)
    (Reference_String : Reference -> string) (g : Creator.globals)
    (repos : list Creator.repo) :
  forall t, exists k,
    (k <= List.length repos)%nat
    /\ sentRefs (fst (forM repos (Creator.createTag api Reference_String g) t))
       = (sentRefs t ++ map wantedRef (firstn k repos))%list
    /\ match snd (forM repos (Creator.createTag api Reference_String g) t) with
       | Ret _ => k = List.length repos
       | Fatal _ => True
       | Exit _ | Panic _ => False
       end.
Proof.
  induction repos as [|r repos IH]; intros t0.
  - exists 0%nat. simpl. rewrite app_nil_r. auto.
  - simpl forM.
    destruct (createTag_cases api Reference_String g r t0)
      as (t1 & o & E & [[-> HS]|(msg & -> & [HS|HS])]).
    + destruct (IH t1) as (k & Hk & Hs & Ho). exists (S k).
      rewrite !(bind_run _ _ _ _ _ E). unfold bind.
      destruct (forM repos (Creator.createTag api Reference_String g) t1)
        as [t2 [ys| | |]]; simpl in *;
        (split; [lia|]); rewrite Hs, HS, <- app_assoc;
        (split; [reflexivity|try lia; auto]).
    + exists 0%nat. unfold bind. rewrite E. simpl.
      rewrite HS, app_nil_r. split; [lia|auto].
    + exists 1%nat. unfold bind. rewrite E. simpl.
      rewrite HS. split; [lia|]. destruct repos; auto.
Qed.

(** X15. [createTags] stops at the first failure: in every run it has sent
    the ref-creating requests of the first repositories of its list, in
    order, each for [refs/tags/<tag>] in the repository of its owner, and
    no other; it has sent them all when it returns; and it returns or ends
    in [log.Fatalf]. *)
Theorem createTags_creates_a_prefix (api : Creator.API)
    (Reference_String : Reference -> string) (g : Creator.globals)
    (repos : list Creator.repo) (t : trace) :
  exists k,
    (k <= List.length repos)%nat
    /\ sentRefs (fst (Creator.createTags api Reference_String g repos t))
       = (sentRefs t ++ map wantedRef (firstn k repos))%list
    /\ match snd (Creator.createTags api Reference_String g repos t) with
       | Ret _ => k = List.length repos
       | Fatal _ => True
       | Exit _ | Panic _ => False
       end.
Proof.
  unfold Creator.createTags.
  destruct (forM_createTag_sends api Reference_String g repos t)
    as (k & Hk & Hs & Ho).
  exists k. unfold bind.
  destruct (forM repos (Creator.createTag api Reference_String g) t)
    as [t' [ys| | |]]; simpl in *; auto.
Qed.

Lemma confirm_refused (api : Creator.API) (g : Creator.globals)
    (repos : list Creator.repo) (t : trace) :
  Creator.yes g = false ->
  (forall t', Creator.tty_Read api t' <> inr "y"%char
              /\ Creator.tty_Read api t' <> inr "Y"%char) ->
  exists t' msg,
    Creator.confirm api g repos t = (t', Fatal msg)
    /\ createdRefs t' = createdRefs t.
Proof.
  intros Y N. unfold Creator.confirm. rewrite Y.
  unfold bind, emit, ask, checked, noError, fatal, stop, ret.
  match goal with
  | |- context [Creator.tty_Read api ?t0] =>
      destruct (N t0) as [N1 N2]; destruct (Creator.tty_Read api t0) as [e|c]
  end.
  - eexists. eexists. split; [reflexivity|].
    rewrite !createdRefs_app. simpl. rewrite !app_nil_r. reflexivity.
  - destruct (Ascii.eqb_spec c "y"%char) as [->|]; [congruence|].
    destruct (Ascii.eqb_spec c "Y"%char) as [->|]; [congruence|].
    simpl. eexists. eexists. split; [reflexivity|].
    rewrite !createdRefs_app. simpl. rewrite !app_nil_r. reflexivity.
Qed.

(** X16. On a command line that [flag.Parse] accepts without [-yes],
    [gh-tag-creator] creates nothing unless the byte read from the terminal
    is [y] or [Y]: when the terminal answers anything else, or fails, every
    run ends in [log.Fatalf] without a ref-creating request. *)
Theorem creator_creates_nothing_unconfirmed (api : Creator.API)
    (Reference_String : Reference -> string) (cl : Creator.commandLine)
    (getenv : string -> string) (input : list string) (t : trace) :
  Creator.flag_yes cl = false ->
  (forall t', Creator.tty_Read api t' <> inr "y"%char
              /\ Creator.tty_Read api t' <> inr "Y"%char) ->
  (exists msg,
      snd (Creator.main api Reference_String cl getenv input t) = Fatal msg)
  /\ createdRefs (fst (Creator.main api Reference_String cl getenv input t))
     = createdRefs t.
Proof.
  intros Y N.
  assert (Main : exists t' msg,
             Creator.main api Reference_String cl getenv input t = (t', Fatal msg)
             /\ createdRefs t' = createdRefs t).
  { unfold Creator.main, Creator.parseFlags. rewrite Creator_parsed. cbv beta.
    destruct (String.eqb (getenv Creator.EnvGithubToken) EmptyString).
    { eexists. eexists. split; reflexivity. }
    cbv iota. repeat (rewrite bind_assoc || rewrite bind_ret).
    destruct (List.length input =? 0)%nat.
    { eexists. eexists. split; reflexivity. }
    cbv iota. rewrite bind_ret.
    set (g := Creator.mkGlobals _ _ _).
    pose proof (quiet_createdRefs (Creator.fetchRepos api g input) t
                  (quiet_forM input _ (fetchRepo_quiet api g))) as Hc.
    assert (M : mild (Creator.fetchRepos api g input)).
    { apply mild_forM. intros line t0.
      destruct (fetchRepo_outcome api g line t0) as (t' & o & E & _ & HE & HP).
      rewrite E. destruct o; simpl; auto; [eapply HE|eapply HP]; reflexivity. }
    specialize (M t).
    destruct (Creator.fetchRepos api g input t) as [t1 [repos|msg| |]] eqn:E1;
      simpl in Hc, M; try contradiction.
    - rewrite (bind_run _ _ _ _ _ E1).
      destruct (confirm_refused api g repos t1 Y N) as (t2 & msg & E & Hc2).
      exists t2, msg. unfold bind. rewrite E. split; [reflexivity|congruence].
    - exists t1, msg. unfold bind. rewrite E1. split; [reflexivity|exact Hc]. }
  destruct Main as (t' & msg & E & Hc). rewrite E. simpl. eauto.
Qed.

Lemma creator_creates_nothing_unconfirmed_witness :
  let api := Creator.mkAPI
               (fun _ owner name => inr (mkRepository name (owner ++ "/" ++ name) owner "main"))
               (fun _ _ _ _ => inr (mkCommit "0123abc"))
               (fun _ _ _ ref => inr ref)
               (fun _ => inr "n"%char) in
  let run := Creator.main api Ref (Creator.mkCommandLine false false)
               (fun _ => "secret") ["github.com/conduitio/conduit v0.4.0"] [] in
  (exists msg, snd run = Fatal msg) /\ createdRefs (fst run) = createdRefs [].
Proof.
  intros api run.
  apply (creator_creates_nothing_unconfirmed api Ref (Creator.mkCommandLine false false)
           (fun _ => "secret") ["github.com/conduitio/conduit v0.4.0"] []).
  - reflexivity.
  - intros t'. split; discriminate.
Defined.

Lemma confirm_createdRefs (api : Creator.API) (g : Creator.globals)
    (repos : list Creator.repo) (t : trace) :
  createdRefs (fst (Creator.confirm api g repos t)) = createdRefs t.
Proof.
  unfold Creator.confirm. destruct (Creator.yes g); [reflexivity|].
  unfold bind, emit, ask, checked, noError, fatal, stop, ret.
  match goal with
  | |- context [Creator.tty_Read api ?t0] =>
      destruct (Creator.tty_Read api t0) as [e|c]
  end.
  - simpl. rewrite !createdRefs_app. simpl. rewrite !app_nil_r. reflexivity.
  - destruct (negb (Ascii.eqb c "y") && negb (Ascii.eqb c "Y"))%bool;
      simpl; rewrite !createdRefs_app; simpl; rewrite !app_nil_r; reflexivity.
Qed.

(** X17. A run of [gh-tag-creator] that returns has accepted every input
    line and has sent exactly one ref-creating request per line, in the
    order of the input: for the ref [refs/tags/<tag>] of the tag read in the
    line, in the repository (owner login and name) that the API returned
    for the owner and the name read in the line. *)
Theorem creator_tags_every_line (api : Creator.API)
    (Reference_String : Reference -> string) (cl : Creator.commandLine)
    (getenv : string -> string) (input : list string) (t t' : trace) :
  Creator.main api Reference_String cl getenv input t = (t', Ret tt) ->
  exists repos,
    Forall2 (fun line r =>
               acceptedLine line = true
               /\ Creator.tag r = snd (lineFields line)
               /\ exists t0,
                    Creator.Repositories_Get api t0 (fst (fst (lineFields line)))
                                             (snd (fst (lineFields line)))
                    = inr (Creator.repo_repo r))
            input repos
    /\ sentRefs t' = (sentRefs t ++ map wantedRef repos)%list.
Proof.
  unfold Creator.main. intros H.
  apply bind_Ret_inv in H as (t1 & g & Hg & H).
  assert (t1 = t) as ->.
  { unfold Creator.parseFlags in Hg. rewrite Creator_parsed in Hg. cbv beta in Hg.
    destruct (String.eqb (getenv Creator.EnvGithubToken) EmptyString);
      inversion Hg; reflexivity. }
  apply bind_Ret_inv in H as (t2 & [] & Hi & H).
  assert (t2 = t) as ->.
  { destruct (List.length input =? 0)%nat; inversion Hi; reflexivity. }
  apply bind_Ret_inv in H as (t3 & repos & Hf & H).
  apply bind_Ret_inv in H as (t4 & [] & Hc & H).
  exists repos. split.
  - apply forM_Ret_inv in Hf. clear - Hf.
    induction Hf as [|line r input repos (t1 & t2 & E) _ IH]; constructor; auto.
    destruct (fetchRepo_outcome api g line t1) as (t' & o & E' & Ha & _).
    rewrite E in E'. inversion E'; subst o t'. specialize (Ha r eq_refl).
    split; [exact Ha|].
    pose proof (fetchRepo_reads api g line t1 Ha) as R.
    destruct (lineFields line) as [[org name] tag]. cbv zeta in R. simpl.
    rewrite E in R. inversion R as [[Ht Ho]].
    match type of Ho with
    | context [Creator.Repositories_Get api ?t0 org name] =>
        destruct (Creator.Repositories_Get api t0 org name) as [e|gr] eqn:G;
        [discriminate|]; inversion Ho; subst r; simpl; split; [reflexivity|];
        exists t0; exact G
    end.
  - pose proof (quiet_createdRefs (Creator.fetchRepos api g input) t
                  (quiet_forM input _ (fetchRepo_quiet api g))) as Q.
    rewrite Hf in Q. simpl in Q.
    pose proof (confirm_createdRefs api g repos t3) as Q'.
    rewrite Hc in Q'. simpl in Q'.
    unfold Creator.createTags in H.
    apply bind_Ret_inv in H as (t5 & ys & HT & H). inversion H; subst t5.
    destruct (forM_createTag_sends api Reference_String g repos t4)
      as (k & Hk & Hs & Ho).
    rewrite HT in Hs, Ho. simpl in Hs, Ho. subst k.
    rewrite firstn_all in Hs. rewrite Hs. unfold sentRefs at 1 2.
    rewrite Q', Q. reflexivity.
Qed.

Lemma creator_tags_every_line_witness :
  let api := Creator.mkAPI
               (fun _ owner name => inr (mkRepository name (owner ++ "/" ++ name) owner "main"))
               (fun _ _ _ _ => inr (mkCommit "0123abc"))
               (fun _ _ _ ref => inr ref)
               (fun _ => inl "no terminal") in
  let input := ["github.com/conduitio/conduit v0.4.0";
                "github.com/conduitio/conduit-commons v0.1.0"] in
  let run := Creator.main api Ref (Creator.mkCommandLine false true)
               (fun _ => "secret") input [] in
  exists repos,
    Forall2 (fun line r =>
               acceptedLine line = true
               /\ Creator.tag r = snd (lineFields line)
               /\ exists t0,
                    Creator.Repositories_Get api t0 (fst (fst (lineFields line)))
                                             (snd (fst (lineFields line)))
                    = inr (Creator.repo_repo r))
            input repos
    /\ sentRefs (fst run) = (sentRefs [] ++ map wantedRef repos)%list.
Proof.
  intros api input run.
  apply (creator_tags_every_line api Ref (Creator.mkCommandLine false true)
           (fun _ => "secret") input [] (fst run)).
  vm_compute. reflexivity.
Defined.

(* ================================================================== *)
(** * More on the interactive variant *)
(* ================================================================== *)

Lemma mild_orderly {A : Type} (m : M A) : mild m -> orderly m.
Proof. intros H t. specialize (H t). destruct (snd (m t)); auto; contradiction. Qed.

Lemma orderly_bind {A B : Type} (m : M A) (k : A -> M B) :
  orderly m -> (forall a, orderly (k a)) -> orderly (bind m k).
Proof.
  intros Hm Hk t. unfold bind. specialize (Hm t).
  destruct (m t) as [t1 [a| | |]]; simpl in *; auto. apply Hk.
Qed.

Lemma barren_bind_l {A B : Type} (m : M A) (k : A -> M B) :
  barren m -> barren (bind m k).
Proof.
  intros Hm t. unfold bind. destruct (Hm t) as [Hc Hr].
  destruct (m t) as [t1 [a| | |]]; simpl in *;
    [exfalso; apply (Hr a); reflexivity| | |]; split; auto; discriminate.
Qed.

Lemma barren_bind_r {A B : Type} (m : M A) (k : A -> M B) :
  quiet m -> (forall a, barren (k a)) -> barren (bind m k).
Proof.
  intros Hm Hk t. unfold bind. pose proof (quiet_createdRefs m t Hm) as Hc.
  destruct (m t) as [t1 [a| | |]]; simpl in *;
    [|split; auto; discriminate..].
  destruct (Hk a t1) as [Hc' Hr]. split; [congruence|exact Hr].
Qed.

(** The bump kind of the interactive variant is a constant, and a valid
    one. *)
Lemma session_bumpVersion (latest : option semver.Version) :
  Interactive.bumpVersion latest Interactive.bump
  = Some (semver.IncMinor match latest with
                          | Some v => v
                          | None => semver.mkVersion 0 0 0 "" "" "v0.0.0"
                          end).
Proof. destruct latest; reflexivity. Qed.

Lemma session_fetchRepo_quiet {sorter : sort.Sorter} (console : Interactive.Console)
    (org : string) (ghr : Repository) :
  quiet (Interactive.fetchRepo console org ghr).
Proof.
  unfold Interactive.fetchRepo, Interactive.fetchLatestTag.
  apply quiet_bind; [apply quiet_emit; exact I|]. intros _.
  apply quiet_bind.
  { apply quiet_bind; [apply quiet_ask; exact I|]. intros r.
    apply quiet_bind; [apply quiet_checked|]. intros refs.
    apply quiet_bind; [|intros _; apply quiet_ret].
    destruct (forallb hasRef refs); [apply quiet_ret|apply quiet_stop]. }
  intros latest. rewrite session_bumpVersion.
  apply quiet_bind; [apply quiet_emit; exact I|]. intros _. apply quiet_ret.
Qed.

Lemma session_fetchRepos_quiet {sorter : sort.Sorter} (console : Interactive.Console)
    (org : string) :
  quiet (Interactive.fetchRepos console org).
Proof.
  unfold Interactive.fetchRepos.
  apply quiet_bind; [apply quiet_emit; exact I|]. intros _.
  apply quiet_bind; [apply quiet_ask; exact I|]. intros r.
  apply quiet_bind; [apply quiet_checked|]. intros [|ghr ghRepos];
    [apply quiet_ret|].
  apply quiet_bind; [apply quiet_ask; exact I|]. intros e.
  apply quiet_bind; [apply quiet_noError|]. intros _.
  apply quiet_bind;
    [apply quiet_forM; intros x; apply session_fetchRepo_quiet|]. intros repos.
  apply quiet_bind; [apply quiet_ask; exact I|]. intros e'.
  apply quiet_bind; [apply quiet_noError|]. intros _.
  apply quiet_bind; [apply quiet_emit; exact I|]. intros _. apply quiet_ret.
Qed.

Lemma session_fetchRepos_mild {sorter : sort.Sorter} (console : Interactive.Console)
    (org : string) :
  allRefsSet (Interactive.Git_ListMatchingRefs console) ->
  mild (Interactive.fetchRepos console org).
Proof.
  intros HR. unfold Interactive.fetchRepos.
  apply mild_bind; [apply mild_emit|]. intros _.
  apply mild_bind; [apply mild_ask|]. intros r.
  apply mild_bind; [apply mild_checked|]. intros [|ghr ghRepos];
    [apply mild_ret|].
  apply mild_bind; [apply mild_ask|]. intros e.
  apply mild_bind; [apply mild_noError|]. intros _.
  apply mild_bind.
  { apply mild_forM. intros x.
    unfold Interactive.fetchRepo, Interactive.fetchLatestTag.
    apply mild_bind; [apply mild_emit|]. intros _.
    apply mild_bind.
    { apply mild_ask_bind. intros t0. apply mild_parse_refs. exact HR. }
    intros latest. rewrite session_bumpVersion.
    apply mild_bind; [apply mild_emit|]. intros _. apply mild_ret. }
  intros repos.
  apply mild_bind; [apply mild_ask|]. intros e'.
  apply mild_bind; [apply mild_noError|]. intros _.
  apply mild_bind; [apply mild_emit|]. intros _. apply mild_ret.
Qed.

Lemma session_filter_quiet (console : Interactive.Console)
    (repos : list Interactive.repo) :
  quiet (Interactive.filter console repos).
Proof.
  unfold Interactive.filter.
  apply quiet_bind; [apply quiet_ask; exact I|]. intros a.
  apply quiet_bind; [apply quiet_checked|]. intros sel. apply quiet_ret.
Qed.

Lemma session_filter_mild (console : Interactive.Console)
    (repos : list Interactive.repo) :
  mild (Interactive.filter console repos).
Proof.
  unfold Interactive.filter.
  apply mild_bind; [apply mild_ask|]. intros a.
  apply mild_bind; [apply mild_checked|]. intros sel. apply mild_ret.
Qed.

Lemma session_createTags_mild (api : Interactive.API)
    (repos : list Interactive.repo) :
  mild (Interactive.createTags api repos).
Proof.
  unfold Interactive.createTags.
  apply mild_bind; [|intros; apply mild_ret].
  apply mild_forM. intros r. unfold Interactive.createTag.
  apply mild_bind; [apply mild_emit|]. intros _.
  apply mild_bind; [apply mild_ask|]. intros a.
  apply mild_bind; [apply mild_checked|]. intros commit.
  apply mild_bind; [apply mild_ask|]. intros a'.
  apply mild_bind; [apply mild_checked|]. intros confirm.
  apply mild_bind; [destruct confirm; [apply mild_ret|apply mild_emit]|]. intros _.
  apply mild_bind; [apply mild_ask|]. intros a''.
  apply mild_bind; [apply mild_checked|]. intros ref. apply mild_emit.
Qed.

Lemma session_confirm_orderly (console : Interactive.Console) :
  orderly (Interactive.confirm console).
Proof.
  unfold Interactive.confirm.
  apply orderly_bind; [apply mild_orderly, mild_ask|]. intros a.
  apply orderly_bind; [apply mild_orderly, mild_checked|]. intros text.
  destruct (negb (String.eqb text Interactive.DoIt)).
  - intros t. reflexivity.
  - apply mild_orderly, mild_ret.
Qed.

(** X18. As long as the API lists no reference without its [ref] field, a
    run of the interactive variant never panics, and it leaves through
    [os.Exit] only with status 1: the panic of [bumpVersion] cannot be
    reached, the bump kind being the constant [minor]. *)
Theorem interactive_never_panics (sorter : sort.Sorter) (api : Interactive.API)
    (console : Interactive.Console) (getenv : string -> string) (t : trace) :
  allRefsSet (Interactive.Git_ListMatchingRefs console) ->
  match snd (Interactive.main api console getenv t) with
  | Ret _ | Fatal _ => True
  | Exit code => code = 1
  | Panic _ => False
  end.
Proof.
  intros HR.
  revert t. change (orderly (Interactive.main api console getenv)).
  unfold Interactive.main.
  apply orderly_bind.
  { destruct (String.eqb _ _); intros t; exact I. }
  intros _.
  apply orderly_bind; [apply mild_orderly, session_fetchRepos_mild, HR|].
  intros repos. apply orderly_bind; [apply mild_orderly, session_filter_mild|].
  intros repos'. apply orderly_bind.
  { destruct (_ =? _)%nat; intros t; reflexivity. }
  intros _. apply orderly_bind; [apply session_confirm_orderly|].
  intros _. apply mild_orderly, session_createTags_mild.
Qed.

Lemma interactive_never_panics_witness :
  let api := Interactive.mkAPI
               (fun _ _ _ _ => inr (mkCommit "0123abc"))
               (fun _ _ _ ref => inr ref)
               (fun _ _ => inr true) in
  let console := Interactive.mkConsole
               (fun _ _ => inr [mkRepository "conduit" "conduitio/conduit" "conduitio" "main"])
               (fun _ _ _ _ => inr [mkReference "refs/tags/v0.3.0" "abc"])
               (fun _ => None) (fun _ => None)
               (fun _ opts _ => inr opts)
               (fun _ _ => inr "no") in
  match snd (Interactive.main (sorter := insertionSorter) api console
               (fun _ => "secret") []) with
  | Ret _ | Fatal _ => True
  | Exit code => code = 1
  | Panic _ => False
  end.
Proof.
  intros api console.
  apply (interactive_never_panics insertionSorter api console (fun _ => "secret") []).
  intros t owner repo ref refs E. inversion E. reflexivity.
Defined.

(** X19. The interactive variant creates nothing unless the words [DO IT]
    are typed at the last confirmation: when the text input answers
    anything else, or fails, no run returns and no run sends a ref-creating
    request. *)
Theorem interactive_creates_nothing_without_DO_IT (sorter : sort.Sorter)
    (api : Interactive.API) (console : Interactive.Console)
    (getenv : string -> string) (t : trace) :
  (forall t', Interactive.InteractiveTextInput_Show console t' Interactive.confirmText
              <> inr Interactive.DoIt) ->
  createdRefs (fst (Interactive.main api console getenv t)) = createdRefs t
  /\ snd (Interactive.main api console getenv t) <> Ret tt.
Proof.
  intros N.
  assert (B : barren (Interactive.main api console getenv)).
  { unfold Interactive.main.
    apply barren_bind_r.
    { destruct (String.eqb _ _); [apply quiet_stop|apply quiet_ret]. }
    intros _. apply barren_bind_r; [apply session_fetchRepos_quiet|].
    intros repos. apply barren_bind_r; [apply session_filter_quiet|].
    intros repos'. apply barren_bind_r.
    { destruct (_ =? _)%nat; [|apply quiet_ret].
      apply quiet_bind; [apply quiet_emit; exact I|]. intros _. apply quiet_stop. }
    intros _. apply barren_bind_l. intros t0.
    unfold Interactive.confirm. rewrite bind_ask.
    specialize (N t0).
    destruct (Interactive.InteractiveTextInput_Show console t0 Interactive.confirmText)
      as [e|text].
    - simpl. rewrite createdRefs_app. simpl. rewrite app_nil_r.
      split; [reflexivity|discriminate].
    - rewrite bind_checked.
      destruct (String.eqb_spec text Interactive.DoIt) as [->|_]; [congruence|].
      simpl. rewrite !createdRefs_app. simpl. rewrite !app_nil_r.
      split; [reflexivity|discriminate]. }
  destruct (B t) as [Hc Hr]. split; [exact Hc|apply Hr].
Qed.

Lemma interactive_creates_nothing_without_DO_IT_witness :
  let api := Interactive.mkAPI
               (fun _ _ _ _ => inr (mkCommit "0123abc"))
               (fun _ _ _ ref => inr ref)
               (fun _ _ => inr true) in
  let console := Interactive.mkConsole
               (fun _ _ => inr [mkRepository "conduit" "conduitio/conduit" "conduitio" "main"])
               (fun _ _ _ _ => inr [mkReference "refs/tags/v0.3.0" "abc"])
               (fun _ => None) (fun _ => None)
               (fun _ opts _ => inr opts)
               (fun _ _ => inr "do it") in
  let run := Interactive.main (sorter := insertionSorter) api console
               (fun _ => "secret") [] in
  createdRefs (fst run) = createdRefs [] /\ snd run <> Ret tt.
Proof.
  intros api console run.
  apply (interactive_creates_nothing_without_DO_IT insertionSorter api console
           (fun _ => "secret") []).
  intros t'. discriminate.
Defined.

(** The inner loop of [filter] for an option that is not selected. *)
Lemma selectRepos_miss {A : Type} (o : string) (r : A) (sel : list string) :
  ~ In o sel ->
  flat_map (fun v2 => if String.eqb o v2 then [r] else []) sel = [].
Proof.
  induction sel as [|v sel IH]; intros N; [reflexivity|]. simpl.
  destruct (String.eqb_spec o v) as [->|_]; [exfalso; apply N; left; reflexivity|].
  apply IH. intros H. apply N. right. exact H.
Qed.

(** The inner loop of [filter] for a selection without repetition. *)
Lemma selectRepos_once {A : Type} (o : string) (r : A) (sel : list string) :
  NoDup sel ->
  flat_map (fun v2 => if String.eqb o v2 then [r] else []) sel
  = if existsb (String.eqb o) sel then [r] else [].
Proof.
  induction 1 as [|v sel Hv _ IH]; [reflexivity|]. simpl.
  destruct (String.eqb_spec o v) as [->|_]; simpl; [|exact IH].
  rewrite (selectRepos_miss v r sel Hv). reflexivity.
Qed.

Lemma selectRepos_none (opts sel : list string) (repos : list Interactive.repo) :
  (forall o, In o sel -> ~ In o opts) ->
  Interactive.selectRepos opts sel repos = [].
Proof.
  unfold Interactive.selectRepos. intros D.
  assert (G : forall l : list (string * Interactive.repo),
             (forall p, In p l -> In (fst p) opts) ->
             flat_map (fun '(v1, r) =>
                         flat_map (fun v2 => if String.eqb v1 v2 then [r] else [])
                                  sel) l = []).
  { induction l as [|[o r] l IH]; intros Hl; [reflexivity|]. simpl.
    rewrite selectRepos_miss.
    - apply IH. intros p Hp. apply Hl. right. exact Hp.
    - intros Hin. apply (D o Hin). apply (Hl (o, r)). left. reflexivity. }
  apply G. intros [o r] Hp. simpl. eapply in_combine_l. exact Hp.
Qed.

(** X20. When none of the options offered is selected, the interactive
    variant warns and leaves with status 1 right after the selection: the
    last confirmation is not asked and no ref-creating request is sent. *)
Theorem nothing_selected_exits (sorter : sort.Sorter) (api : Interactive.API)
    (console : Interactive.Console) (getenv : string -> string)
    (t t1 : trace) (repos : list Interactive.repo) (sel : list string) :
  getenv Interactive.EnvGithubToken <> EmptyString ->
  Interactive.fetchRepos console Interactive.org t = (t1, Ret repos) ->
  Interactive.InteractiveMultiselect_Show console t1
    (Interactive.buildOptions repos) Interactive.selectText = inr sel ->
  (forall o, In o sel -> ~ In o (Interactive.buildOptions repos)) ->
  Interactive.main api console getenv t
  = ((t1 ++ [Prompt Interactive.selectText;
             Terminal ("No repositories selected, abort!" ++ nl)])%list,
     Exit 1).
Proof.
  intros T F S D. unfold Interactive.main.
  apply String.eqb_neq in T. rewrite T. rewrite bind_ret.
  rewrite (bind_run _ _ _ _ _ F).
  unfold Interactive.filter.
  rewrite bind_assoc, bind_ask, S, bind_assoc, bind_checked, bind_ret.
  rewrite (selectRepos_none _ _ _ D). simpl List.length. cbv iota.
  unfold bind, emit, stop. simpl. rewrite <- app_assoc. reflexivity.
Qed.

Lemma nothing_selected_exits_witness :
  let api := Interactive.mkAPI
               (fun _ _ _ _ => inr (mkCommit "0123abc"))
               (fun _ _ _ ref => inr ref)
               (fun _ _ => inr true) in
  let console := Interactive.mkConsole
               (fun _ _ => inr [mkRepository "conduit" "conduitio/conduit" "conduitio" "main"])
               (fun _ _ _ _ => inr [mkReference "refs/tags/v0.3.0" "abc"])
               (fun _ => None) (fun _ => None)
               (fun _ _ _ => inr [])
               (fun _ _ => inr "DO IT") in
  exists t1,
    Interactive.main (sorter := insertionSorter) api console (fun _ => "secret") []
    = ((t1 ++ [Prompt Interactive.selectText;
               Terminal ("No repositories selected, abort!" ++ nl)])%list,
       Exit 1).
Proof.
  intros api console. eexists.
  eapply (nothing_selected_exits insertionSorter api console (fun _ => "secret")
            [] _ _ []).
  - discriminate.
  - vm_compute. reflexivity.
  - reflexivity.
  - intros o [].
Defined.

(** X21. When the selection holds no option twice, [filter] returns the
    repositories whose option is among the selected ones, each once and in
    the order of its argument, after the one prompt of the selection. *)
Theorem filter_keeps_the_selected (console : Interactive.Console)
    (repos : list Interactive.repo) (sel : list string) (t : trace) :
  Interactive.InteractiveMultiselect_Show console t
    (Interactive.buildOptions repos) Interactive.selectText = inr sel ->
  NoDup sel ->
  Interactive.filter console repos t
  = ((t ++ [Prompt Interactive.selectText])%list,
     Ret (map snd
            (List.filter (fun p => existsb (String.eqb (fst p)) sel)
                         (combine (Interactive.buildOptions repos) repos)))).
Proof.
  intros S N. unfold Interactive.filter.
  rewrite bind_ask, S, bind_checked. unfold ret. f_equal. f_equal.
  unfold Interactive.selectRepos.
  induction (combine (Interactive.buildOptions repos) repos) as [|[o r] l IH];
    [reflexivity|].
  simpl. rewrite IH, (selectRepos_once o r sel N).
  destruct (existsb (String.eqb o) sel); reflexivity.
Qed.

Lemma filter_keeps_the_selected_witness :
  let console := Interactive.mkConsole
               (fun _ _ => inl "unused") (fun _ _ _ _ => inl "unused")
               (fun _ => None) (fun _ => None)
               (fun _ opts _ => inr (tl opts))
               (fun _ _ => inl "unused") in
  let repos := [Interactive.mkRepo (mkRepository "a" "conduitio/a" "conduitio" "main")
                  None (semver.mkVersion 0 1 0 "" "" "v0.0.0");
                Interactive.mkRepo (mkRepository "b" "conduitio/b" "conduitio" "main")
                  None (semver.mkVersion 0 1 0 "" "" "v0.0.0")] in
  Interactive.filter console repos []
  = ([Prompt Interactive.selectText],
     Ret (map snd
            (List.filter (fun p => existsb (String.eqb (fst p))
                                           (tl (Interactive.buildOptions repos)))
                         (combine (Interactive.buildOptions repos) repos)))).
Proof.
  intros console repos.
  apply (filter_keeps_the_selected console repos
           (tl (Interactive.buildOptions repos)) []).
  - reflexivity.
  - vm_compute. repeat constructor; simpl; tauto.
Defined.

(* ================================================================== *)
(** * What [-verbose] changes *)
(* ================================================================== *)

Lemma unlog_app (t t' : trace) : unlog (t ++ t')%list = (unlog t ++ unlog t')%list.
Proof. apply filter_app. Qed.

Lemma alike_ret {A : Type} (a : A) : alike (ret a) (ret a).
Proof. intros t t' E. split; [exact E|reflexivity]. Qed.

Lemma alike_stop {A : Type} (o : outcome A) : alike (stop o) (stop o).
Proof. intros t t' E. split; [exact E|reflexivity]. Qed.

Lemma alike_emit (e : event) : alike (emit e) (emit e).
Proof.
  intros t t' E. unfold emit. simpl. rewrite !unlog_app, E. auto.
Qed.

Lemma alike_ask {R : Type} (e : event) (answer answer' : trace -> R) :
  (forall t t', unlog t = unlog t' -> answer t = answer' t') ->
  alike (ask e answer) (ask e answer').
Proof.
  intros H t t' E. unfold ask. simpl. rewrite !unlog_app, E, (H t t' E). auto.
Qed.

Lemma alike_bind {A B : Type} (m m' : M A) (k k' : A -> M B) :
  alike m m' -> (forall a, alike (k a) (k' a)) -> alike (bind m k) (bind m' k').
Proof.
  intros Hm Hk t t' E. unfold bind. destruct (Hm t t' E) as [Et Eo].
  destruct (m t) as [t1 o], (m' t') as [t1' o']. simpl in Et, Eo. subst o'.
  destruct o as [a| | |]; simpl; auto. apply Hk. exact Et.
Qed.

Lemma alike_noError (err : error) : alike (noError err) (noError err).
Proof. destruct err; [apply alike_stop|apply alike_ret]. Qed.

Lemma alike_checked {A : Type} (r : result A) : alike (checked r) (checked r).
Proof. destruct r; [apply alike_stop|apply alike_ret]. Qed.

Lemma alike_forM {A B : Type} (xs : list A) (f f' : A -> M B) :
  (forall x, alike (f x) (f' x)) -> alike (forM xs f) (forM xs f').
Proof.
  intros H. induction xs as [|x xs IH]; simpl; [apply alike_ret|].
  apply alike_bind; [apply H|]. intros y.
  apply alike_bind; [apply IH|]. intros ys. apply alike_ret.
Qed.

Lemma alike_log_Println (g g' : Fetcher.globals) (s : string) :
  alike (Fetcher.log_Println g s) (Fetcher.log_Println g' s).
Proof.
  intros t t' E. unfold Fetcher.log_Println, emit, ret.
  destruct (Fetcher.verbose g), (Fetcher.verbose g'); simpl;
    rewrite ?unlog_app; simpl; rewrite ?app_nil_r; auto.
Qed.

Lemma alike_log_Printf (g g' : Creator.globals) (s : string) :
  alike (Creator.log_Printf g s) (Creator.log_Printf g' s).
Proof.
  intros t t' E. unfold Creator.log_Printf, emit, ret.
  destruct (Creator.verbose g), (Creator.verbose g'); simpl;
    rewrite ?unlog_app; simpl; rewrite ?app_nil_r; auto.
Qed.

(** X22. [-verbose] only adds log lines to a run of [gh-tag-fetcher]: as
    long as the answers of the API do not depend on what the program
    logged, the run with the flag and the run without it end alike, and
    their traces, hence their requests and their standard output, are the
    same up to log lines. *)
Theorem fetcher_verbose_only_logs (sorter : sort.Sorter) (api : Fetcher.API)
    (b : string) (args : list string) (getenv : string -> string) (t : trace) :
  (forall t1 t2 org, unlog t1 = unlog t2 ->
     Fetcher.Repositories_ListByOrg api t1 org
     = Fetcher.Repositories_ListByOrg api t2 org) ->
  (forall t1 t2 org name ref, unlog t1 = unlog t2 ->
     Fetcher.Git_ListMatchingRefs api t1 org name ref
     = Fetcher.Git_ListMatchingRefs api t2 org name ref) ->
  unlog (fst (Fetcher.main api (Fetcher.mkCommandLine b true args) getenv t))
  = unlog (fst (Fetcher.main api (Fetcher.mkCommandLine b false args) getenv t))
  /\ snd (Fetcher.main api (Fetcher.mkCommandLine b true args) getenv t)
     = snd (Fetcher.main api (Fetcher.mkCommandLine b false args) getenv t).
Proof.
  intros HL HR.
  assert (F : forall g g' o,
             Fetcher.bump g' = Fetcher.bump g ->
             alike (Fetcher.fetchRepos api g o) (Fetcher.fetchRepos api g' o)).
  { intros g g' o Eb. unfold Fetcher.fetchRepos.
    apply alike_bind; [apply alike_log_Println|]. intros _.
    apply alike_bind; [apply alike_ask; intros; apply HL; assumption|]. intros r.
    apply alike_bind; [apply alike_checked|]. intros [|ghr ghRepos];
      [apply alike_ret|].
    apply alike_bind.
    { apply alike_forM. intros x. unfold Fetcher.fetchLatestTag.
      apply alike_bind.
      { apply alike_bind; [apply alike_log_Println|]. intros _.
        apply alike_bind; [apply alike_ask; intros; apply HR; assumption|].
        intros r'. apply alike_bind; [apply alike_checked|]. intros refs.
        apply alike_bind; [|intros _; apply alike_ret].
        destruct (forallb hasRef refs); [apply alike_ret|apply alike_stop]. }
      intros latest. rewrite Eb.
      destruct (Fetcher.bumpVersion latest (Fetcher.bump g));
        [apply alike_ret|apply alike_stop]. }
    intros repos. apply alike_bind; [apply alike_log_Println|]. intros _.
    apply alike_ret. }
  assert (P : forall g g' repos,
             alike (Fetcher.printRepos g repos) (Fetcher.printRepos g' repos)).
  { intros g g' repos. unfold Fetcher.printRepos.
    apply alike_bind; [apply alike_log_Println|]. intros _. apply alike_emit. }
  unfold Fetcher.main, Fetcher.parseFlags. rewrite !Fetcher_parsed. cbv beta.
  cbn [Fetcher.flag_args Fetcher.flag_bump Fetcher.flag_verbose].
  destruct (List.length args =? 0)%nat; [split; reflexivity|].
  destruct (1 <? List.length args)%nat; [split; reflexivity|].
  destruct (String.eqb (getenv Fetcher.EnvGithubToken) EmptyString);
    [split; reflexivity|].
  destruct (String.eqb b "patch" || String.eqb b "minor" || String.eqb b "major")%bool;
    [|split; reflexivity].
  cbv iota. repeat (rewrite bind_assoc || rewrite bind_ret).
  cbn [Fetcher.org].
  match goal with
  | |- context [Fetcher.fetchRepos api ?g ?o] =>
      match goal with
      | |- context [Fetcher.fetchRepos api ?g' o] =>
          assert_fails (constr_eq g g');
          apply (alike_bind _ _ _ _ (F g g' o eq_refl) (fun repos => P g g' repos) t t
                   eq_refl)
      end
  end.
Qed.

Lemma fetcher_verbose_only_logs_witness :
  let api := Fetcher.mkAPI
               (fun _ _ => inr [mkRepository "A" "org/A" "org" "main"])
               (fun _ _ _ _ => inr [mkReference "refs/tags/v1.2.3" "abc"]) in
  let verbosely := Fetcher.main (sorter := insertionSorter) api
                     (Fetcher.mkCommandLine "patch" true ["org"]) (fun _ => "secret") [] in
  let quietly := Fetcher.main (sorter := insertionSorter) api
                   (Fetcher.mkCommandLine "patch" false ["org"]) (fun _ => "secret") [] in
  unlog (fst verbosely) = unlog (fst quietly) /\ snd verbosely = snd quietly.
Proof.
  intros api verbosely quietly.
  apply (fetcher_verbose_only_logs insertionSorter api "patch" ["org"]
           (fun _ => "secret") []); reflexivity.
Defined.

(** X23. [-verbose] only adds log lines to a run of [gh-tag-creator]: as
    long as the answers of the API and of the terminal do not depend on
    what the program logged, the run with the flag and the run without it
    end alike, and their traces, hence the refs they create, are the same
    up to log lines. *)
Theorem creator_verbose_only_logs (api : Creator.API)
    (Reference_String : Reference -> string) (y : bool)
    (getenv : string -> string) (input : list string) (t : trace) :
  (forall t1 t2 org name, unlog t1 = unlog t2 ->
     Creator.Repositories_Get api t1 org name
     = Creator.Repositories_Get api t2 org name) ->
  (forall t1 t2 org name branch, unlog t1 = unlog t2 ->
     Creator.Repositories_GetCommit api t1 org name branch
     = Creator.Repositories_GetCommit api t2 org name branch) ->
  (forall t1 t2 org name ref, unlog t1 = unlog t2 ->
     Creator.Git_CreateRef api t1 org name ref
     = Creator.Git_CreateRef api t2 org name ref) ->
  (forall t1 t2, unlog t1 = unlog t2 ->
     Creator.tty_Read api t1 = Creator.tty_Read api t2) ->
  unlog (fst (Creator.main api Reference_String (Creator.mkCommandLine true y)
                getenv input t))
  = unlog (fst (Creator.main api Reference_String (Creator.mkCommandLine false y)
                  getenv input t))
  /\ snd (Creator.main api Reference_String (Creator.mkCommandLine true y)
            getenv input t)
     = snd (Creator.main api Reference_String (Creator.mkCommandLine false y)
              getenv input t).
Proof.
  intros HG HC HR HT.
  assert (F : forall g g',
             alike (Creator.fetchRepos api g input) (Creator.fetchRepos api g' input)).
  { intros g g'. unfold Creator.fetchRepos. apply alike_forM. intros line.
    unfold Creator.fetchRepo.
    apply alike_bind; [destruct (negb _); [apply alike_noError|apply alike_ret]|].
    intros _.
    apply alike_bind; [destruct (negb _); [apply alike_noError|apply alike_ret]|].
    intros _.
    apply alike_bind; [apply alike_log_Printf|]. intros _.
    apply alike_bind; [apply alike_ask; intros; apply HG; assumption|]. intros a.
    apply alike_bind; [apply alike_checked|]. intros r. apply alike_ret. }
  assert (C : forall g g' repos,
             Creator.yes g' = Creator.yes g ->
             alike (Creator.confirm api g repos) (Creator.confirm api g' repos)).
  { intros g g' repos Ey. unfold Creator.confirm. rewrite Ey.
    destruct (Creator.yes g); [apply alike_ret|].
    apply alike_bind; [apply alike_emit|]. intros _.
    apply alike_bind; [apply alike_emit|]. intros _.
    apply alike_bind; [apply alike_emit|]. intros _.
    apply alike_bind; [apply alike_emit|]. intros _.
    apply alike_bind; [apply alike_ask; exact HT|]. intros a.
    apply alike_bind; [apply alike_checked|]. intros c.
    destruct (_ && _)%bool; [apply alike_noError|apply alike_ret]. }
  assert (T : forall g g' repos,
             alike (Creator.createTags api Reference_String g repos)
                   (Creator.createTags api Reference_String g' repos)).
  { intros g g' repos. unfold Creator.createTags.
    apply alike_bind; [|intros; apply alike_ret].
    apply alike_forM. intros r. unfold Creator.createTag.
    apply alike_bind; [apply alike_ask; intros; apply HC; assumption|]. intros a.
    apply alike_bind; [apply alike_checked|]. intros commit.
    apply alike_bind; [apply alike_log_Printf|]. intros _.
    apply alike_bind; [apply alike_ask; intros; apply HR; assumption|]. intros a'.
    apply alike_bind; [apply alike_checked|]. intros ref.
    apply alike_log_Printf. }
  unfold Creator.main, Creator.parseFlags. rewrite !Creator_parsed. cbv beta.
  cbn [Creator.flag_verbose Creator.flag_yes].
  destruct (String.eqb (getenv Creator.EnvGithubToken) EmptyString);
    [split; reflexivity|].
  cbv iota. repeat (rewrite bind_assoc || rewrite bind_ret).
  destruct (List.length input =? 0)%nat; [split; reflexivity|].
  cbv iota. rewrite !bind_ret.
  set (g := Creator.mkGlobals true y _).
  set (g' := Creator.mkGlobals false y _).
  apply (alike_bind _ _ _ _ (F g g')
           (fun repos => alike_bind _ _ _ _ (C g g' repos eq_refl)
                           (fun _ => T g g' repos)) t t eq_refl).
Qed.

Lemma creator_verbose_only_logs_witness :
  let api := Creator.mkAPI
               (fun _ owner name => inr (mkRepository name (owner ++ "/" ++ name) owner "main"))
               (fun _ _ _ _ => inr (mkCommit "0123abc"))
               (fun _ _ _ ref => inr ref)
               (fun _ => inr "y"%char) in
  let input := ["github.com/conduitio/conduit v0.4.0"] in
  let verbosely := Creator.main api Ref (Creator.mkCommandLine true false)
                     (fun _ => "secret") input [] in
  let quietly := Creator.main api Ref (Creator.mkCommandLine false false)
                   (fun _ => "secret") input [] in
  unlog (fst verbosely) = unlog (fst quietly) /\ snd verbosely = snd quietly.
Proof.
  intros api input verbosely quietly.
  apply (creator_verbose_only_logs api Ref false (fun _ => "secret") input []);
    reflexivity.
Defined.
